(** * Investment calculator: projection engine and scenario controller

    A shallow embedding of the [Home] component (the month-by-month
    projection computed in [summary], the input handlers, the scenario
    handlers and the local-storage effect) and of the [POST] handler of
    [src/app/api/scenarios/route.ts], with the properties the specification
    states about them. *)

From Stdlib Require Import ZArith QArith Qcanon Qreals Reals Lra Lia.
From Stdlib Require Import Floats Ascii String.
From stdpp Require Import gmap strings list.

(** ** Numbers

    The source computes with JavaScript numbers.  The engine below is written
    once, over an interface holding exactly the operations the source applies
    to numbers; it is then run on IEEE-754 binary64 (the arithmetic of the
    source) and on exact rationals (the arithmetic the specification reasons
    in). *)

Class NumberOps (num : Type) := {
  lit : Q → num;                 (* a numeric literal, or a counter's value *)
  nadd : num → num → num;        (* a + b *)
  nsub : num → num → num;        (* a - b *)
  nmul : num → num → num;        (* a * b *)
  ndiv : num → num → num;        (* a / b *)
  ngt : num → num → bool;        (* a > b *)
  nle : num → num → bool;        (* a <= b *)
  isNaN : num → bool;            (* Number.isNaN(a) *)
}.

Declare Scope num_scope.
Delimit Scope num_scope with num.
Infix "+" := nadd : num_scope.
Infix "-" := nsub : num_scope.
Infix "*" := nmul : num_scope.
Infix "/" := ndiv : num_scope.
Infix ">?" := ngt (at level 70, no associativity) : num_scope.
Infix "<=?" := nle (at level 70, no associativity) : num_scope.

(** Binary64.  An integer below 2^63 in magnitude converts with one rounding,
    and a quotient of two exactly represented integers is the correctly
    rounded value of the fraction, as a decimal literal is. *)
Definition float_of_Z (z : Z) : float :=
  if (z <? 0)%Z then PrimFloat.opp (PrimFloat.of_uint63 (Uint63.of_Z (- z)))
  else PrimFloat.of_uint63 (Uint63.of_Z z).

#[export] Instance float_number : NumberOps float := {|
  lit q := PrimFloat.div (float_of_Z (Qnum q)) (float_of_Z (Zpos (Qden q)));
  nadd := PrimFloat.add;
  nsub := PrimFloat.sub;
  nmul := PrimFloat.mul;
  ndiv := PrimFloat.div;
  ngt a b := PrimFloat.ltb b a;
  nle := PrimFloat.leb;
  isNaN := PrimFloat.is_nan;
|}.

(** Exact rationals: no rounding, no infinities and no NaN. *)
#[export] Instance Qc_number : NumberOps Qc := {|
  lit := Q2Qc;
  nadd := Qcplus;
  nsub := Qcminus;
  nmul := Qcmult;
  ndiv := Qcdiv;
  ngt a b := bool_decide (b < a)%Qc;
  nle a b := bool_decide (a <= b)%Qc;
  isNaN _ := false;
|}.

(** ** Data model (types of [src/unnamed/part_000]) *)

Inductive ContributionFrequency := annual | monthly.

(** What the [contributionFrequency] slot holds at run time: one of the two
    strings, or a number when [handleInputChange] was called with that key
    (its [field] parameter ranges over every key of [InvestmentInputs]). *)
Inductive FrequencySlot (num : Type) :=
  | Freq (f : ContributionFrequency)
  | FreqNumber (n : num).
Arguments Freq {num} f.
Arguments FreqNumber {num} n.

Record InvestmentInputs (num : Type) := {
  startingAmount : num;
  contributionAmount : num;
  contributionFrequency : FrequencySlot num;
  annualGrowthRate : num;
  inflationRate : num;
  yearsToGrow : num;
}.
Arguments startingAmount {num} _.
Arguments contributionAmount {num} _.
Arguments contributionFrequency {num} _.
Arguments annualGrowthRate {num} _.
Arguments inflationRate {num} _.
Arguments yearsToGrow {num} _.

(** [year] is the value of the loop counter, an integer. *)
Record YearlySnapshot (num : Type) := {
  year : Z;
  contribution : num;
  growth : num;
  balance : num;
  totalContributions : num;
  realBalance : num;
}.
Arguments year {num} _.
Arguments contribution {num} _.
Arguments growth {num} _.
Arguments balance {num} _.
Arguments totalContributions {num} _.
Arguments realBalance {num} _.

Record Scenario (num : Type) := {
  id : string;
  name : string;
  createdAt : string;
  inputs : InvestmentInputs num;
}.
Arguments id {num} _.
Arguments name {num} _.
Arguments createdAt {num} _.
Arguments inputs {num} _.

(** The value [useMemo] returns. *)
Record Summary (num : Type) := {
  rows : list (YearlySnapshot num);
  finalBalance : num;
  finalRealBalance : num;
  summaryTotalContributions : num;
  totalGrowth : num;
}.
Arguments rows {num} _.
Arguments finalBalance {num} _.
Arguments finalRealBalance {num} _.
Arguments summaryTotalContributions {num} _.
Arguments totalGrowth {num} _.

(** ** The projection ([summary], lines 136-192) *)

Section Projection.
Context {num : Type} `{NumberOps num}.
Local Open Scope num_scope.

Definition defaultInputs : InvestmentInputs num := {|
  startingAmount := lit 10000;
  contributionAmount := lit 500;
  contributionFrequency := Freq monthly;
  annualGrowthRate := lit 8;
  inflationRate := lit 2.5;
  yearsToGrow := lit 20;
|}.

(** [inputs.contributionFrequency === "monthly"] *)
Definition is_monthly (slot : FrequencySlot num) : bool :=
  match slot with
  | Freq monthly => true
  | _ => false
  end.

(** The variables the two loops update. *)
Record Sim := {
  sim_balance : num;
  sim_totalContributions : num;
  sim_inflationFactor : num;
  contributionThisYear : num;
  growthThisYear : num;
}.

Variable inp : InvestmentInputs num.

Definition monthlyGrowthRate : num := annualGrowthRate inp / lit 100 / lit 12.
Definition monthlyInflationRate : num := inflationRate inp / lit 100 / lit 12.

(** The contribution of month [month] (lines 150-155). *)
Definition month_contribution (month : Z) : num :=
  if is_monthly (contributionFrequency inp) then contributionAmount inp
  else if (month =? 1)%Z then contributionAmount inp
  else lit 0.

(** One iteration of the inner loop (lines 150-169). *)
Definition month_step (s : Sim) (month : Z) : Sim :=
  let contribution := month_contribution month in
  let s1 :=
    if contribution >? lit 0 then
      {| sim_balance := sim_balance s + contribution;
         sim_totalContributions := sim_totalContributions s + contribution;
         sim_inflationFactor := sim_inflationFactor s;
         contributionThisYear := contributionThisYear s + contribution;
         growthThisYear := growthThisYear s |}
    else s in
  let growth := sim_balance s1 * monthlyGrowthRate in
  {| sim_balance := sim_balance s1 + growth;
     sim_totalContributions := sim_totalContributions s1;
     sim_inflationFactor :=
       if monthlyInflationRate >? lit 0
       then sim_inflationFactor s1 * (lit 1 + monthlyInflationRate)
       else sim_inflationFactor s1;
     contributionThisYear := contributionThisYear s1;
     growthThisYear := growthThisYear s1 + growth |}.

(** [for (let month = 1; month <= 12; month++)] *)
Definition months : list Z := seqZ 1 12.

(** [let contributionThisYear = 0; let growthThisYear = 0;] *)
Definition year_start (s : Sim) : Sim :=
  {| sim_balance := sim_balance s;
     sim_totalContributions := sim_totalContributions s;
     sim_inflationFactor := sim_inflationFactor s;
     contributionThisYear := lit 0;
     growthThisYear := lit 0 |}.

Definition run_year (s : Sim) : Sim :=
  fold_left month_step months (year_start s).

(** The object pushed at lines 172-179. *)
Definition snapshot (y : Z) (s : Sim) : YearlySnapshot num :=
  {| year := y;
     contribution := contributionThisYear s;
     growth := growthThisYear s;
     balance := sim_balance s;
     totalContributions := sim_totalContributions s;
     realBalance := sim_balance s / sim_inflationFactor s |}.

(** [for (let year = 1; year <= inputs.yearsToGrow; year++)].  The counter
    takes integer values only; it is kept as an integer and converted where
    the source compares it with [yearsToGrow].  The loop has no bound of its
    own, so the model takes fuel and returns [None] when it runs out. *)
Fixpoint year_loop (fuel : nat) (y : Z) (s : Sim)
    (acc : list (YearlySnapshot num)) : option (Sim * list (YearlySnapshot num)) :=
  match fuel with
  | O => None
  | S fuel' =>
      if lit (inject_Z y) <=? yearsToGrow inp then
        let s' := run_year s in
        year_loop fuel' (y + 1) s' (acc ++ [snapshot y s'])
      else Some (s, acc)
  end.

Definition initial : Sim :=
  {| sim_balance := startingAmount inp;
     sim_totalContributions := startingAmount inp;
     sim_inflationFactor := lit 1;
     contributionThisYear := lit 0;
     growthThisYear := lit 0 |}.

Definition summary (fuel : nat) : option (Summary num) :=
  match year_loop fuel 1 initial [] with
  | None => None
  | Some (s, rs) =>
      (* rows.at(-1)?.balance ?? inputs.startingAmount *)
      let fb := default (startingAmount inp) (balance <$> last rs) in
      (* rows.at(-1)?.realBalance ?? finalBalance *)
      let frb := default fb (realBalance <$> last rs) in
      Some {| rows := rs;
              finalBalance := fb;
              finalRealBalance := frb;
              summaryTotalContributions := sim_totalContributions s;
              totalGrowth := fb - sim_totalContributions s |}
  end.
End Projection.

(** ** Exact arithmetic

    The laws the specification's arithmetic reasoning relies on: every
    operation is the operation on real numbers.  Rationals satisfy them;
    binary64 does not (it rounds, overflows and has NaN). *)

Class ExactNumber (num : Type) `{NumberOps num} := {
  toR : num → R;
  toR_inj x y : toR x = toR y → x = y;
  toR_lit q : toR (lit q) = Q2R q;
  toR_add x y : toR (x + y)%num = (toR x + toR y)%R;
  toR_sub x y : toR (x - y)%num = (toR x - toR y)%R;
  toR_mul x y : toR (x * y)%num = (toR x * toR y)%R;
  toR_div x y : toR (x / y)%num = (toR x / toR y)%R;
  ngt_spec x y : (x >? y)%num = true ↔ (toR y < toR x)%R;
  nle_spec x y : (x <=? y)%num = true ↔ (toR x <= toR y)%R;
}.

Lemma Q2R_Qred (q : Q) : Q2R (Qred q) = Q2R q.
Proof. apply Qeq_eqR, Qred_correct. Qed.

Lemma Q2R_Qinv (q : Q) : Q2R (/ q) = (/ Q2R q)%R.
Proof.
  destruct (Qeq_dec q 0) as [E|E].
  - rewrite (Qeq_eqR _ _ E), (Qeq_eqR (/ q) 0).
    + unfold Q2R; simpl. rewrite Rmult_0_l, Rinv_0. reflexivity.
    + rewrite E. reflexivity.
  - apply Q2R_inv, E.
Qed.

#[export, refine] Instance Qc_exact : ExactNumber Qc := {|
  toR q := Q2R (this q);
|}.
Proof.
  - intros x y E. apply Qc_is_canon, eqR_Qeq, E.
  - intros q. simpl. apply Q2R_Qred.
  - intros x y. simpl. rewrite Q2R_Qred. apply Q2R_plus.
  - intros x y. simpl. rewrite Q2R_Qred, Q2R_plus, Q2R_Qred, Q2R_opp. reflexivity.
  - intros x y. simpl. rewrite Q2R_Qred. apply Q2R_mult.
  - intros x y. simpl. rewrite Q2R_Qred, Q2R_mult, Q2R_Qred, Q2R_Qinv. reflexivity.
  - intros x y. simpl. rewrite bool_decide_eq_true. split.
    + apply Qlt_Rlt.
    + apply Rlt_Qlt.
  - intros x y. simpl. rewrite bool_decide_eq_true. split.
    + apply Qle_Rle.
    + apply Rle_Qle.
Qed.

(** ** The year loop unrolled

    Facts that hold for every number type, binary64 included: they follow the
    control flow only. *)

Section YearLoop.
Context {num : Type} `{NumberOps num}.
Variable inp : InvestmentInputs num.
Local Open Scope num_scope.

(** The loop test [year <= inputs.yearsToGrow]. *)
Definition year_test (y : Z) : bool := lit (inject_Z y) <=? yearsToGrow inp.

(** The snapshots of [n] consecutive years starting with year [y] in
    state [s], and the state they end in. *)
Fixpoint rows_from (y : Z) (s : Sim) (n : nat) : list (YearlySnapshot num) :=
  match n with
  | O => []
  | S n' => let s' := run_year inp s in snapshot y s' :: rows_from (y + 1) s' n'
  end.

Fixpoint state_from (s : Sim) (n : nat) : Sim :=
  match n with
  | O => s
  | S n' => state_from (run_year inp s) n'
  end.

(** The state at the end of year [k] (the initial state for [k = 0]). *)
Definition after_years (k : nat) : Sim := state_from (initial inp) k.

Lemma state_from_succ s n : state_from s (S n) = run_year inp (state_from s n).
Proof.
  revert s. induction n as [|n IH]; intros s; [reflexivity|].
  change (state_from s (S (S n))) with (state_from (run_year inp s) (S n)).
  rewrite IH. reflexivity.
Qed.

Lemma length_rows_from y s n : length (rows_from y s n) = n.
Proof.
  revert y s. induction n as [|n IH]; intros y s; simpl; [reflexivity|].
  rewrite IH. reflexivity.
Qed.

Lemma lookup_rows_from y s n i :
  (i < n)%nat →
  rows_from y s n !! i = Some (snapshot (y + Z.of_nat i) (state_from s (S i))).
Proof.
  revert y s i. induction n as [|n IH]; intros y s i Hi; [lia|].
  destruct i as [|i].
  - simpl. rewrite Z.add_0_r. reflexivity.
  - cbn [rows_from lookup list_lookup]. rewrite IH by lia.
    replace (y + 1 + Z.of_nat i)%Z with (y + Z.of_nat (S i))%Z by lia.
    reflexivity.
Qed.

Lemma last_rows_from y s n :
  last (rows_from y s (S n)) = Some (snapshot (y + Z.of_nat n) (state_from s (S n))).
Proof.
  rewrite last_lookup, length_rows_from. simpl Nat.pred.
  apply lookup_rows_from. lia.
Qed.

(** What a run of the loop that ends has done. *)
Lemma year_loop_Some fuel y s acc s' rs :
  year_loop inp fuel y s acc = Some (s', rs) →
  ∃ n, (n < fuel)%nat
     ∧ (∀ k, (k < n)%nat → year_test (y + Z.of_nat k) = true)
     ∧ year_test (y + Z.of_nat n) = false
     ∧ s' = state_from s n
     ∧ rs = acc ++ rows_from y s n.
Proof.
  revert y s acc. induction fuel as [|fuel IH]; intros y s acc; [discriminate|].
  cbn [year_loop]. fold (year_test y).
  destruct (year_test y) eqn:Ht.
  - intros E. apply IH in E as (n & Hn & Hlt & Hge & -> & ->).
    exists (S n). split; [lia|]. split; [|split; [|split]].
    + intros [|k] Hk.
      * rewrite Z.add_0_r. exact Ht.
      * replace (y + Z.of_nat (S k))%Z with (y + 1 + Z.of_nat k)%Z by lia.
        apply Hlt. lia.
    + replace (y + Z.of_nat (S n))%Z with (y + 1 + Z.of_nat n)%Z by lia. exact Hge.
    + reflexivity.
    + rewrite <- app_assoc. reflexivity.
  - intros [= <- <-]. exists O. split; [lia|]. split; [intros; lia|].
    rewrite Z.add_0_r, app_nil_r. auto.
Qed.

(** Conversely, the loop ends as soon as the test fails, given fuel for one
    test more than the number of years that pass it. *)
Lemma year_loop_run n fuel y s acc :
  (n < fuel)%nat →
  (∀ k, (k < n)%nat → year_test (y + Z.of_nat k) = true) →
  year_test (y + Z.of_nat n) = false →
  year_loop inp fuel y s acc = Some (state_from s n, acc ++ rows_from y s n).
Proof.
  revert fuel y s acc. induction n as [|n IH]; intros fuel y s acc Hf Hlt Hge.
  - destruct fuel as [|fuel]; [lia|]. cbn [year_loop]. fold (year_test y).
    rewrite Z.add_0_r in Hge. rewrite Hge, app_nil_r. reflexivity.
  - destruct fuel as [|fuel]; [lia|]. cbn [year_loop]. fold (year_test y).
    pose proof (Hlt O ltac:(lia)) as Ht. cbn [Z.of_nat] in Ht.
    rewrite Z.add_0_r in Ht. rewrite Ht, IH.
    + cbn [state_from rows_from]. rewrite <- app_assoc. reflexivity.
    + lia.
    + intros k Hk. replace (y + 1 + Z.of_nat k)%Z with (y + Z.of_nat (S k))%Z by lia.
      apply Hlt. lia.
    + replace (y + 1 + Z.of_nat n)%Z with (y + Z.of_nat (S n))%Z by lia. exact Hge.
Qed.

(** More fuel does not change a result. *)
Lemma year_loop_fuel fuel fuel' y s acc r :
  year_loop inp fuel y s acc = Some r → (fuel <= fuel')%nat →
  year_loop inp fuel' y s acc = Some r.
Proof.
  destruct r as [s' rs]. intros E Hle.
  apply year_loop_Some in E as (n & Hn & Hlt & Hge & -> & ->).
  apply year_loop_run; [lia|assumption|assumption].
Qed.

(** The summary of a run of [n] years. *)
Definition summary_of (n : nat) : Summary num :=
  let rs := rows_from 1 (initial inp) n in
  let fb := default (startingAmount inp) (balance <$> last rs) in
  {| rows := rs;
     finalBalance := fb;
     finalRealBalance := default fb (realBalance <$> last rs);
     summaryTotalContributions := sim_totalContributions (after_years n);
     totalGrowth := fb - sim_totalContributions (after_years n) |}.

Lemma summary_Some fuel r :
  summary inp fuel = Some r →
  ∃ n, (n < fuel)%nat
     ∧ (∀ k, (k < n)%nat → year_test (1 + Z.of_nat k) = true)
     ∧ year_test (1 + Z.of_nat n) = false
     ∧ r = summary_of n.
Proof.
  unfold summary. destruct (year_loop inp fuel 1 (initial inp) []) as [[s rs]|] eqn:E;
    [|discriminate].
  apply year_loop_Some in E as (n & Hn & Hlt & Hge & -> & ->).
  intros [= <-]. exists n. repeat split; assumption.
Qed.

Lemma summary_run n fuel :
  (n < fuel)%nat →
  (∀ k, (k < n)%nat → year_test (1 + Z.of_nat k) = true) →
  year_test (1 + Z.of_nat n) = false →
  summary inp fuel = Some (summary_of n).
Proof.
  intros Hf Hlt Hge. unfold summary.
  rewrite (year_loop_run n) by assumption. reflexivity.
Qed.

Lemma summary_fuel fuel fuel' r :
  summary inp fuel = Some r → (fuel <= fuel')%nat → summary inp fuel' = Some r.
Proof.
  intros E Hle. apply summary_Some in E as (n & Hn & Hlt & Hge & ->).
  apply summary_run; [lia|assumption|assumption].
Qed.

(** Two runs that end agree, whatever fuel they were given. *)
Lemma summary_deterministic fuel fuel' r r' :
  summary inp fuel = Some r → summary inp fuel' = Some r' → r = r'.
Proof.
  intros E E'.
  apply (summary_fuel _ (Nat.max fuel fuel')) in E; [|lia].
  apply (summary_fuel _ (Nat.max fuel fuel')) in E'; [|lia].
  congruence.
Qed.

Lemma summary_of_row n i row :
  rows (summary_of n) !! i = Some row →
  (i < n)%nat ∧ row = snapshot (1 + Z.of_nat i) (after_years (S i)).
Proof.
  cbn [summary_of rows]. intros E.
  assert (i < n)%nat as Hi.
  { apply lookup_lt_Some in E. rewrite length_rows_from in E. exact E. }
  rewrite lookup_rows_from in E by exact Hi. split; [exact Hi|unfold after_years; congruence].
Qed.
End YearLoop.

(** ** The projection in exact arithmetic *)

Section Exact.
Context {num : Type} `{ExactNumber num}.
Variable inp : InvestmentInputs num.
Local Open Scope num_scope.

Lemma toR_lit_Z (z : Z) : toR (lit (inject_Z z)) = IZR z.
Proof. rewrite toR_lit. unfold Q2R. simpl. lra. Qed.

Lemma toR_0 : toR (lit 0) = 0%R.
Proof. apply (toR_lit_Z 0). Qed.

Lemma toR_1 : toR (lit 1) = 1%R.
Proof. apply (toR_lit_Z 1). Qed.

Lemma toR_12 : toR (lit 12) = 12%R.
Proof. apply (toR_lit_Z 12). Qed.

Lemma toR_100 : toR (lit 100) = 100%R.
Proof. apply (toR_lit_Z 100). Qed.

Lemma ngt_false x y : (x >? y) = false ↔ (toR x <= toR y)%R.
Proof.
  rewrite <- not_true_iff_false, ngt_spec. split; [apply Rnot_lt_le|apply Rle_not_lt].
Qed.

Lemma nle_false x y : (x <=? y) = false ↔ (toR y < toR x)%R.
Proof.
  rewrite <- not_true_iff_false, nle_spec. split; [apply Rnot_le_lt|apply Rlt_not_le].
Qed.

Lemma year_test_true y : year_test inp y = true ↔ (IZR y <= toR (yearsToGrow inp))%R.
Proof. unfold year_test. rewrite nle_spec, toR_lit_Z. reflexivity. Qed.

Lemma year_test_false y : year_test inp y = false ↔ (toR (yearsToGrow inp) < IZR y)%R.
Proof. unfold year_test. rewrite nle_false, toR_lit_Z. reflexivity. Qed.

(** *** Termination: the loop runs for the whole years below
    [yearsToGrow] and then stops *)

Definition years_run : nat := Z.to_nat (up (toR (yearsToGrow inp)) - 1).

Lemma years_run_test_true k :
  (k < years_run)%nat → year_test inp (1 + Z.of_nat k) = true.
Proof.
  unfold years_run. intros Hk. apply year_test_true.
  destruct (archimed (toR (yearsToGrow inp))) as [_ Hup].
  assert (1 + Z.of_nat k <= up (toR (yearsToGrow inp)) - 1)%Z as Hz by lia.
  apply IZR_le in Hz. rewrite minus_IZR in Hz. lra.
Qed.

Lemma years_run_test_false : year_test inp (1 + Z.of_nat years_run) = false.
Proof.
  unfold years_run. apply year_test_false.
  destruct (archimed (toR (yearsToGrow inp))) as [Hup _].
  destruct (Z.le_gt_cases 0 (up (toR (yearsToGrow inp)) - 1)) as [Hz|Hz].
  - rewrite Z2Nat.id by exact Hz.
    replace (1 + (up (toR (yearsToGrow inp)) - 1))%Z
      with (up (toR (yearsToGrow inp))) by lia.
    lra.
  - replace (Z.to_nat (up (toR (yearsToGrow inp)) - 1)) with O by lia. simpl.
    assert (up (toR (yearsToGrow inp)) <= 0)%Z as Hz' by lia.
    apply IZR_le in Hz'. change (1 + Z.of_nat 0)%Z with 1%Z. lra.
Qed.

(** The projection returns, with fuel for one test more than the years
    it runs. *)
Lemma summary_exact fuel :
  (years_run < fuel)%nat → summary inp fuel = Some (summary_of inp years_run).
Proof.
  intros Hf. apply summary_run;
    [exact Hf|apply years_run_test_true|apply years_run_test_false].
Qed.

Lemma summary_Some_exact fuel r :
  summary inp fuel = Some r → r = summary_of inp years_run.
Proof.
  intros E. pose proof (summary_exact (S years_run) ltac:(lia)) as E'.
  exact (summary_deterministic inp _ _ _ _ E E').
Qed.

Lemma years_run_integer (N : Z) :
  yearsToGrow inp = lit (inject_Z N) → years_run = Z.to_nat N.
Proof.
  intros E. unfold years_run. rewrite E, toR_lit_Z.
  assert (up (IZR N) = (N + 1)%Z) as ->.
  { symmetry. apply up_tech; rewrite ?plus_IZR; lra. }
  f_equal. lia.
Qed.

Lemma years_run_nonpositive :
  (yearsToGrow inp <=? lit 0) = true → years_run = O.
Proof.
  rewrite nle_spec, toR_0. intros Hle. unfold years_run.
  destruct (archimed (toR (yearsToGrow inp))) as [_ Hup].
  assert (IZR (up (toR (yearsToGrow inp))) <= 1)%R as Hz by lra.
  apply le_IZR in Hz. lia.
Qed.
End Exact.

(** ** One month, twelve months

    Again for every number type. *)

Section Months.
Context {num : Type} `{NumberOps num}.
Variable inp : InvestmentInputs num.
Local Open Scope num_scope.

Lemma months_eq : months = [1; 2; 3; 4; 5; 6; 7; 8; 9; 10; 11; 12]%Z.
Proof. reflexivity. Qed.

Lemma fold_left_cons {A B} (f : A → B → A) (x : B) (l : list B) (a : A) :
  fold_left f (x :: l) a = fold_left f l (f a x).
Proof. reflexivity. Qed.

(** The balance once the month's contribution has been considered
    (lines 157-161): the contribution is added when it is positive. *)
Definition balance_after_contribution (s : Sim) (month : Z) : num :=
  if month_contribution inp month >? lit 0
  then sim_balance s + month_contribution inp month
  else sim_balance s.

Lemma month_step_balance s m :
  sim_balance (month_step inp s m)
  = balance_after_contribution s m
    + balance_after_contribution s m * (annualGrowthRate inp / lit 100 / lit 12).
Proof.
  unfold month_step, balance_after_contribution, monthlyGrowthRate.
  destruct (month_contribution inp m >? lit 0); reflexivity.
Qed.

(** The monthly update of the inflation factor (lines 167-169). *)
Definition inflation_update (f : num) : num :=
  if monthlyInflationRate inp >? lit 0
  then f * (lit 1 + monthlyInflationRate inp)
  else f.

(** The factor accumulated over a number of months, starting at 1. *)
Definition inflation_factor_after (n_months : nat) : num :=
  Nat.iter n_months inflation_update (lit 1).

Lemma month_step_inflation s m :
  sim_inflationFactor (month_step inp s m) = inflation_update (sim_inflationFactor s).
Proof.
  unfold month_step, inflation_update.
  destruct (month_contribution inp m >? lit 0); reflexivity.
Qed.

Lemma fold_months_inflation ms s :
  sim_inflationFactor (fold_left (month_step inp) ms s)
  = Nat.iter (length ms) inflation_update (sim_inflationFactor s).
Proof.
  revert s. induction ms as [|m ms IH]; intros s; [reflexivity|].
  cbn [fold_left length]. rewrite IH, month_step_inflation.
  rewrite <- Nat.iter_succ_r. reflexivity.
Qed.

Lemma run_year_inflation s :
  sim_inflationFactor (run_year inp s)
  = Nat.iter 12 inflation_update (sim_inflationFactor s).
Proof. unfold run_year. rewrite fold_months_inflation. reflexivity. Qed.

Lemma after_years_inflation k :
  sim_inflationFactor (after_years inp k) = inflation_factor_after (12 * k).
Proof.
  unfold after_years, inflation_factor_after.
  induction k as [|k IH]; [reflexivity|].
  rewrite state_from_succ, run_year_inflation, IH.
  replace (12 * S k)%nat with (12 + 12 * k)%nat by lia.
  rewrite Nat.iter_add. reflexivity.
Qed.


Lemma month_contribution_first :
  month_contribution inp 1 = contributionAmount inp.
Proof.
  unfold month_contribution.
  destruct (is_monthly (contributionFrequency inp)); reflexivity.
Qed.

Lemma month_contribution_monthly m :
  is_monthly (contributionFrequency inp) = true →
  month_contribution inp m = contributionAmount inp.
Proof. intros Hf. unfold month_contribution. rewrite Hf. reflexivity. Qed.
End Months.

(** ** Balances and contributions in exact arithmetic *)

Section ExactYears.
Context {num : Type} `{ExactNumber num}.
Variable inp : InvestmentInputs num.
Local Open Scope num_scope.

(** Real-number readings of the quantities of a month. *)
Definition rate_R : R := (toR (annualGrowthRate inp) / 100 / 12)%R.
Definition added_R (m : Z) : R := Rmax 0 (toR (month_contribution inp m)).

Lemma toR_monthlyGrowthRate : toR (monthlyGrowthRate inp) = rate_R.
Proof.
  unfold monthlyGrowthRate, rate_R. rewrite !toR_div, toR_100, toR_12. reflexivity.
Qed.

Lemma toR_monthlyInflationRate :
  toR (monthlyInflationRate inp) = (toR (inflationRate inp) / 100 / 12)%R.
Proof.
  unfold monthlyInflationRate. rewrite !toR_div, toR_100, toR_12. reflexivity.
Qed.

Lemma added_R_nonneg m : (0 <= added_R m)%R.
Proof. apply Rmax_l. Qed.

Lemma toR_balance_after_contribution s m :
  toR (balance_after_contribution inp s m) = (toR (sim_balance s) + added_R m)%R.
Proof.
  unfold balance_after_contribution, added_R.
  destruct (month_contribution inp m >? lit 0) eqn:Hc.
  - apply ngt_spec in Hc. rewrite toR_0 in Hc.
    rewrite toR_add, Rmax_right by lra. reflexivity.
  - apply ngt_false in Hc. rewrite toR_0 in Hc.
    rewrite Rmax_left by lra. lra.
Qed.

Lemma toR_month_step_balance s m :
  toR (sim_balance (month_step inp s m))
  = ((toR (sim_balance s) + added_R m) * (1 + rate_R))%R.
Proof.
  rewrite month_step_balance, toR_add, toR_mul, toR_balance_after_contribution.
  fold (monthlyGrowthRate inp). rewrite toR_monthlyGrowthRate. lra.
Qed.

(** With a growth rate that is not negative, a balance that is not negative
    does not decrease over any run of months. *)
Lemma fold_months_balance_le ms s :
  (0 <= rate_R)%R → (0 <= toR (sim_balance s))%R →
  (toR (sim_balance s) <= toR (sim_balance (fold_left (month_step inp) ms s)))%R.
Proof.
  intros Hr. revert s. induction ms as [|m ms IH]; intros s Hb; [simpl; lra|].
  cbn [fold_left].
  pose proof (added_R_nonneg m) as Ha.
  pose proof (toR_month_step_balance s m) as Es.
  assert (toR (sim_balance s) <= toR (sim_balance (month_step inp s m)))%R as Hle.
  { rewrite Es. nra. }
  etransitivity; [exact Hle|]. apply IH. lra.
Qed.

Lemma run_year_balance_le s :
  (0 <= rate_R)%R → (0 <= toR (sim_balance s))%R →
  (toR (sim_balance s) <= toR (sim_balance (run_year inp s)))%R.
Proof. intros Hr Hb. unfold run_year. apply (fold_months_balance_le _ (year_start s) Hr Hb). Qed.

(** It grows over a year when the rate is positive and there is money to
    grow: a positive balance, or a positive contribution in month 1. *)
Lemma run_year_balance_lt s :
  (0 < rate_R)%R → (0 <= toR (sim_balance s))%R →
  (0 < toR (sim_balance s) ∨ 0 < toR (contributionAmount inp))%R →
  (toR (sim_balance s) < toR (sim_balance (run_year inp s)))%R.
Proof.
  intros Hr Hb Hpos. unfold run_year. rewrite months_eq, fold_left_cons.
  set (s1 := month_step inp (year_start s) 1).
  assert (toR (sim_balance s) < toR (sim_balance s1))%R as Hlt.
  { unfold s1. rewrite toR_month_step_balance. cbn [year_start sim_balance].
    pose proof (added_R_nonneg 1) as Ha.
    destruct Hpos as [Hp|Hp]; [nra|].
    assert (added_R 1 = toR (contributionAmount inp)) as Ea.
    { unfold added_R. rewrite month_contribution_first, Rmax_right by lra. reflexivity. }
    rewrite Ea in *. nra. }
  eapply Rlt_le_trans; [exact Hlt|].
  apply (fold_months_balance_le _ s1); lra.
Qed.

Lemma after_years_balance_nonneg k :
  (0 <= rate_R)%R → (0 <= toR (startingAmount inp))%R →
  (0 <= toR (sim_balance (after_years inp k)))%R.
Proof.
  intros Hr Hs. induction k as [|k IH]; [exact Hs|].
  unfold after_years in *. rewrite state_from_succ.
  etransitivity; [exact IH|]. apply run_year_balance_le; assumption.
Qed.

Lemma after_years_balance_pos k :
  (0 <= rate_R)%R → (0 < toR (startingAmount inp))%R →
  (0 < toR (sim_balance (after_years inp k)))%R.
Proof.
  intros Hr Hs. induction k as [|k IH]; [exact Hs|].
  unfold after_years in *. rewrite state_from_succ.
  eapply Rlt_le_trans; [exact IH|]. apply run_year_balance_le; lra.
Qed.

(** Nothing added and nothing earned: the balance stays. *)
Lemma month_step_balance_const s m :
  annualGrowthRate inp = lit 0 → contributionAmount inp = lit 0 →
  sim_balance (month_step inp s m) = sim_balance s.
Proof.
  intros Er Ec. apply toR_inj. rewrite toR_month_step_balance.
  unfold rate_R, added_R, month_contribution. rewrite Er, Ec, toR_0.
  replace (toR (if is_monthly (contributionFrequency inp) then lit 0
                else if (m =? 1)%Z then lit 0 else lit 0)) with 0%R
    by (repeat case_match; rewrite toR_0; reflexivity).
  rewrite Rmax_left by lra. lra.
Qed.

Lemma after_years_balance_const k :
  annualGrowthRate inp = lit 0 → contributionAmount inp = lit 0 →
  sim_balance (after_years inp k) = startingAmount inp.
Proof.
  intros Er Ec. induction k as [|k IH]; [reflexivity|].
  unfold after_years in *. rewrite state_from_succ, <- IH.
  unfold run_year. generalize (state_from inp (initial inp) k). intros s.
  change (sim_balance s) with (sim_balance (year_start s)).
  generalize (year_start s). induction months as [|m ms IHm]; intros s'; [reflexivity|].
  cbn [fold_left]. rewrite IHm. apply month_step_balance_const; assumption.
Qed.
End ExactYears.

Section ExactContributions.
Context {num : Type} `{ExactNumber num}.
Variable inp : InvestmentInputs num.
Local Open Scope num_scope.



Lemma ndiv_1_r (x : num) : x / lit 1 = x.
Proof. apply toR_inj. rewrite toR_div, toR_1. lra. Qed.





Lemma toR_month_step_contribution s m :
  toR (contributionThisYear (month_step inp s m))
  = (toR (contributionThisYear s) + added_R inp m)%R.
Proof.
  unfold month_step, added_R.
  destruct (month_contribution inp m >? lit 0) eqn:Hc; cbn.
  - apply ngt_spec in Hc. rewrite toR_0 in Hc.
    rewrite toR_add, Rmax_right by lra. reflexivity.
  - apply ngt_false in Hc. rewrite toR_0 in Hc. rewrite Rmax_left by lra. lra.
Qed.

(** With monthly frequency, the year's contribution is twelve times the
    amount (or nothing, for an amount that is not positive). *)
Lemma run_year_contribution_monthly s :
  is_monthly (contributionFrequency inp) = true →
  toR (contributionThisYear (run_year inp s))
  = (12 * Rmax 0 (toR (contributionAmount inp)))%R.
Proof.
  intros Hf. unfold run_year.
  assert (∀ ms s', toR (contributionThisYear (fold_left (month_step inp) ms s'))
                   = (toR (contributionThisYear s')
                      + INR (length ms) * Rmax 0 (toR (contributionAmount inp)))%R) as Hfold.
  { induction ms as [|m ms IH]; intros s'.
    - simpl. lra.
    - rewrite fold_left_cons, IH, toR_month_step_contribution.
      unfold added_R. rewrite (month_contribution_monthly inp m Hf).
      cbn [length]. rewrite S_INR. lra. }
  rewrite Hfold. cbn [year_start contributionThisYear]. rewrite toR_0, months_eq.
  simpl. lra.
Qed.

(** The inflation factor does not move under a rate that is not positive. *)
Lemma inflation_update_nonpositive f :
  (inflationRate inp <=? lit 0) = true → inflation_update inp f = f.
Proof.
  intros Hi. apply nle_spec in Hi. rewrite toR_0 in Hi.
  unfold inflation_update.
  replace (monthlyInflationRate inp >? lit 0) with false; [reflexivity|].
  symmetry. apply ngt_false. rewrite toR_monthlyInflationRate, toR_0. lra.
Qed.

Lemma inflation_factor_after_nonpositive n :
  (inflationRate inp <=? lit 0) = true → inflation_factor_after inp n = lit 1.
Proof.
  intros Hi. unfold inflation_factor_after.
  induction n as [|n IH]; [reflexivity|].
  rewrite Nat.iter_succ, IH. apply inflation_update_nonpositive, Hi.
Qed.

(** Under a positive rate it is the compound factor. *)
Lemma inflation_factor_after_positive n :
  (inflationRate inp >? lit 0) = true →
  toR (inflation_factor_after inp n)
  = ((1 + toR (inflationRate inp) / 100 / 12) ^ n)%R.
Proof.
  intros Hi. apply ngt_spec in Hi. rewrite toR_0 in Hi.
  unfold inflation_factor_after.
  induction n as [|n IH]; [simpl; apply toR_1|].
  rewrite Nat.iter_succ. unfold inflation_update at 1.
  replace (monthlyInflationRate inp >? lit 0) with true.
  - rewrite toR_mul, IH, toR_add, toR_1, toR_monthlyInflationRate. simpl. lra.
  - symmetry. apply ngt_spec. rewrite toR_monthlyInflationRate, toR_0. lra.
Qed.
End ExactContributions.

(** ** The loop test below year 1

    The one law the empty projection needs: a number that is at most 0 is
    not at least 1.  It holds in exact arithmetic and in binary64. *)

Class OneAboveNonpositive (num : Type) `{NumberOps num} :=
  one_above_nonpositive : ∀ y : num, (y <=? lit 0)%num = true → (lit 1 <=? y)%num = false.

#[export] Instance exact_one_above {num : Type} `{ExactNumber num} :
  OneAboveNonpositive num.
Proof.
  intros y Hy. apply nle_spec in Hy. rewrite toR_0 in Hy.
  apply nle_false. rewrite toR_1. lra.
Qed.

#[export] Instance float_one_above : OneAboveNonpositive float.
Proof.
  intros y. change (lit 0) with 0%float. change (lit 1) with 1%float.
  cbn [nle float_number]. rewrite !leb_spec.
  change (Prim2SF 0) with (S754_zero false).
  let v := eval vm_compute in (Prim2SF 1) in change (Prim2SF 1) with v.
  destruct (Prim2SF y) as [s|s| |s m e]; try destruct s; cbn; congruence.
Qed.

(** ** Properties of the projection *)

Section ProjectionProperties.
Context {num : Type} `{ExactNumber num}.
Local Open Scope num_scope.

Lemma fmap_year_rows_from (inp : InvestmentInputs num) y s n :
  year <$> rows_from inp y s n = seqZ y (Z.of_nat n).
Proof.
  revert y s. induction n as [|n IH]; intros y s; [reflexivity|].
  cbn [rows_from fmap list_fmap]. rewrite seqZ_cons by lia.
  fold (fmap (M:=list) (@year num)). rewrite IH. cbn [year snapshot].
  do 2 f_equal; lia.
Qed.

Lemma summary_row (inp : InvestmentInputs num) fuel r i row :
  summary inp fuel = Some r → rows r !! i = Some row →
  row = snapshot (1 + Z.of_nat i) (after_years inp (S i)).
Proof.
  intros E Hrow. apply summary_Some in E as (n & _ & _ & _ & ->).
  apply summary_of_row in Hrow as [_ ->]. reflexivity.
Qed.

Lemma years_run_at_least_two (inp : InvestmentInputs num) :
  (lit 2 <=? yearsToGrow inp) = true → (2 <= years_run inp)%nat.
Proof.
  rewrite nle_spec, (toR_lit_Z 2). intros Hy. unfold years_run.
  destruct (archimed (toR (yearsToGrow inp))) as [Hup _].
  assert (2 < IZR (up (toR (yearsToGrow inp))))%R as Hz by lra.
  apply lt_IZR in Hz. lia.
Qed.
End ProjectionProperties.

(** Inputs used to instantiate the statements below. *)
Definition plan_annual : InvestmentInputs Qc := {|
  startingAmount := lit 1000;
  contributionAmount := lit 100;
  contributionFrequency := Freq annual;
  annualGrowthRate := lit 6;
  inflationRate := lit 0;
  yearsToGrow := lit 3;
|}.

Definition plan_idle : InvestmentInputs Qc := {|
  startingAmount := lit 1000;
  contributionAmount := lit 0;
  contributionFrequency := Freq monthly;
  annualGrowthRate := lit 0;
  inflationRate := lit 2.5;
  yearsToGrow := lit 2;
|}.

Definition plan_no_years : InvestmentInputs float := {|
  startingAmount := lit 1000;
  contributionAmount := lit 100;
  contributionFrequency := Freq monthly;
  annualGrowthRate := lit 6;
  inflationRate := lit 2;
  yearsToGrow := lit (-2);
|}.

Section Claims.
Context {num : Type} `{ExactNumber num}.
Local Open Scope num_scope.

(** C2. For inputs whose [yearsToGrow] is an integer N ≥ 1 the projection
    returns (with fuel for N + 1 loop tests, and the same for any fuel that
    lets it return) exactly N snapshots, and their [year] fields are
    1, 2, ..., N, strictly increasing. *)
Theorem projection_returns_N_rows (inp : InvestmentInputs num) (N : Z) :
  (1 ≤ N)%Z → yearsToGrow inp = lit (inject_Z N) →
  ∃ r, summary inp (S (Z.to_nat N)) = Some r
     ∧ (∀ fuel r', summary inp fuel = Some r' → r' = r)
     ∧ length (rows r) = Z.to_nat N
     ∧ year <$> rows r = seqZ 1 N
     ∧ (∀ i j a b, rows r !! i = Some a → rows r !! j = Some b →
          (i < j)%nat → (year a < year b)%Z).
Proof.
  intros HN Ey. pose proof (years_run_integer inp N Ey) as En.
  exists (summary_of inp (years_run inp)). split; [|split; [|split; [|split]]].
  - apply summary_exact. lia.
  - intros fuel r'. apply summary_Some_exact.
  - cbn [summary_of rows]. rewrite length_rows_from. exact En.
  - cbn [summary_of rows]. rewrite fmap_year_rows_from, En, Z2Nat.id by lia. reflexivity.
  - intros i j a b Ha Hb Hij.
    apply summary_of_row in Ha as [_ ->]. apply summary_of_row in Hb as [_ ->].
    cbn [year snapshot]. lia.
Qed.
End Claims.

Lemma projection_returns_N_rows_witness :
  ∃ r, summary plan_annual 4 = Some r
     ∧ (∀ fuel r', summary plan_annual fuel = Some r' → r' = r)
     ∧ length (rows r) = 3%nat
     ∧ year <$> rows r = [1; 2; 3]%Z
     ∧ (∀ i j a b, rows r !! i = Some a → rows r !! j = Some b →
          (i < j)%nat → (year a < year b)%Z).
Proof. apply (projection_returns_N_rows plan_annual 3); [lia|reflexivity]. Defined.

(** C5. When [yearsToGrow] is at most 0 the loop body never runs: the
    projection returns at its first test with no snapshot, and the two final
    balances fall back to [startingAmount]; the last-row lookups are the
    total [last], so nothing is read from a missing snapshot.  This holds in
    binary64 as in exact arithmetic. *)
Theorem projection_without_years {num : Type} `{OneAboveNonpositive num}
    (inp : InvestmentInputs num) (fuel : nat) :
  (yearsToGrow inp <=? lit 0)%num = true →
  summary inp (S fuel)
  = Some {| rows := [];
            finalBalance := startingAmount inp;
            finalRealBalance := startingAmount inp;
            summaryTotalContributions := startingAmount inp;
            totalGrowth := (startingAmount inp - startingAmount inp)%num |}.
Proof.
  intros Hy. apply (summary_run inp O); [lia|intros k Hk; lia|].
  apply (one_above_nonpositive _ Hy).
Qed.

Lemma projection_without_years_witness :
  summary plan_no_years 1
  = Some {| rows := [];
            finalBalance := 1000%float;
            finalRealBalance := 1000%float;
            summaryTotalContributions := 1000%float;
            totalGrowth := 0%float |}.
Proof.
  rewrite (projection_without_years plan_no_years O) by reflexivity.
  vm_compute. reflexivity.
Defined.

Section ExactClaims.
Context {num : Type} `{ExactNumber num}.
Local Open Scope num_scope.

(** C3. The inflation factor starts at 1; a month multiplies it by
    1 + inflationRate/100/12 exactly when that monthly rate is positive, and
    leaves it as it is otherwise, so an [inflationRate] that is zero or
    negative never moves it.  Every snapshot's [realBalance] is its [balance]
    divided by the factor accumulated over the months up to the end of its
    year, and with [inflationRate] = 0 it equals the [balance]. *)
Theorem inflation_factor_accumulates (inp : InvestmentInputs num) :
  sim_inflationFactor (initial inp) = lit 1
  ∧ (∀ s m, sim_inflationFactor (month_step inp s m)
            = if inflationRate inp / lit 100 / lit 12 >? lit 0
              then sim_inflationFactor s * (lit 1 + inflationRate inp / lit 100 / lit 12)
              else sim_inflationFactor s)
  ∧ ((inflationRate inp / lit 100 / lit 12 >? lit 0) = (inflationRate inp >? lit 0))
  ∧ ((inflationRate inp <=? lit 0) = true →
       ∀ s m, sim_inflationFactor (month_step inp s m) = sim_inflationFactor s)
  ∧ (∃ fuel r, summary inp fuel = Some r)
  ∧ (∀ fuel r i row, summary inp fuel = Some r → rows r !! i = Some row →
       realBalance row = balance row / inflation_factor_after inp (12 * S i)
       ∧ (inflationRate inp = lit 0 → realBalance row = balance row)).
Proof.
  split; [reflexivity|]. split; [|split; [|split; [|split]]].
  - intros s m. apply month_step_inflation.
  - fold (monthlyInflationRate inp).
    destruct (inflationRate inp >? lit 0) eqn:Hi.
    + apply ngt_spec. apply ngt_spec in Hi.
      rewrite toR_monthlyInflationRate. rewrite toR_0 in *. lra.
    + apply ngt_false. apply ngt_false in Hi.
      rewrite toR_monthlyInflationRate. rewrite toR_0 in *. lra.
  - intros Hi s m. rewrite month_step_inflation.
    apply inflation_update_nonpositive, Hi.
  - exists (S (years_run inp)), (summary_of inp (years_run inp)).
    apply summary_exact. lia.
  - intros fuel r i row E Hrow. rewrite (summary_row inp fuel r i row E Hrow).
    cbn [realBalance balance snapshot]. rewrite after_years_inflation.
    split; [reflexivity|].
    intros E0. rewrite inflation_factor_after_nonpositive.
    + apply ndiv_1_r.
    + rewrite E0. apply nle_spec. lra.
Qed.

(** In exact arithmetic, with [startingAmount] ≥ 0 and [yearsToGrow] ≥ 2
    the projection returns at least two snapshots.  When [annualGrowthRate]
    > 0 and [contributionAmount] ≥ 0, the balance of each year's snapshot is
    at least that of the year before; when both are 0, every snapshot's
    balance is [startingAmount]. *)
Lemma exact_balances_year_over_year (inp : InvestmentInputs num) :
  (lit 0 <=? startingAmount inp) = true →
  (lit 2 <=? yearsToGrow inp) = true →
  ∃ r, (∃ fuel, summary inp fuel = Some r)
     ∧ (2 <= length (rows r))%nat
     ∧ ((annualGrowthRate inp >? lit 0) = true →
        (lit 0 <=? contributionAmount inp) = true →
        ∀ i a b, rows r !! i = Some a → rows r !! S i = Some b →
          (balance a <=? balance b) = true)
     ∧ (annualGrowthRate inp = lit 0 → contributionAmount inp = lit 0 →
        ∀ i a, rows r !! i = Some a → balance a = startingAmount inp).
Proof.
  intros Hs Hy. apply nle_spec in Hs. rewrite toR_0 in Hs.
  exists (summary_of inp (years_run inp)). split; [|split; [|split]].
  - exists (S (years_run inp)). apply summary_exact. lia.
  - cbn [summary_of rows]. rewrite length_rows_from.
    apply years_run_at_least_two, Hy.
  - intros Hr _ i a b Ha Hb.
    apply summary_of_row in Ha as [_ ->]. apply summary_of_row in Hb as [_ ->].
    cbn [balance snapshot]. apply nle_spec.
    assert (0 <= rate_R inp)%R as Hrate.
    { apply ngt_spec in Hr. rewrite toR_0 in Hr. unfold rate_R. lra. }
    unfold after_years. rewrite (state_from_succ inp _ (S i)).
    apply run_year_balance_le; [exact Hrate|].
    apply (after_years_balance_nonneg inp (S i) Hrate Hs).
  - intros Er Ec i a Ha. apply summary_of_row in Ha as [_ ->].
    cbn [balance snapshot]. apply after_years_balance_const; assumption.
Qed.

(** In exact arithmetic the balances increase strictly once there is money
    to grow: a positive starting amount or a positive contribution.  In
    binary64 a small increase can be rounded away. *)
Lemma balances_strictly_increase (inp : InvestmentInputs num) fuel r i a b :
  (lit 0 <=? startingAmount inp) = true →
  (annualGrowthRate inp >? lit 0) = true →
  (startingAmount inp >? lit 0) = true ∨ (contributionAmount inp >? lit 0) = true →
  summary inp fuel = Some r →
  rows r !! i = Some a → rows r !! S i = Some b →
  (balance b >? balance a) = true.
Proof.
  intros Hs Hr Hpos E Ha Hb.
  rewrite (summary_row inp fuel r i a E Ha), (summary_row inp fuel r (S i) b E Hb).
  cbn [balance snapshot]. apply ngt_spec.
  apply nle_spec in Hs. apply ngt_spec in Hr. rewrite toR_0 in *.
  assert (0 < rate_R inp)%R as Hrate by (unfold rate_R; lra).
  unfold after_years. rewrite (state_from_succ inp _ (S i)).
  apply run_year_balance_lt; [exact Hrate| |].
  - apply (after_years_balance_nonneg inp (S i)); lra.
  - destruct Hpos as [Hp|Hp]; apply ngt_spec in Hp; rewrite toR_0 in Hp.
    + left. apply (after_years_balance_pos inp (S i)); lra.
    + right. exact Hp.
Qed.

End ExactClaims.

Lemma inflation_factor_accumulates_witness :
  (inflationRate plan_annual <=? lit 0)%num = true
  ∧ inflationRate plan_annual = lit 0
  ∧ ∃ fuel r, summary plan_annual fuel = Some r
      ∧ length (rows r) = 3%nat
      ∧ ∀ i row, rows r !! i = Some row → realBalance row = balance row.
Proof.
  split; [reflexivity|]. split; [reflexivity|].
  destruct (inflation_factor_accumulates plan_annual)
    as (_ & _ & _ & _ & _ & Hrows).
  assert (years_run plan_annual = 3%nat) as En
    by exact (years_run_integer plan_annual 3 eq_refl).
  assert (summary plan_annual 4 = Some (summary_of plan_annual 3)) as E.
  { rewrite <- En. apply summary_exact. rewrite En. lia. }
  exists 4%nat, (summary_of plan_annual 3). split; [exact E|].
  split; [apply length_rows_from|].
  intros i row Hrow. apply (Hrows 4%nat _ i row E Hrow). reflexivity.
Defined.




(** ** The default inputs in binary64

    The projection of [defaultInputs], evaluated in the arithmetic of the
    source. *)

Definition default_projection : option (Summary float) := summary defaultInputs 21.

(** Twenty snapshots, for the years 1 to 20. *)
Example default_projection_years :
  (λ r, year <$> rows r) <$> default_projection = Some (seqZ 1 20).
Proof. vm_compute. reflexivity. Qed.

(** After year 1 the contributions total 10000 + 500 × 12. *)
Example default_projection_first_year :
  (λ r, (λ row, (contribution row, totalContributions row)) <$> rows r !! 0%nat)
    <$> default_projection
  = Some (Some (6000%float, 16000%float)).
Proof. vm_compute. reflexivity. Qed.

(** Each year's balance is above the year before. *)
Fixpoint increasing (l : list float) : bool :=
  match l with
  | x :: ((y :: _) as l') => PrimFloat.ltb x y && increasing l'
  | _ => true
  end.

Example default_projection_increasing :
  (λ r, increasing (balance <$> rows r)) <$> default_projection = Some true.
Proof. vm_compute. reflexivity. Qed.

(** ** Binary64: what rounding preserves

    [Prim2SF] reads a binary64 number as a sign, a mantissa and an exponent,
    and the operations the source applies are specified on that reading
    ([add_spec], [mul_spec], [div_spec], [leb_spec], [ltb_spec]).  The facts
    below are proved from that specification: a sum is rounded, and can
    overflow to infinity, but adding a number that is not below zero never
    gives less. *)

Ltac SF_compare_cases :=
  repeat match goal with
         | H : context [Pos.compare_cont Eq ?a ?b] |- _ =>
             change (Pos.compare_cont Eq a b) with (Pos.compare a b) in H
         | |- context [Pos.compare_cont Eq ?a ?b] =>
             change (Pos.compare_cont Eq a b) with (Pos.compare a b)
         end;
  repeat match goal with
         | H : context [Z.compare ?a ?b] |- _ => destruct (Z.compare_spec a b); try subst
         | |- context [Z.compare ?a ?b] => destruct (Z.compare_spec a b); try subst
         | H : context [Pos.compare ?a ?b] |- _ => destruct (Pos.compare_spec a b); try subst
         | |- context [Pos.compare ?a ?b] => destruct (Pos.compare_spec a b); try subst
         end;
  cbn in *; try reflexivity; try discriminate; try lia.

Section Binary64.
Local Open Scope Z_scope.

(** The number of binary digits of a mantissa. *)
Lemma digits2_pos_bounds (m : positive) :
  2 ^ (Zpos (digits2_pos m) - 1) ≤ Zpos m < 2 ^ Zpos (digits2_pos m).
Proof.
  induction m as [m IH|m IH|]; cbn [digits2_pos].
  - rewrite Pos2Z.inj_succ.
    replace (Z.succ (Zpos (digits2_pos m)) - 1) with (Z.succ (Zpos (digits2_pos m) - 1)) by lia.
    rewrite !Z.pow_succ_r by lia. lia.
  - rewrite Pos2Z.inj_succ.
    replace (Z.succ (Zpos (digits2_pos m)) - 1) with (Z.succ (Zpos (digits2_pos m) - 1)) by lia.
    rewrite !Z.pow_succ_r by lia. lia.
  - cbn. lia.
Qed.

Lemma digits2_pos_mono (m n : positive) :
  (m <= n)%positive → Zpos (digits2_pos m) ≤ Zpos (digits2_pos n).
Proof.
  intros Hmn. pose proof (digits2_pos_bounds m) as [Hm _].
  pose proof (digits2_pos_bounds n) as [_ Hn].
  assert (2 ^ (Zpos (digits2_pos m) - 1) < 2 ^ Zpos (digits2_pos n)) as Hlt by lia.
  apply Z.pow_lt_mono_r_iff in Hlt; lia.
Qed.

Lemma iter_xO_mul (m d : positive) : Zpos (Pos.iter xO m d) = Zpos m * 2 ^ Zpos d.
Proof.
  induction d as [|d IH] using Pos.peano_ind.
  - cbn. lia.
  - rewrite Pos.iter_succ, Pos2Z.inj_xO, IH, Pos2Z.inj_succ, Z.pow_succ_r by lia. lia.
Qed.

Lemma digits2_pos_shift (m d : positive) :
  Zpos (digits2_pos (Pos.iter xO m d)) = Zpos (digits2_pos m) + Zpos d.
Proof.
  induction d as [|d IH] using Pos.peano_ind.
  - cbn [Pos.iter digits2_pos]. lia.
  - rewrite Pos.iter_succ. cbn [digits2_pos]. lia.
Qed.

(** [shl_align]: the mantissa is scaled to the lower exponent. *)
Lemma shl_align_spec (m : positive) (e e' : Z) :
  let '(m', e'') := shl_align m e e' in
  e'' = Z.min e e'
  ∧ Zpos m' = Zpos m * 2 ^ (e - e'')
  ∧ Zpos (digits2_pos m') + e'' = Zpos (digits2_pos m) + e.
Proof.
  unfold shl_align. destruct (e' - e) as [|d|d] eqn:Ed.
  - rewrite Z.sub_diag, Z.mul_1_r. lia.
  - rewrite Z.sub_diag, Z.mul_1_r. lia.
  - assert (e - e' = Zpos d) as -> by lia.
    rewrite iter_xO_mul, digits2_pos_shift. lia.
Qed.

Lemma iter_pos_nat {A} (f : A → A) (p : positive) (x : A) :
  SpecFloat.iter_pos f p x = Nat.iter (Pos.to_nat p) f x.
Proof.
  revert x. induction p as [p IH|p IH|]; intros x; cbn [SpecFloat.iter_pos].
  - rewrite !IH, Pos2Nat.inj_xI.
    replace (S (2 * Pos.to_nat p)) with (Pos.to_nat p + (Pos.to_nat p + 1))%nat by lia.
    rewrite !Nat.iter_add. reflexivity.
  - rewrite !IH, Pos2Nat.inj_xO.
    replace (2 * Pos.to_nat p)%nat with (Pos.to_nat p + Pos.to_nat p)%nat by lia.
    rewrite Nat.iter_add. reflexivity.
  - reflexivity.
Qed.

Lemma shr_1_m (mrs : shr_record) :
  0 ≤ shr_m mrs → shr_m (shr_1 mrs) = shr_m mrs / 2.
Proof.
  destruct mrs as [m r s]. cbn [shr_m]. intros Hm.
  destruct m as [|[p|p|]|p]; cbn [shr_1 shr_m]; try lia; try reflexivity.
  - rewrite Pos2Z.inj_xI. apply Z.div_unique with 1; lia.
  - rewrite Pos2Z.inj_xO. apply Z.div_unique with 0; lia.
Qed.

Lemma shr_m_iter (n : nat) (mrs : shr_record) :
  0 ≤ shr_m mrs → shr_m (Nat.iter n shr_1 mrs) = shr_m mrs / 2 ^ Z.of_nat n.
Proof.
  intros Hm. induction n as [|n IH].
  - cbn. rewrite Z.div_1_r. reflexivity.
  - rewrite Nat.iter_succ, shr_1_m, IH, Nat2Z.inj_succ, Z.pow_succ_r by
      (try rewrite IH; try apply Z.div_pos; lia).
    rewrite Z.div_div by lia. f_equal. lia.
Qed.

(** [shr]: the mantissa is divided by the power of two, rounding down. *)
Lemma shr_spec (m : positive) (e n : Z) :
  let '(mrs, e') := shr (shr_record_of_loc (Zpos m) loc_Exact) e n in
  e' = e + Z.max 0 n ∧ shr_m mrs = Zpos m / 2 ^ Z.max 0 n.
Proof.
  unfold shr. destruct n as [|p|p]; cbn [shr_record_of_loc shr_m].
  - cbn. rewrite Z.div_1_r. lia.
  - rewrite iter_pos_nat, shr_m_iter, positive_nat_Z by (cbn; lia).
    cbn [shr_m]. replace (Z.max 0 (Zpos p)) with (Zpos p) by lia. split; reflexivity.
  - cbn. rewrite Z.div_1_r. lia.
Qed.

Lemma round_nearest_even_bounds (m : Z) (l : location) :
  m ≤ round_nearest_even m l ≤ m + 1.
Proof.
  destruct l as [|[]]; cbn [round_nearest_even]; try lia.
  destruct (Z.even m); lia.
Qed.

Lemma fexp64_eq (e : Z) : fexp prec emax e = Z.max (e - 53) (-1074).
Proof. reflexivity. Qed.

(** A shift to the exponent of the format leaves a positive mantissa
    positive, when the exponent it comes with is not below the least one. *)
Lemma shifted_mantissa_pos (m : positive) (e : Z) :
  -1074 ≤ e →
  1 ≤ Zpos m / 2 ^ Z.max 0 (fexp prec emax (Zpos (digits2_pos m) + e) - e).
Proof.
  intros He. rewrite fexp64_eq. pose proof (digits2_pos_bounds m) as [Hlo _].
  set (d := Zpos (digits2_pos m)) in *.
  destruct (Z.le_gt_cases (Z.max (d + e - 53) (-1074) - e) 0) as [Hn|Hn].
  - rewrite Z.max_l by lia. rewrite Z.div_1_r. lia.
  - rewrite Z.max_r by lia. replace (Z.max (d + e - 53) (-1074) - e) with (d - 53) by lia.
    apply Z.div_le_lower_bound; [apply Z.pow_pos_nonneg; lia|].
    rewrite Z.mul_1_r. etransitivity; [|exact Hlo].
    apply Z.pow_le_mono_r; lia.
Qed.

(** Rounding a positive value: the result is +infinity or a positive number
    whose exponent is at least the exponent of the format at the value, and
    whose mantissa, at that exponent, is at least the value's rounded
    down. *)
Lemma binary_round_aux_pos (mz : positive) (e : Z) :
  -1074 ≤ e →
  let e1 := Z.max e (fexp prec emax (Zpos (digits2_pos mz) + e)) in
  binary_round_aux prec emax false (Zpos mz) e loc_Exact = S754_infinity false
  ∨ ∃ m' e', binary_round_aux prec emax false (Zpos mz) e loc_Exact
             = S754_finite false m' e'
           ∧ e1 ≤ e'
           ∧ (e' = e1 → Zpos mz / 2 ^ (e1 - e) ≤ Zpos m').
Proof.
  intros He e1. unfold binary_round_aux, shr_fexp. cbn [Zdigits2].
  pose proof (shr_spec mz e (fexp prec emax (Zpos (digits2_pos mz) + e) - e)) as Hs.
  pose proof (shifted_mantissa_pos mz e He) as Hpos.
  destruct (shr _ e _) as [mrs1 e'] eqn:E1. destruct Hs as [He' Hm1].
  pose proof (round_nearest_even_bounds (shr_m mrs1) (loc_of_shr_record mrs1)) as Hr.
  destruct (round_nearest_even (shr_m mrs1) (loc_of_shr_record mrs1)) as [|p1|p1] eqn:Er;
    [lia| |lia].
  cbn [Zdigits2].
  pose proof (shr_spec p1 e' (fexp prec emax (Zpos (digits2_pos p1) + e') - e')) as Hs2.
  pose proof (shifted_mantissa_pos p1 e' ltac:(lia)) as Hpos2.
  destruct (shr _ e' _) as [mrs2 e''] eqn:E2. destruct Hs2 as [He'' Hm2].
  destruct (shr_m mrs2) as [|p2|p2] eqn:Em2; [lia| |lia].
  destruct (e'' <=? emax - prec); [right|left; reflexivity].
  exists p2, e''. split; [reflexivity|].
  assert (e' = e1) as Ee1 by (unfold e1; lia).
  split; [lia|]. intros Ee.
  assert (Z.max 0 (fexp prec emax (Z.pos (digits2_pos p1) + e') - e') = 0) as Hz by lia.
  rewrite Hz, Z.div_1_r in Hm2.
  replace (e1 - e) with (Z.max 0 (fexp prec emax (Z.pos (digits2_pos mz) + e) - e))
    by (unfold e1; lia).
  lia.
Qed.

Lemma bounded_canonical (m : positive) (e : Z) :
  bounded prec emax m e = true →
  fexp prec emax (Zpos (digits2_pos m) + e) = e ∧ -1074 ≤ e.
Proof.
  unfold bounded, canonical_mantissa. intros Hb.
  apply andb_true_iff in Hb as [Hc _]. apply Z.eqb_eq in Hc.
  split; [exact Hc|]. rewrite fexp64_eq in Hc. lia.
Qed.

(** The sum of two positive numbers is not below the first. *)
Lemma SFadd_finite_ge (mx my : positive) (ex ey : Z) :
  bounded prec emax mx ex = true → bounded prec emax my ey = true →
  SFleb (S754_finite false mx ex)
    (SFadd prec emax (S754_finite false mx ex) (S754_finite false my ey)) = true.
Proof.
  intros Hx Hy.
  apply bounded_canonical in Hx as [Hcx Hex]. apply bounded_canonical in Hy as [_ Hey].
  cbn [SFadd cond_Zopp].
  pose proof (shl_align_spec mx ex (Z.min ex ey)) as Hsx.
  pose proof (shl_align_spec my ey (Z.min ex ey)) as Hsy.
  destruct (shl_align mx ex _) as [mx' ex'], (shl_align my ey _) as [my' ey'].
  destruct Hsx as (Eex' & Emx' & Edx). cbn [fst].
  change (Z.pos mx' + Z.pos my') with (Z.pos (mx' + my')).
  cbn [binary_normalize]. unfold binary_round.
  set (M := (mx' + my')%positive). set (ez := Z.min ex ey) in *.
  assert (ex' = ez) as -> by lia.
  pose proof (shl_align_spec M ez (fexp prec emax (Zpos (digits2_pos M) + ez))) as Hs.
  destruct (shl_align M ez _) as [mz ez2]. destruct Hs as (Eez2 & Emz & Edz).
  assert (Zpos (digits2_pos mx) + ex ≤ Zpos (digits2_pos M) + ez) as Hpos.
  { rewrite <- Edx. apply Z.add_le_mono_r, digits2_pos_mono. unfold M. lia. }
  set (F := fexp prec emax (Zpos (digits2_pos M) + ez)) in *.
  assert (ex ≤ F) as HF.
  { rewrite <- Hcx. unfold F. rewrite !fexp64_eq. lia. }
  assert (-1074 ≤ ez2) as Hez2 by (unfold F in *; rewrite fexp64_eq in *; lia).
  pose proof (binary_round_aux_pos mz ez2 Hez2) as Hr. cbv zeta in Hr.
  rewrite Edz in Hr. fold F in Hr.
  destruct Hr as [->|(m' & e' & -> & He' & Hm')]; [reflexivity|].
  unfold SFleb, SFcompare.
  destruct (Z.compare_spec ex e') as [Ee|Hlt|Hgt]; [|reflexivity|lia].
  subst e'. assert (F = ex) as EF by lia.
  assert (Z.max ez2 F = ex) as Emax by lia.
  rewrite Emax in Hm'. specialize (Hm' eq_refl).
  assert (ez2 = ez) as -> by lia.
  rewrite Z.sub_diag, Z.mul_1_r in Emz.
  assert (Zpos mx ≤ Zpos m') as Hle.
  { etransitivity; [|exact Hm']. rewrite Emz.
    apply Z.div_le_lower_bound; [apply Z.pow_pos_nonneg; lia|].
    unfold M. rewrite Pos2Z.inj_add, Emx'. lia. }
  change (Pos.compare_cont Eq mx m') with (Pos.compare mx m').
  destruct (Pos.compare_spec mx m'); [reflexivity|reflexivity|lia].
Qed.

(** *** The order *)

Lemma SFleb_refl (x : spec_float) : x ≠ S754_nan → SFleb x x = true.
Proof.
  destruct x as [[]|[]| |[] m e]; intros Hx; try reflexivity; try contradiction;
    unfold SFleb, SFcompare; SF_compare_cases.
Qed.

Lemma SFeqb_refl (x : spec_float) : x ≠ S754_nan → SFeqb x x = true.
Proof.
  destruct x as [[]|[]| |[] m e]; intros Hx; try reflexivity; try contradiction;
    unfold SFeqb, SFcompare; SF_compare_cases.
Qed.

Lemma SFleb_trans (x y z : spec_float) :
  SFleb x y = true → SFleb y z = true → SFleb x z = true.
Proof.
  unfold SFleb, SFcompare.
  destruct x as [[]|[]| |[] mx ex], y as [[]|[]| |[] my ey], z as [[]|[]| |[] mz ez];
    intros Hxy Hyz; try reflexivity; try discriminate; SF_compare_cases.
Qed.

Lemma SFltb_leb_trans (x y z : spec_float) :
  SFltb x y = true → SFleb y z = true → SFltb x z = true.
Proof.
  unfold SFltb, SFleb, SFcompare.
  destruct x as [[]|[]| |[] mx ex], y as [[]|[]| |[] my ey], z as [[]|[]| |[] mz ez];
    intros Hxy Hyz; try reflexivity; try discriminate; SF_compare_cases.
Qed.

Lemma SFltb_leb (x y : spec_float) : SFltb x y = true → SFleb x y = true.
Proof. unfold SFltb, SFleb. destruct (SFcompare x y) as [[]|]; congruence. Qed.

(** Not below zero: a zero of either sign, a positive number or
    +infinity. *)
Definition SFnonneg (x : spec_float) : Prop := SFleb (S754_zero false) x = true.

Lemma SFnonneg_cases (x : spec_float) :
  SFnonneg x ↔ match x with
               | S754_zero _ => True
               | S754_infinity s | S754_finite s _ _ => s = false
               | S754_nan => False
               end.
Proof.
  unfold SFnonneg. destruct x as [[]|[]| |[] m e]; cbn; split; congruence || tauto.
Qed.

(** Adding a number that is not below zero does not decrease. *)
Lemma SFadd_ge (x y : spec_float) :
  valid_binary x = true → valid_binary y = true →
  SFnonneg x → SFnonneg y → SFleb x (SFadd prec emax x y) = true.
Proof.
  intros Vx Vy Hx Hy. apply SFnonneg_cases in Hx, Hy.
  destruct x as [sx|sx| |sx mx ex], y as [sy|sy| |sy my ey];
    try contradiction; try subst sx; try subst sy.
  - destruct sx, sy; reflexivity.
  - destruct sx; reflexivity.
  - destruct sx; reflexivity.
  - reflexivity.
  - reflexivity.
  - reflexivity.
  - cbn [SFadd]. apply SFleb_refl. discriminate.
  - reflexivity.
  - apply SFadd_finite_ge; assumption.
Qed.

(** What rounding returns has the sign it was given. *)
Lemma binary_round_aux_sign (s : bool) (m e : Z) (l : location) :
  match binary_round_aux prec emax s m e l with
  | S754_zero s' | S754_infinity s' | S754_finite s' _ _ => s' = s
  | S754_nan => True
  end.
Proof.
  unfold binary_round_aux.
  destruct (shr_fexp prec emax m e l) as [mrs1 e1].
  destruct (shr_fexp prec emax _ e1 loc_Exact) as [mrs2 e2].
  destruct (shr_m mrs2); [reflexivity| |exact I].
  destruct (e2 <=? emax - prec); reflexivity.
Qed.

(** A product of two numbers that are not below zero is not below zero,
    unless it is NaN (infinity times zero). *)
Lemma SFmul_sign (x y : spec_float) :
  SFnonneg x → SFnonneg y →
  SFnonneg (SFmul prec emax x y) ∨ SFmul prec emax x y = S754_nan.
Proof.
  intros Hx Hy. apply SFnonneg_cases in Hx, Hy.
  destruct x as [sx|sx| |sx mx ex], y as [sy|sy| |sy my ey];
    try contradiction; try subst sx; try subst sy; cbn [SFmul xorb];
    try (right; reflexivity); try (left; apply SFnonneg_cases; exact I);
    try (left; apply SFnonneg_cases; reflexivity).
  pose proof (binary_round_aux_sign false (Zpos (mx * my)) (ex + ey) loc_Exact) as Hs.
  destruct (binary_round_aux _ _ _ _ _ _); [left|left|right|left];
    try reflexivity; apply SFnonneg_cases; try exact I; exact Hs.
Qed.

(** The same for a quotient by a positive number. *)
Lemma SFdiv_sign (x y : spec_float) :
  SFnonneg x → SFltb (S754_zero false) y = true →
  SFnonneg (SFdiv prec emax x y) ∨ SFdiv prec emax x y = S754_nan.
Proof.
  intros Hx Hy. apply SFnonneg_cases in Hx.
  destruct x as [sx|sx| |sx mx ex], y as [sy|sy| |sy my ey];
    try contradiction; try discriminate; try subst sx;
    try (destruct sy; [discriminate|]); cbn [SFdiv xorb];
    try (right; reflexivity); try (left; apply SFnonneg_cases; exact I);
    try (left; apply SFnonneg_cases; reflexivity).
  destruct (SFdiv_core_binary prec emax (Zpos mx) ex (Zpos my) ey) as [[mz ez] lz].
  pose proof (binary_round_aux_sign false mz ez lz) as Hs.
  destruct (binary_round_aux _ _ _ _ _ _); [left|left|right|left];
    try reflexivity; apply SFnonneg_cases; try exact I; exact Hs.
Qed.

(** A number that has no infinite or NaN product with zero is left as it is
    when that product is added to it. *)
Lemma SFadd_zero_product (x : spec_float) :
  SFmul prec emax x (S754_zero false) ≠ S754_nan →
  SFadd prec emax x (SFmul prec emax x (S754_zero false)) = x.
Proof.
  destruct x as [[]|[]| |[] m e]; cbn; congruence.
Qed.
End Binary64.

Lemma is_nan_spec (x : float) : PrimFloat.is_nan x = true ↔ Prim2SF x = S754_nan.
Proof.
  unfold PrimFloat.is_nan. rewrite FloatAxioms.eqb_spec, negb_true_iff. split.
  - intros E. destruct (Prim2SF x) eqn:Ex; try reflexivity;
      rewrite SFeqb_refl in E by discriminate; discriminate.
  - intros ->. reflexivity.
Qed.

Lemma float_nonneg_spec (x : float) :
  (0 <=? x)%float = true ↔ SFnonneg (Prim2SF x).
Proof. rewrite FloatAxioms.leb_spec. reflexivity. Qed.

(** ** Laws that hold in binary64 and in exact arithmetic

    What the projection's balances rely on, whatever the rounding: adding a
    number that is not below zero does not decrease; products and quotients
    of such numbers are not below zero unless they are NaN; NaN propagates.
    The last three laws are those of a growth rate and a contribution that
    are both the literal 0. *)

Class MonotoneNumber (num : Type) `{NumberOps num} := {
  nle_refl_nonneg (x : num) : (lit 0 <=? x)%num = true → (x <=? x)%num = true;
  nle_trans (x y z : num) :
    (x <=? y)%num = true → (y <=? z)%num = true → (x <=? z)%num = true;
  ngt_nle (x : num) : (x >? lit 0)%num = true → (lit 0 <=? x)%num = true;
  ngt_nle_trans (x y z : num) :
    (y >? x)%num = true → (y <=? z)%num = true → (z >? x)%num = true;
  nadd_ge (x y : num) :
    (lit 0 <=? x)%num = true → (lit 0 <=? y)%num = true → (x <=? x + y)%num = true;
  nmul_sign (x y : num) :
    (lit 0 <=? x)%num = true → (lit 0 <=? y)%num = true →
    (lit 0 <=? x * y)%num = true ∨ isNaN (x * y)%num = true;
  ndiv_sign (x y : num) :
    (lit 0 <=? x)%num = true → (y >? lit 0)%num = true →
    (lit 0 <=? x / y)%num = true ∨ isNaN (x / y)%num = true;
  lit_100_pos : (lit 100 >? lit 0)%num = true;
  lit_12_pos : (lit 12 >? lit 0)%num = true;
  lit_1_le_2 : (lit 1 <=? lit 2)%num = true;
  nadd_nan_l (x y : num) : isNaN x = true → isNaN (x + y)%num = true;
  nadd_nan_r (x y : num) : isNaN y = true → isNaN (x + y)%num = true;
  nmul_nan_l (x y : num) : isNaN x = true → isNaN (x * y)%num = true;
  nmul_nan_r (x y : num) : isNaN y = true → isNaN (x * y)%num = true;
  ndiv_nan_l (x y : num) : isNaN x = true → isNaN (x / y)%num = true;
  zero_rate : (lit 0 / lit 100 / lit 12)%num = lit 0;
  zero_not_pos : (lit 0 >? lit 0)%num = false;
  nadd_zero_product (x : num) :
    isNaN (x * lit 0)%num = false → (x + x * lit 0)%num = x;
}.

#[export] Instance float_monotone : MonotoneNumber float.
Proof.
  split.
  - intros x. change (lit 0) with 0%float. cbn [nle float_number].
    rewrite !FloatAxioms.leb_spec. intros Hx. apply SFleb_refl. intros E. rewrite E in Hx. discriminate.
  - intros x y z. cbn [nle float_number]. rewrite !FloatAxioms.leb_spec. apply SFleb_trans.
  - intros x. change (lit 0) with 0%float. cbn [nle ngt float_number].
    rewrite FloatAxioms.leb_spec, FloatAxioms.ltb_spec. apply SFltb_leb.
  - intros x y z. cbn [nle ngt float_number].
    rewrite FloatAxioms.leb_spec, !FloatAxioms.ltb_spec. apply SFltb_leb_trans.
  - intros x y. change (lit 0) with 0%float. cbn [nle nadd float_number].
    rewrite !float_nonneg_spec, FloatAxioms.leb_spec, add_spec. apply SFadd_ge; apply Prim2SF_valid.
  - intros x y. change (lit 0) with 0%float. cbn [nle nmul isNaN float_number].
    rewrite !float_nonneg_spec, is_nan_spec, mul_spec. apply SFmul_sign.
  - intros x y. change (lit 0) with 0%float. cbn [nle ngt ndiv isNaN float_number].
    rewrite !float_nonneg_spec, is_nan_spec, div_spec, FloatAxioms.ltb_spec. apply SFdiv_sign.
  - reflexivity.
  - reflexivity.
  - reflexivity.
  - intros x y. cbn [nadd isNaN float_number]. rewrite !is_nan_spec, add_spec.
    intros ->. reflexivity.
  - intros x y. cbn [nadd isNaN float_number]. rewrite !is_nan_spec, add_spec.
    intros ->. destruct (Prim2SF x); reflexivity.
  - intros x y. cbn [nmul isNaN float_number]. rewrite !is_nan_spec, mul_spec.
    intros ->. reflexivity.
  - intros x y. cbn [nmul isNaN float_number]. rewrite !is_nan_spec, mul_spec.
    intros ->. destruct (Prim2SF x); reflexivity.
  - intros x y. cbn [ndiv isNaN float_number]. rewrite !is_nan_spec, div_spec.
    intros ->. reflexivity.
  - reflexivity.
  - reflexivity.
  - intros x. change (lit 0) with 0%float. cbn [nadd nmul isNaN float_number].
    intros Hn. apply Prim2SF_inj. rewrite add_spec, mul_spec.
    change (Prim2SF 0) with (S754_zero false). apply SFadd_zero_product.
    intros E. apply not_true_iff_false in Hn. apply Hn.
    apply is_nan_spec. rewrite mul_spec. exact E.
Qed.

(** Exact arithmetic with no NaN, the rationals in particular. *)
Lemma exact_monotone {num : Type} `{ExactNumber num} :
  (∀ x : num, isNaN x = false) → MonotoneNumber num.
Proof.
  intros Hnan. split.
  - intros x _. apply nle_spec. lra.
  - intros x y z. rewrite !nle_spec. lra.
  - intros x. rewrite ngt_spec, nle_spec. lra.
  - intros x y z. rewrite !ngt_spec, nle_spec. lra.
  - intros x y. rewrite !nle_spec, toR_add, toR_0. lra.
  - intros x y. rewrite !nle_spec, toR_mul, toR_0. intros Hx Hy. left. nra.
  - intros x y. rewrite !nle_spec, ngt_spec, toR_div, toR_0. intros Hx Hy. left.
    apply Rmult_le_pos; [exact Hx|]. left. apply Rinv_0_lt_compat, Hy.
  - apply ngt_spec. rewrite toR_0, toR_100. lra.
  - apply ngt_spec. rewrite toR_0, toR_12. lra.
  - apply nle_spec. rewrite toR_1, (toR_lit_Z 2). lra.
  - intros x y E. rewrite Hnan in E. discriminate.
  - intros x y E. rewrite Hnan in E. discriminate.
  - intros x y E. rewrite Hnan in E. discriminate.
  - intros x y E. rewrite Hnan in E. discriminate.
  - intros x y E. rewrite Hnan in E. discriminate.
  - apply toR_inj. rewrite !toR_div, toR_0, toR_100, toR_12. lra.
  - apply ngt_false. lra.
  - intros x _. apply toR_inj. rewrite toR_add, toR_mul, toR_0. lra.
Qed.

#[export] Instance Qc_monotone : MonotoneNumber Qc := exact_monotone (λ _, eq_refl).

(** ** Balances year over year, in binary64 as in exact arithmetic *)

Section MonotoneBalances.
Context {num : Type} `{MonotoneNumber num}.
Variable inp : InvestmentInputs num.
Local Open Scope num_scope.

(** The year loop runs [N] times: its test passes for the years 1 to [N]
    and fails for year [N] + 1. *)
Definition years_pass (N : nat) : bool :=
  forallb (λ k, year_test inp (1 + Z.of_nat k)) (seq 0 N)
  && negb (year_test inp (1 + Z.of_nat N)).

Lemma years_pass_spec N :
  years_pass N = true →
  (∀ k, (k < N)%nat → year_test inp (1 + Z.of_nat k) = true)
  ∧ year_test inp (1 + Z.of_nat N) = false.
Proof.
  unfold years_pass. rewrite andb_true_iff, negb_true_iff, forallb_forall.
  intros [Hall Hstop]. split; [|exact Hstop].
  intros k Hk. apply Hall, in_seq. lia.
Qed.














End MonotoneBalances.

(** Inputs with nothing added and nothing earned, in binary64. *)
Definition plan_idle_float : InvestmentInputs float := {|
  startingAmount := lit 1000;
  contributionAmount := lit 0;
  contributionFrequency := Freq monthly;
  annualGrowthRate := lit 0;
  inflationRate := lit 2.5;
  yearsToGrow := lit 2;
|}.




(** ** Input handlers (lines 194-207) *)

(** The keys of [InvestmentInputs], the type of [handleInputChange]'s
    [field] parameter. *)
Inductive InputKey :=
  | key_startingAmount
  | key_contributionAmount
  | key_contributionFrequency
  | key_annualGrowthRate
  | key_inflationRate
  | key_yearsToGrow.

(** What [inputs[field]] evaluates to. *)
Inductive SlotValue (num : Type) :=
  | NumberValue (n : num)
  | FrequencyValue (f : ContributionFrequency).
Arguments NumberValue {num} n.
Arguments FrequencyValue {num} f.

Section InputHandlers.
Context {num : Type} `{NumberOps num}.

(** [Number(value)], the conversion of the language. *)
Variable Number : string → num.

Definition get_slot (field : InputKey) (i : InvestmentInputs num) : SlotValue num :=
  match field with
  | key_startingAmount => NumberValue (startingAmount i)
  | key_contributionAmount => NumberValue (contributionAmount i)
  | key_contributionFrequency =>
      match contributionFrequency i with
      | Freq f => FrequencyValue f
      | FreqNumber n => NumberValue n
      end
  | key_annualGrowthRate => NumberValue (annualGrowthRate i)
  | key_inflationRate => NumberValue (inflationRate i)
  | key_yearsToGrow => NumberValue (yearsToGrow i)
  end.

(** The updater passed to [setInputs]:
    [{ ...prev, [field]: Number.isNaN(numericValue) ? prev[field] : numericValue }]. *)
Definition handleInputChange (field : InputKey) (value : string)
    (prev : InvestmentInputs num) : InvestmentInputs num :=
  let numericValue := Number value in
  let replaced (old : num) : num := if isNaN numericValue then old else numericValue in
  {| startingAmount :=
       match field with
       | key_startingAmount => replaced (startingAmount prev)
       | _ => startingAmount prev
       end;
     contributionAmount :=
       match field with
       | key_contributionAmount => replaced (contributionAmount prev)
       | _ => contributionAmount prev
       end;
     contributionFrequency :=
       match field with
       | key_contributionFrequency =>
           if isNaN numericValue then contributionFrequency prev
           else FreqNumber numericValue
       | _ => contributionFrequency prev
       end;
     annualGrowthRate :=
       match field with
       | key_annualGrowthRate => replaced (annualGrowthRate prev)
       | _ => annualGrowthRate prev
       end;
     inflationRate :=
       match field with
       | key_inflationRate => replaced (inflationRate prev)
       | _ => inflationRate prev
       end;
     yearsToGrow :=
       match field with
       | key_yearsToGrow => replaced (yearsToGrow prev)
       | _ => yearsToGrow prev
       end |}.

Definition handleFrequencyChange (value : ContributionFrequency)
    (prev : InvestmentInputs num) : InvestmentInputs num :=
  {| startingAmount := startingAmount prev;
     contributionAmount := contributionAmount prev;
     contributionFrequency := Freq value;
     annualGrowthRate := annualGrowthRate prev;
     inflationRate := inflationRate prev;
     yearsToGrow := yearsToGrow prev |}.

(** C10. When the conversion of the input string is NaN the handler returns
    the inputs it was given; otherwise the slot named by [field] holds the
    converted number and every other slot holds what it held. *)
Theorem handleInputChange_frame (field : InputKey) (value : string)
    (prev : InvestmentInputs num) :
  (isNaN (Number value) = true → handleInputChange field value prev = prev)
  ∧ (isNaN (Number value) = false →
       get_slot field (handleInputChange field value prev) = NumberValue (Number value)
       ∧ ∀ other, other ≠ field →
           get_slot other (handleInputChange field value prev) = get_slot other prev).
Proof.
  split.
  - intros Hnan. unfold handleInputChange. rewrite Hnan.
    destruct prev, field; reflexivity.
  - intros Hnum. unfold handleInputChange. rewrite Hnum. split.
    + destruct field; reflexivity.
    + intros other Hother. destruct field, other; try reflexivity; contradiction.
Qed.
End InputHandlers.

(** A conversion that knows two strings, for the instance below. *)
Definition sample_Number (value : string) : float :=
  if String.eqb value "42" then 42%float else PrimFloat.nan.

Lemma handleInputChange_frame_witness :
  handleInputChange sample_Number key_yearsToGrow "4 2" defaultInputs = defaultInputs
  ∧ get_slot key_yearsToGrow (handleInputChange sample_Number key_yearsToGrow "42" defaultInputs)
    = NumberValue 42%float
  ∧ get_slot key_inflationRate (handleInputChange sample_Number key_yearsToGrow "42" defaultInputs)
    = get_slot key_inflationRate defaultInputs.
Proof.
  split; [|split].
  - apply (handleInputChange_frame sample_Number key_yearsToGrow "4 2" defaultInputs).
    reflexivity.
  - apply (handleInputChange_frame sample_Number key_yearsToGrow "42" defaultInputs).
    reflexivity.
  - apply (handleInputChange_frame sample_Number key_yearsToGrow "42" defaultInputs);
      [reflexivity|discriminate].
Defined.

(** ** Strings

    A [string] stands for a JavaScript string whose code units are below 256;
    [String.length] is its [length]. *)

(** The white space and line terminators [trim] removes, among the code
    units below 256: TAB, LF, VT, FF, CR, SP and NBSP. *)
Definition is_white_space (c : ascii) : bool :=
  match Ascii.N_of_ascii c with
  | 9%N | 10%N | 11%N | 12%N | 13%N | 32%N | 160%N => true
  | _ => false
  end.

Fixpoint trimStart (s : string) : string :=
  match s with
  | EmptyString => EmptyString
  | String c s' => if is_white_space c then trimStart s' else s
  end.

Fixpoint trimEnd (s : string) : string :=
  match s with
  | EmptyString => EmptyString
  | String c s' =>
      match trimEnd s' with
      | EmptyString => if is_white_space c then EmptyString else String c EmptyString
      | t => String c t
      end
  end.

(** [s.trim()] *)
Definition trim (s : string) : string := trimEnd (trimStart s).

(** [s.slice(0, n)] *)
Fixpoint slice0 (n : nat) (s : string) : string :=
  match n, s with
  | S n', String c s' => String c (slice0 n' s')
  | _, _ => EmptyString
  end.

(** A string is truthy when it is not empty. *)
Definition truthy (s : string) : bool := negb (String.eqb s "").

Lemma truthy_true s : truthy s = true ↔ s ≠ "".
Proof.
  unfold truthy. rewrite negb_true_iff. destruct (String.eqb_spec s ""); split; congruence.
Qed.

Lemma truthy_length s : truthy s = true ↔ (1 <= String.length s)%nat.
Proof.
  destruct s; cbn; split; try discriminate; try lia; reflexivity.
Qed.

Lemma length_slice0 n s : String.length (slice0 n s) = Nat.min n (String.length s).
Proof.
  revert s. induction n as [|n IH]; intros [|c s]; cbn; try reflexivity.
  rewrite IH. reflexivity.
Qed.

Lemma slice0_all n s : (String.length s <= n)%nat → slice0 n s = s.
Proof.
  revert s. induction n as [|n IH]; intros [|c s]; cbn; intros Hl; try reflexivity; try lia.
  rewrite IH by lia. reflexivity.
Qed.

Lemma trimEnd_length s : (String.length (trimEnd s) <= String.length s)%nat.
Proof.
  induction s as [|c s IH]; cbn; [lia|].
  destruct (trimEnd s); [destruct (is_white_space c)|]; cbn in *; lia.
Qed.

Lemma trimStart_length s : (String.length (trimStart s) <= String.length s)%nat.
Proof.
  induction s as [|c s IH]; cbn; [lia|].
  destruct (is_white_space c); cbn; lia.
Qed.

Lemma trim_length s : (String.length (trim s) <= String.length s)%nat.
Proof.
  unfold trim. etransitivity; [apply trimEnd_length|apply trimStart_length].
Qed.

(** A string made of white space only trims to the empty string. *)
Fixpoint all_white_space (s : string) : bool :=
  match s with
  | EmptyString => true
  | String c s' => is_white_space c && all_white_space s'
  end.

Lemma trimEnd_empty s : trimEnd s = "" ↔ all_white_space s = true.
Proof.
  induction s as [|c s IH]; cbn; [tauto|].
  destruct (trimEnd s) eqn:Et.
  - destruct (is_white_space c); cbn.
    + rewrite <- IH. tauto.
    + split; discriminate.
  - split; [discriminate|]. rewrite andb_true_iff. intros [_ Hs].
    apply IH in Hs. discriminate.
Qed.

Lemma trimStart_white s : all_white_space s = true → trimStart s = "".
Proof.
  induction s as [|c s IH]; cbn; [reflexivity|].
  destruct (is_white_space c); cbn; [exact IH|discriminate].
Qed.

Lemma all_white_space_trimStart s :
  all_white_space (trimStart s) = all_white_space s.
Proof.
  induction s as [|c s IH]; cbn; [reflexivity|].
  destruct (is_white_space c) eqn:Ec; cbn; [exact IH|rewrite Ec; reflexivity].
Qed.

Lemma trim_empty s : trim s = "" ↔ all_white_space s = true.
Proof. unfold trim. rewrite trimEnd_empty, all_white_space_trimStart. reflexivity. Qed.


(** ** The session, as the component reads it (lines 54-58) *)

Inductive SessionStatus := loading | authenticated | unauthenticated.

Record SessionUser := {
  user_id : option string;
  user_email : option string;
}.

(** [useSession()]: [status], and the user of [data] when there is one. *)
Record Session := {
  status : SessionStatus;
  user : option SessionUser;
}.

(** [status === "authenticated" && !!session?.user?.id] *)
Definition isAuthenticated (s : Session) : bool :=
  match status s, user s with
  | authenticated, Some u =>
      match user_id u with
      | Some i => truthy i
      | None => false
      end
  | _, _ => false
  end.

(** [session?.user?.email ? `scenarios_${session.user.email}` : "scenarios_guest"] *)
Definition storageKey (s : Session) : string :=
  match user s with
  | Some u =>
      match user_email u with
      | Some e => if truthy e then "scenarios_" +:+ e else "scenarios_guest"
      | None => "scenarios_guest"
      end
  | None => "scenarios_guest"
  end.

(** ** The state of [Home] (lines 53-66) *)

Module Home.
Record State (num : Type) := {
  inputs : InvestmentInputs num;
  scenarios : list (Scenario num);
  storageReady : bool;
  isLoadingScenarios : bool;
  scenarioError : option string;
  scenarioLoadError : option string;
  isSavingScenario : bool;
}.
Arguments inputs {num} _.
Arguments scenarios {num} _.
Arguments storageReady {num} _.
Arguments isLoadingScenarios {num} _.
Arguments scenarioError {num} _.
Arguments scenarioLoadError {num} _.
Arguments isSavingScenario {num} _.
End Home.

(** The state setters. *)
Definition setInputs {num} (v : InvestmentInputs num) (st : Home.State num) :=
  {| Home.inputs := v;
     Home.scenarios := Home.scenarios st;
     Home.storageReady := Home.storageReady st;
     Home.isLoadingScenarios := Home.isLoadingScenarios st;
     Home.scenarioError := Home.scenarioError st;
     Home.scenarioLoadError := Home.scenarioLoadError st;
     Home.isSavingScenario := Home.isSavingScenario st |}.

Definition setScenarios {num} (v : list (Scenario num)) (st : Home.State num) :=
  {| Home.inputs := Home.inputs st;
     Home.scenarios := v;
     Home.storageReady := Home.storageReady st;
     Home.isLoadingScenarios := Home.isLoadingScenarios st;
     Home.scenarioError := Home.scenarioError st;
     Home.scenarioLoadError := Home.scenarioLoadError st;
     Home.isSavingScenario := Home.isSavingScenario st |}.

Definition setStorageReady {num} (v : bool) (st : Home.State num) :=
  {| Home.inputs := Home.inputs st;
     Home.scenarios := Home.scenarios st;
     Home.storageReady := v;
     Home.isLoadingScenarios := Home.isLoadingScenarios st;
     Home.scenarioError := Home.scenarioError st;
     Home.scenarioLoadError := Home.scenarioLoadError st;
     Home.isSavingScenario := Home.isSavingScenario st |}.

Definition setIsLoadingScenarios {num} (v : bool) (st : Home.State num) :=
  {| Home.inputs := Home.inputs st;
     Home.scenarios := Home.scenarios st;
     Home.storageReady := Home.storageReady st;
     Home.isLoadingScenarios := v;
     Home.scenarioError := Home.scenarioError st;
     Home.scenarioLoadError := Home.scenarioLoadError st;
     Home.isSavingScenario := Home.isSavingScenario st |}.

Definition setScenarioError {num} (v : option string) (st : Home.State num) :=
  {| Home.inputs := Home.inputs st;
     Home.scenarios := Home.scenarios st;
     Home.storageReady := Home.storageReady st;
     Home.isLoadingScenarios := Home.isLoadingScenarios st;
     Home.scenarioError := v;
     Home.scenarioLoadError := Home.scenarioLoadError st;
     Home.isSavingScenario := Home.isSavingScenario st |}.

Definition setScenarioLoadError {num} (v : option string) (st : Home.State num) :=
  {| Home.inputs := Home.inputs st;
     Home.scenarios := Home.scenarios st;
     Home.storageReady := Home.storageReady st;
     Home.isLoadingScenarios := Home.isLoadingScenarios st;
     Home.scenarioError := Home.scenarioError st;
     Home.scenarioLoadError := v;
     Home.isSavingScenario := Home.isSavingScenario st |}.

Definition setIsSavingScenario {num} (v : bool) (st : Home.State num) :=
  {| Home.inputs := Home.inputs st;
     Home.scenarios := Home.scenarios st;
     Home.storageReady := Home.storageReady st;
     Home.isLoadingScenarios := Home.isLoadingScenarios st;
     Home.scenarioError := Home.scenarioError st;
     Home.scenarioLoadError := Home.scenarioLoadError st;
     Home.isSavingScenario := v |}.

(** ** What the handlers read from the platform *)

(** The values one call of [handleSaveScenario] or of the load effect obtains:
    [crypto.randomUUID()] when [crypto] has it, [`${Date.now()}`] and
    [new Date().toISOString()]. *)
Record Platform := {
  randomUUID : option string;
  Date_now : string;
  now_toISOString : string;
}.

(** How a [fetch] ends: it rejects, or it resolves to a response with a
    status and a body that [response.json()] parses or not. *)
Inductive FetchResult (body : Type) :=
  | NetworkError
  | Response (status_code : Z) (json : option body).
Arguments NetworkError {body}.
Arguments Response {body} status_code json.

(** [response.ok]: the status is in the range 200-299. *)
Definition ok (status_code : Z) : bool :=
  (200 <=? status_code)%Z && (status_code <=? 299)%Z.

(** The body of the request of line 220: [{ name: trimmed, inputs }]. *)
Record SaveRequest (num : Type) := {
  request_name : string;
  request_inputs : InvestmentInputs num;
}.
Arguments request_name {num} _.
Arguments request_inputs {num} _.

(** An element of the array parsed from local storage: [createdAt] may be a
    number (older data), a string, or missing. *)
Inductive StoredTime (num : Type) :=
  | TimeNumber (ms : num)
  | TimeString (iso : string)
  | TimeMissing.
Arguments TimeNumber {num} ms.
Arguments TimeString {num} iso.
Arguments TimeMissing {num}.

Record StoredScenario (num : Type) := {
  stored_id : string;
  stored_name : string;
  stored_createdAt : StoredTime num;
  stored_inputs : InvestmentInputs num;
}.
Arguments stored_id {num} _.
Arguments stored_name {num} _.
Arguments stored_createdAt {num} _.
Arguments stored_inputs {num} _.

(** ** Scenario handlers and effects (lines 67-134 and 209-287) *)

Section Handlers.
Context {num : Type} `{NumberOps num}.

(** [JSON.stringify], [JSON.parse] followed by the cast to [Scenario[]]
    ([None] when it throws, or when [map] does on what it returned), and
    [new Date(ms).toISOString()]. *)
Variable JSON_stringify : list (Scenario num) → string.
Variable JSON_parse : string → option (list (StoredScenario num)).
Variable Date_toISOString : num → string.

(** Line 67. *)
Definition canSaveScenario (auth : bool) (st : Home.State num) : bool :=
  if auth then negb (Home.isSavingScenario st)
  else Home.storageReady st && negb (Home.isSavingScenario st).

(** The scenario built at lines 243-251. *)
Definition newScenario (p : Platform) (trimmed : string)
    (i : InvestmentInputs num) : Scenario num :=
  {| id := match randomUUID p with
           | Some uuid => uuid
           | None => Date_now p
           end;
     name := trimmed;
     createdAt := now_toISOString p;
     inputs := i |}.

(** [handleSaveScenario] up to its [await]: the new state, and the request it
    sends when it sends one.  [answer] is what [window.prompt] returned
    ([None] for null). *)
Definition handleSaveScenario (auth : bool) (answer : option string) (p : Platform)
    (st : Home.State num) : Home.State num * option (SaveRequest num) :=
  match answer with
  | None => (st, None)
  | Some name =>
      if negb (truthy name) then (st, None)
      else
        let trimmed := trim name in
        if negb (truthy trimmed) then (st, None)
        else if auth then
          (setScenarioError None (setIsSavingScenario true st),
           Some {| request_name := trimmed; request_inputs := Home.inputs st |})
        else if negb (Home.storageReady st) then (st, None)
        else
          (setScenarios
             (take 10 (newScenario p trimmed (Home.inputs st) :: Home.scenarios st)) st,
           None)
  end.

Definition save_error_message : string :=
  "We couldn't save this scenario. Please try again in a moment.".

(** The rest of [handleSaveScenario], run when the request settles
    (lines 225-237): [try] / [catch] / [finally]. *)
Definition handleSaveScenario_settled (r : FetchResult (Scenario num))
    (st : Home.State num) : Home.State num :=
  let st' :=
    match r with
    | NetworkError => setScenarioError (Some save_error_message) st
    | Response code json =>
        if negb (ok code) then setScenarioError (Some save_error_message) st
        else match json with
             | None => setScenarioError (Some save_error_message) st
             | Some savedScenario => setScenarios (savedScenario :: Home.scenarios st) st
             end
    end in
  setIsSavingScenario false st'.

(** The save button: [onClick={handleSaveScenario}],
    [disabled={!canSaveScenario}]. *)
Definition click_save (auth : bool) (answer : option string) (p : Platform)
    (st : Home.State num) : Home.State num * option (SaveRequest num) :=
  if canSaveScenario auth st then handleSaveScenario auth answer p st
  else (st, None).

(** Lines 256-260. *)
Definition handleLoadScenario (i : string) (st : Home.State num) : Home.State num :=
  match List.find (λ item, String.eqb (id item) i) (Home.scenarios st) with
  | None => st
  | Some scenario => setInputs (inputs scenario) st
  end.

Definition without_id (i : string) (l : list (Scenario num)) : list (Scenario num) :=
  List.filter (λ scenario, negb (String.eqb (id scenario) i)) l.

Definition delete_error_message : string :=
  "Unable to delete this scenario right now.".

(** [handleDeleteScenario] up to its [await]; [confirmed] is what
    [window.confirm] returned.  The result says whether a request was sent. *)
Definition handleDeleteScenario (auth : bool) (i : string) (confirmed : bool)
    (st : Home.State num) : Home.State num * bool :=
  if negb confirmed then (st, false)
  else if auth then (setScenarioError None st, true)
  else (setScenarios (without_id i (Home.scenarios st)) st, false).

(** The rest of it, when the request settles (lines 275-282). *)
Definition handleDeleteScenario_settled (i : string) (r : FetchResult unit)
    (st : Home.State num) : Home.State num :=
  match r with
  | NetworkError => setScenarioError (Some delete_error_message) st
  | Response code _ =>
      if negb (ok code) then setScenarioError (Some delete_error_message) st
      else setScenarios (without_id i (Home.scenarios st)) st
  end.

(** Lines 110-116. *)
Definition normalize (p : Platform) (s : StoredScenario num) : Scenario num :=
  {| id := stored_id s;
     name := stored_name s;
     createdAt := match stored_createdAt s with
                  | TimeNumber ms => Date_toISOString ms
                  | TimeString iso => iso
                  | TimeMissing => now_toISOString p
                  end;
     inputs := stored_inputs s |}.

(** The load effect in guest mode (lines 105-126). *)
Definition load_local (raw : option string) (p : Platform)
    (st : Home.State num) : Home.State num :=
  let loaded :=
    match raw with
    | Some text =>
        if truthy text then
          match JSON_parse text with
          | Some parsed => normalize p <$> parsed
          | None => []
          end
        else []
    | None => []
    end in
  setStorageReady true (setScenarioLoadError None (setScenarios loaded st)).

(** The load effect in authenticated mode, up to the [fetch]
    (lines 73-76). *)
Definition load_remote (st : Home.State num) : Home.State num :=
  setScenarioLoadError None (setIsLoadingScenarios true st).

Definition load_error_message : string := "Unable to load saved scenarios.".

(** And when the [fetch] settles (lines 77-97); [active] is the flag the
    effect's cleanup clears. *)
Definition load_remote_settled (active : bool) (r : FetchResult (list (Scenario num)))
    (st : Home.State num) : Home.State num :=
  if negb active then st
  else
    let failed := setScenarios [] (setScenarioLoadError (Some load_error_message) st) in
    let st' :=
      match r with
      | NetworkError => failed
      | Response code json =>
          if negb (ok code) then failed
          else match json with
               | None => failed
               | Some data => setScenarios data st
               end
      end in
    setStorageReady true (setIsLoadingScenarios false st').

(** The effect of lines 129-134. *)
Definition persist (auth : bool) (key : string) (st : Home.State num)
    (localStorage : gmap string string) : gmap string string :=
  if auth || negb (Home.storageReady st) then localStorage
  else <[key := JSON_stringify (Home.scenarios st)]> localStorage.
End Handlers.

(** ** The component as a transition system

    The state of [Home], the session it reads, the device storage, and the
    requests that have been sent and have not settled yet. *)

Record World (num : Type) := {
  home : Home.State num;
  session : Session;
  localStorage : gmap string string;
  savesInFlight : list (SaveRequest num);
  deletesInFlight : list string;
  loadsInFlight : list bool;          (* the [active] flag of each *)
}.
Arguments home {num} _.
Arguments session {num} _.
Arguments localStorage {num} _.
Arguments savesInFlight {num} _.
Arguments deletesInFlight {num} _.
Arguments loadsInFlight {num} _.

Inductive Event (num : Type) :=
  | SessionChanged (s : Session) (p : Platform)
  | InputChanged (field : InputKey) (value : string)
  | FrequencyChanged (value : ContributionFrequency)
  | ResetClicked
  | SaveClicked (answer : option string) (p : Platform)
  | SaveSettled (r : FetchResult (Scenario num))
  | LoadClicked (i : string)
  | DeleteClicked (i : string) (confirmed : bool)
  | DeleteSettled (k : nat) (r : FetchResult unit)
  | LoadSettled (k : nat) (r : FetchResult (list (Scenario num))).
Arguments SessionChanged {num} s p.
Arguments InputChanged {num} field value.
Arguments FrequencyChanged {num} value.
Arguments ResetClicked {num}.
Arguments SaveClicked {num} answer p.
Arguments SaveSettled {num} r.
Arguments LoadClicked {num} i.
Arguments DeleteClicked {num} i confirmed.
Arguments DeleteSettled {num} k r.
Arguments LoadSettled {num} k r.

Section Component.
Context {num : Type} `{NumberOps num}.
Variable Number : string → num.
Variable JSON_stringify : list (Scenario num) → string.
Variable JSON_parse : string → option (list (StoredScenario num)).
Variable Date_toISOString : num → string.

Definition initial_home : Home.State num :=
  {| Home.inputs := defaultInputs;
     Home.scenarios := [];
     Home.storageReady := false;
     Home.isLoadingScenarios := false;
     Home.scenarioError := None;
     Home.scenarioLoadError := None;
     Home.isSavingScenario := false |}.

(** The load effect (lines 71-127) for session [s]: the cleanup of the run
    before it clears the [active] flags, then the branch of the mode runs. *)
Definition run_load_effect (s : Session) (p : Platform) (w : World num) : World num :=
  let stale := (λ _, false) <$> loadsInFlight w in
  if isAuthenticated s then
    {| home := load_remote (home w);
       session := s;
       localStorage := localStorage w;
       savesInFlight := savesInFlight w;
       deletesInFlight := deletesInFlight w;
       loadsInFlight := stale ++ [true] |}
  else
    {| home := load_local JSON_parse Date_toISOString
                 (localStorage w !! storageKey s) p (home w);
       session := s;
       localStorage := localStorage w;
       savesInFlight := savesInFlight w;
       deletesInFlight := deletesInFlight w;
       loadsInFlight := stale |}.

(** The storage effect (lines 129-134).  It re-runs when one of its
    dependencies changed; when none did, storage already holds what it would
    write, so it is run after every event. *)
Definition run_persist (w : World num) : World num :=
  {| home := home w;
     session := session w;
     localStorage := persist JSON_stringify (isAuthenticated (session w))
                       (storageKey (session w)) (home w) (localStorage w);
     savesInFlight := savesInFlight w;
     deletesInFlight := deletesInFlight w;
     loadsInFlight := loadsInFlight w |}.

Definition with_home (st : Home.State num) (w : World num) : World num :=
  {| home := st;
     session := session w;
     localStorage := localStorage w;
     savesInFlight := savesInFlight w;
     deletesInFlight := deletesInFlight w;
     loadsInFlight := loadsInFlight w |}.

(** What an event does before the storage effect runs; [None] when the event
    cannot happen (nothing in flight to settle). *)
Definition handle (w : World num) (e : Event num) : option (World num) :=
  let auth := isAuthenticated (session w) in
  match e with
  | SessionChanged s p =>
      if bool_decide (isAuthenticated s = auth ∧ storageKey s = storageKey (session w))
      then Some {| home := home w;
                   session := s;
                   localStorage := localStorage w;
                   savesInFlight := savesInFlight w;
                   deletesInFlight := deletesInFlight w;
                   loadsInFlight := loadsInFlight w |}
      else Some (run_load_effect s p w)
  | InputChanged field value =>
      Some (with_home (setInputs (handleInputChange Number field value
                                    (Home.inputs (home w))) (home w)) w)
  | FrequencyChanged value =>
      Some (with_home (setInputs (handleFrequencyChange value
                                    (Home.inputs (home w))) (home w)) w)
  | ResetClicked => Some (with_home (setInputs defaultInputs (home w)) w)
  | SaveClicked answer p =>
      let '(st, request) := click_save auth answer p (home w) in
      Some {| home := st;
              session := session w;
              localStorage := localStorage w;
              savesInFlight := savesInFlight w ++ option_list request;
              deletesInFlight := deletesInFlight w;
              loadsInFlight := loadsInFlight w |}
  | SaveSettled r =>
      match savesInFlight w with
      | [] => None
      | _ :: rest =>
          Some {| home := handleSaveScenario_settled r (home w);
                  session := session w;
                  localStorage := localStorage w;
                  savesInFlight := rest;
                  deletesInFlight := deletesInFlight w;
                  loadsInFlight := loadsInFlight w |}
      end
  | LoadClicked i => Some (with_home (handleLoadScenario i (home w)) w)
  | DeleteClicked i confirmed =>
      let '(st, sent) := handleDeleteScenario auth i confirmed (home w) in
      Some {| home := st;
              session := session w;
              localStorage := localStorage w;
              savesInFlight := savesInFlight w;
              deletesInFlight := deletesInFlight w ++ (if sent then [i] else []);
              loadsInFlight := loadsInFlight w |}
  | DeleteSettled k r =>
      match deletesInFlight w !! k with
      | None => None
      | Some i =>
          Some {| home := handleDeleteScenario_settled i r (home w);
                  session := session w;
                  localStorage := localStorage w;
                  savesInFlight := savesInFlight w;
                  deletesInFlight := delete k (deletesInFlight w);
                  loadsInFlight := loadsInFlight w |}
      end
  | LoadSettled k r =>
      match loadsInFlight w !! k with
      | None => None
      | Some active =>
          Some {| home := load_remote_settled active r (home w);
                  session := session w;
                  localStorage := localStorage w;
                  savesInFlight := savesInFlight w;
                  deletesInFlight := deletesInFlight w;
                  loadsInFlight := delete k (loadsInFlight w) |}
      end
  end.

Definition step (w : World num) (e : Event num) : option (World num) :=
  run_persist <$> handle w e.

(** The component once mounted under session [s], with [storage] on the
    device. *)
Definition mount (s : Session) (p : Platform) (storage : gmap string string) : World num :=
  run_persist
    (run_load_effect s p
       {| home := initial_home;
          session := s;
          localStorage := storage;
          savesInFlight := [];
          deletesInFlight := [];
          loadsInFlight := [] |}).

Inductive reachable : World num → Prop :=
  | reachable_mount s p storage : reachable (mount s p storage)
  | reachable_step w e w' : reachable w → step w e = Some w' → reachable w'.
End Component.

(** ** The [POST] handler of [src/app/api/scenarios/route.ts] (lines 38-66) *)

Section Server.
(** The JSON value sent as [inputs]; the handler stores it as it is. *)
Variable payload : Type.

(** The parsed request body, as far as the handler looks at it:
    [body_name] is [Some] when [typeof body.name === "string"]. *)
Record PostBody := {
  body_name : option string;
  body_inputs_is_object : bool;
  body_inputs : payload;
}.

(** The record [prisma.scenario.create] is given, with the id and the time
    the database assigns. *)
Record ScenarioRow := {
  row_id : string;
  row_name : string;
  row_inputs : payload;
  row_userId : string;
  row_createdAt : string;
}.

(** The status of the response and the row created, if one was.
    [session_user_id] is [session?.user?.id]; [body] is [None] when the body
    does not parse or is falsy. *)
Definition POST (session_user_id : option string) (body : option PostBody)
    (db_id db_createdAt : string) : Z * option ScenarioRow :=
  match session_user_id with
  | None => (401%Z, None)
  | Some uid =>
      if negb (truthy uid) then (401%Z, None)
      else match body with
           | None => (400%Z, None)
           | Some b =>
               match body_name b with
               | None => (400%Z, None)
               | Some n =>
                   if negb (truthy (trim n)) || negb (body_inputs_is_object b)
                   then (400%Z, None)
                   else (201%Z,
                         Some {| row_id := db_id;
                                 row_name := slice0 80 (trim n);
                                 row_inputs := body_inputs b;
                                 row_userId := uid;
                                 row_createdAt := db_createdAt |})
               end
           end
  end.

(** A row the handler creates has a name of 1 to 80 characters. *)
Lemma POST_name_bounds uid body db_id db_createdAt code row :
  POST uid body db_id db_createdAt = (code, Some row) →
  code = 201%Z ∧ (1 <= String.length (row_name row) <= 80)%nat.
Proof.
  unfold POST. intros E. repeat case_match; simplify_eq. split; [reflexivity|].
  cbn [row_name]. rewrite length_slice0.
  match goal with Hc : _ || _ = false |- _ =>
    apply orb_false_iff in Hc as [Hc _]; apply negb_false_iff, truthy_length in Hc end.
  lia.
Qed.

(** A name that is empty or white space only is answered with status 400,
    and nothing is created. *)
Lemma POST_blank_name uid b db_id db_createdAt n :
  body_name b = Some n → all_white_space n = true →
  truthy uid = true →
  POST (Some uid) (Some b) db_id db_createdAt = (400%Z, None).
Proof.
  intros En Hw Hu. unfold POST. rewrite Hu, En. cbn.
  apply trim_empty in Hw. rewrite Hw. reflexivity.
Qed.
End Server.

(** ** Properties of the scenario handlers *)

Section HandlerFacts.
Context {num : Type} `{NumberOps num}.

Lemma trim_truthy answer : truthy (trim answer) = true → truthy answer = true.
Proof.
  rewrite !truthy_length. pose proof (trim_length answer). lia.
Qed.

(** A name that trims to nothing is refused in both modes: the state is
    left as it is and no request is sent. *)
Lemma handleSaveScenario_blank auth answer p (st : Home.State num) :
  all_white_space answer = true →
  handleSaveScenario auth (Some answer) p st = (st, None).
Proof.
  intros Hw. unfold handleSaveScenario. apply trim_empty in Hw. rewrite Hw. cbn.
  destruct (negb (truthy answer)); reflexivity.
Qed.

Lemma handleSaveScenario_cancelled auth p (st : Home.State num) :
  handleSaveScenario auth None p st = (st, None).
Proof. reflexivity. Qed.

(** A save in guest mode. *)
Lemma handleSaveScenario_guest answer p (st : Home.State num) :
  truthy (trim answer) = true → Home.storageReady st = true →
  handleSaveScenario false (Some answer) p st
  = (setScenarios (take 10 (newScenario p (trim answer) (Home.inputs st)
                            :: Home.scenarios st)) st, None).
Proof.
  intros Ht Hr. unfold handleSaveScenario.
  rewrite (trim_truthy answer Ht), Ht, Hr. reflexivity.
Qed.

(** A save in authenticated mode. *)
Lemma handleSaveScenario_authenticated answer p (st : Home.State num) :
  truthy (trim answer) = true →
  handleSaveScenario true (Some answer) p st
  = (setScenarioError None (setIsSavingScenario true st),
     Some {| request_name := trim answer; request_inputs := Home.inputs st |}).
Proof.
  intros Ht. unfold handleSaveScenario. rewrite (trim_truthy answer Ht), Ht. reflexivity.
Qed.

(** The handlers never write [isSavingScenario], the save handler apart. *)
Lemma handleSaveScenario_saving auth answer p (st : Home.State num) :
  Home.isSavingScenario (handleSaveScenario auth answer p st).1
  = match (handleSaveScenario auth answer p st).2 with
    | Some _ => true
    | None => Home.isSavingScenario st
    end.
Proof.
  unfold handleSaveScenario. destruct answer as [a|]; [|reflexivity].
  destruct (negb (truthy a)); [reflexivity|].
  destruct (negb (truthy (trim a))); [reflexivity|].
  destruct auth; [reflexivity|].
  destruct (negb (Home.storageReady st)); reflexivity.
Qed.

Lemma handleDeleteScenario_saving auth i confirmed (st : Home.State num) :
  Home.isSavingScenario (handleDeleteScenario auth i confirmed st).1
  = Home.isSavingScenario st.
Proof. unfold handleDeleteScenario. repeat case_match; reflexivity. Qed.

Lemma handleDeleteScenario_settled_saving i r (st : Home.State num) :
  Home.isSavingScenario (handleDeleteScenario_settled i r st) = Home.isSavingScenario st.
Proof. unfold handleDeleteScenario_settled. repeat case_match; reflexivity. Qed.

Lemma handleLoadScenario_saving i (st : Home.State num) :
  Home.isSavingScenario (handleLoadScenario i st) = Home.isSavingScenario st.
Proof. unfold handleLoadScenario. case_match; reflexivity. Qed.

Lemma load_remote_settled_saving active r (st : Home.State num) :
  Home.isSavingScenario (load_remote_settled active r st) = Home.isSavingScenario st.
Proof. unfold load_remote_settled. repeat case_match; reflexivity. Qed.

Lemma handleSaveScenario_settled_saving r (st : Home.State num) :
  Home.isSavingScenario (handleSaveScenario_settled r st) = false.
Proof. reflexivity. Qed.
End HandlerFacts.

(** ** Invariants of the component *)

Section ComponentFacts.
Context {num : Type} `{NumberOps num}.
Variable Number : string → num.
Variable JSON_stringify : list (Scenario num) → string.
Variable JSON_parse : string → option (list (StoredScenario num)).
Variable Date_toISOString : num → string.

Local Abbreviation Step := (step Number JSON_stringify JSON_parse Date_toISOString).
Local Abbreviation Handle := (handle Number JSON_parse Date_toISOString).
Local Abbreviation Mount := (mount JSON_stringify JSON_parse Date_toISOString).
Local Abbreviation Reachable := (reachable Number JSON_stringify JSON_parse Date_toISOString).
Local Abbreviation Run_persist := (run_persist JSON_stringify).

(** In guest mode, once storage is ready, the device holds the list the
    component shows. *)
Definition persisted (w : World num) : Prop :=
  isAuthenticated (session w) = false → Home.storageReady (home w) = true →
  localStorage w !! storageKey (session w)
  = Some (JSON_stringify (Home.scenarios (home w))).

(** At most one save is in flight, and [isSavingScenario] says whether one
    is. *)
Definition single_flight (w : World num) : Prop :=
  (length (savesInFlight w) <= 1)%nat
  ∧ (Home.isSavingScenario (home w) = true ↔ savesInFlight w ≠ []).

Lemma run_persist_persisted w : persisted (Run_persist w).
Proof.
  unfold persisted, run_persist, persist. cbn. intros -> ->. cbn.
  apply lookup_insert_eq.
Qed.

Lemma run_persist_id w : persisted w → Run_persist w = w.
Proof.
  unfold persisted, run_persist, persist. intros Hp. destruct w as [st s ls sv dl ld].
  cbn in *. f_equal.
  destruct (isAuthenticated s); [reflexivity|].
  destruct (Home.storageReady st); [|reflexivity].
  cbn. apply insert_id, Hp; reflexivity.
Qed.

Lemma step_persisted w e w' : Step w e = Some w' → persisted w'.
Proof.
  unfold step. destruct (Handle w e) as [w1|]; [|discriminate].
  intros [= <-]. apply run_persist_persisted.
Qed.

Lemma reachable_persisted w : Reachable w → persisted w.
Proof.
  intros [s p storage|w0 e w1 _ Hstep].
  - apply run_persist_persisted.
  - exact (step_persisted _ _ _ Hstep).
Qed.

Lemma single_flight_idle (w : World num) :
  single_flight w → Home.isSavingScenario (home w) = false → savesInFlight w = [].
Proof.
  intros [_ Hiff] Hs. destruct (savesInFlight w) as [|r rs]; [reflexivity|].
  assert (Home.isSavingScenario (home w) = true) by (apply Hiff; discriminate).
  congruence.
Qed.

Lemma canSaveScenario_idle auth (st : Home.State num) :
  canSaveScenario auth st = true → Home.isSavingScenario st = false.
Proof.
  unfold canSaveScenario. destruct auth, (Home.storageReady st),
    (Home.isSavingScenario st); cbn; congruence.
Qed.

Lemma canSaveScenario_saving auth (st : Home.State num) :
  Home.isSavingScenario st = true → canSaveScenario auth st = false.
Proof.
  unfold canSaveScenario. intros ->. destruct auth, (Home.storageReady st); reflexivity.
Qed.

Lemma handle_single_flight w e w' :
  Handle w e = Some w' → single_flight w → single_flight w'.
Proof.
  unfold single_flight.
  destruct e as [s p|field value|value| |answer p|r|i|i confirmed|k r|k r]; cbn.
  - case_bool_decide; intros [= <-]; [exact (λ Hw, Hw)|].
    unfold run_load_effect. destruct (isAuthenticated s); exact (λ Hw, Hw).
  - intros [= <-]. exact (λ Hw, Hw).
  - intros [= <-]. exact (λ Hw, Hw).
  - intros [= <-]. exact (λ Hw, Hw).
  - unfold click_save.
    destruct (canSaveScenario (isAuthenticated (session w)) (home w)) eqn:Hcan.
    + pose proof (handleSaveScenario_saving (isAuthenticated (session w)) answer p (home w))
        as Hsav.
      destruct (handleSaveScenario (isAuthenticated (session w)) answer p (home w))
        as [st request]. cbn in Hsav.
      intros [= <-] Hw. cbn.
      rewrite (single_flight_idle w Hw (canSaveScenario_idle _ _ Hcan)). cbn.
      apply canSaveScenario_idle in Hcan.
      destruct request; cbn; rewrite Hsav; split; try lia; split; congruence.
    + intros [= <-]. cbn. rewrite app_nil_r. exact (λ Hw, Hw).
  - destruct (savesInFlight w) as [|req rest] eqn:Es; [discriminate|].
    intros [= <-] [Hlen _]. cbn in *. destruct rest; [|cbn in Hlen; lia].
    split; [cbn; lia|]. split; [discriminate|congruence].
  - intros [= <-]. cbn. rewrite handleLoadScenario_saving. exact (λ Hw, Hw).
  - pose proof (handleDeleteScenario_saving (isAuthenticated (session w)) i confirmed (home w))
      as Hsav.
    destruct (handleDeleteScenario (isAuthenticated (session w)) i confirmed (home w))
      as [st sent]. cbn in Hsav.
    intros [= <-]. cbn. rewrite Hsav. exact (λ Hw, Hw).
  - destruct (deletesInFlight w !! k); [|discriminate].
    intros [= <-]. cbn. rewrite handleDeleteScenario_settled_saving. exact (λ Hw, Hw).
  - destruct (loadsInFlight w !! k); [|discriminate].
    intros [= <-]. cbn. rewrite load_remote_settled_saving. exact (λ Hw, Hw).
Qed.

Lemma step_single_flight w e w' :
  Step w e = Some w' → single_flight w → single_flight w'.
Proof.
  unfold step. destruct (Handle w e) as [w1|] eqn:Eh; [|discriminate].
  intros [= <-] Hw. exact (handle_single_flight _ _ _ Eh Hw).
Qed.

Lemma reachable_single_flight w : Reachable w → single_flight w.
Proof.
  induction 1 as [s p storage|w e w' _ IH Hstep].
  - unfold single_flight, mount, run_persist, run_load_effect.
    destruct (isAuthenticated s); cbn; (split; [lia|split; [discriminate|congruence]]).
  - exact (step_single_flight _ _ _ Hstep IH).
Qed.
End ComponentFacts.

(** ** Properties of saving and deleting *)

Section ScenarioClaims.
Context {num : Type} `{NumberOps num}.
Variable Number : string → num.
Variable JSON_stringify : list (Scenario num) → string.
Variable JSON_parse : string → option (list (StoredScenario num)).
Variable Date_toISOString : num → string.

Local Abbreviation Step := (step Number JSON_stringify JSON_parse Date_toISOString).
Local Abbreviation Reachable := (reachable Number JSON_stringify JSON_parse Date_toISOString).
Local Abbreviation Mount := (mount JSON_stringify JSON_parse Date_toISOString).

(** What [JSON.parse] returns for a scenario as [JSON.stringify] wrote it:
    the same fields, [createdAt] a string. *)
Definition as_stored (s : Scenario num) : StoredScenario num :=
  {| stored_id := id s;
     stored_name := name s;
     stored_createdAt := TimeString (createdAt s);
     stored_inputs := inputs s |}.

(** The text written for the list [l] reads back as [l]: it is not empty,
    and [JSON.parse] returns the scenarios that were written. *)
Definition reads_back (l : list (Scenario num)) : Prop :=
  truthy (JSON_stringify l) = true
  ∧ JSON_parse (JSON_stringify l) = Some (as_stored <$> l).

Lemma normalize_as_stored (p : Platform) (s : Scenario num) :
  normalize Date_toISOString p (as_stored s) = s.
Proof. destruct s; reflexivity. Qed.

Lemma load_local_reads_back (l : list (Scenario num)) (p : Platform)
    (st : Home.State num) :
  reads_back l →
  Home.scenarios (load_local JSON_parse Date_toISOString (Some (JSON_stringify l)) p st)
  = l.
Proof.
  intros [Htext Hparse]. unfold load_local. rewrite Htext, Hparse.
  cbn [setStorageReady setScenarioLoadError setScenarios Home.scenarios].
  rewrite <- list_fmap_compose. rewrite <- (list_fmap_id l) at 2.
  apply list_fmap_ext. intros _ s _. apply normalize_as_stored.
Qed.

(** C6, with the id as the platform gives it.  In guest mode, with storage
    ready and no save in flight, a save under a name that does not trim to
    nothing builds a scenario with the id [crypto.randomUUID()] returned
    (or, without it, the text of [Date.now()]), the trimmed name and the
    current inputs, puts it in front of the list and keeps the first 10
    entries.  The list then starts with that scenario, and device storage
    holds the whole list under the storage key.  When the text written reads
    back, a component mounted afterwards in the same session loads from the
    device the very list that was saved, the new scenario first.  When the
    id the platform gave is not among the ids in the list, ids stay
    distinct. *)
Theorem guest_save_round_trip (w : World num) (answer : string) (p : Platform) :
  isAuthenticated (session w) = false →
  Home.storageReady (home w) = true →
  Home.isSavingScenario (home w) = false →
  truthy (trim answer) = true →
  let saved := {| id := match randomUUID p with
                        | Some uuid => uuid
                        | None => Date_now p
                        end;
                  name := trim answer;
                  createdAt := now_toISOString p;
                  inputs := Home.inputs (home w) |} in
  ∃ w', Step w (SaveClicked (Some answer) p) = Some w'
      ∧ Home.scenarios (home w') = take 10 (saved :: Home.scenarios (home w))
      ∧ head (Home.scenarios (home w')) = Some saved
      ∧ (length (Home.scenarios (home w')) <= 10)%nat
      ∧ localStorage w' !! storageKey (session w')
        = Some (JSON_stringify (Home.scenarios (home w')))
      ∧ Home.inputs (home w') = Home.inputs (home w)
      ∧ savesInFlight w' = savesInFlight w
      ∧ (reads_back (Home.scenarios (home w')) →
         ∀ p', let reloaded := Mount (session w') p' (localStorage w') in
               Home.scenarios (home reloaded) = Home.scenarios (home w')
               ∧ head (Home.scenarios (home reloaded)) = Some saved
               ∧ localStorage reloaded = localStorage w')
      ∧ (id saved ∉ (id <$> Home.scenarios (home w)) →
         NoDup (id <$> Home.scenarios (home w)) →
         NoDup (id <$> Home.scenarios (home w'))).
Proof.
  intros Hauth Hready Hidle Hname saved.
  unfold step, handle, click_save, canSaveScenario.
  rewrite Hauth, Hready, Hidle. cbn [andb negb].
  rewrite (handleSaveScenario_guest answer p (home w) Hname Hready).
  fold saved. cbn [fmap option_fmap option_map option_list].
  eexists. split; [reflexivity|].
  cbn [run_persist home session localStorage savesInFlight setScenarios Home.scenarios
       Home.inputs Home.storageReady].
  split; [reflexivity|]. split; [reflexivity|]. split.
  { rewrite length_take. lia. }
  assert (persist JSON_stringify (isAuthenticated (session w)) (storageKey (session w))
            (setScenarios (take 10 (saved :: Home.scenarios (home w))) (home w))
            (localStorage w) !! storageKey (session w)
          = Some (JSON_stringify (take 10 (saved :: Home.scenarios (home w))))) as Hstore.
  { unfold persist. rewrite Hauth. cbn.
    change (Home.storageReady (setScenarios _ (home w))) with (Home.storageReady (home w)).
    rewrite Hready. cbn. apply lookup_insert_eq. }
  split; [exact Hstore|].
  split; [reflexivity|]. split; [apply app_nil_r|]. split.
  - intros Hback p'. cbv zeta. unfold mount, run_load_effect.
    cbn [session localStorage home loadsInFlight savesInFlight deletesInFlight].
    rewrite Hauth. cbn [run_persist home session localStorage].
    rewrite Hauth in Hstore.
    match goal with
    | |- context [load_local _ _ (?store !! ?k) _ _] =>
        set (device := store) in *;
        assert (device !! k = Some (JSON_stringify (take 10 (saved :: Home.scenarios (home w)))))
          as Hdevice by exact Hstore
    end.
    rewrite Hdevice.
    set (loaded := load_local JSON_parse Date_toISOString _ p' _).
    assert (Home.scenarios loaded = take 10 (saved :: Home.scenarios (home w))) as El
      by apply (load_local_reads_back _ p' _ Hback).
    split; [exact El|]. split; [rewrite El; reflexivity|].
    unfold persist at 1. rewrite Hauth. cbn [orb negb].
    change (Home.storageReady loaded) with true. cbn [negb].
    rewrite El. apply insert_id, Hdevice.
  - intros Hfresh Hnodup. rewrite fmap_take.
    eapply sublist_NoDup; [|apply sublist_take].
    rewrite fmap_cons. apply NoDup_cons. split; assumption.
Qed.

(** C9. A save or a delete request that does not end in a response of the
    200 class leaves the scenario list and the inputs as they were: the save
    handler sets its error message and clears [isSavingScenario], the delete
    handler sets its error message and nothing else.  Conversely, whenever
    the list a handler leaves differs from the list it found, the response
    had a status from 200 to 299. *)
Theorem failed_request_keeps_list :
  (∀ (r : FetchResult (Scenario num)) (st : Home.State num),
     match r with
     | NetworkError => True
     | Response code json => ok code = false ∨ json = None
     end →
     handleSaveScenario_settled r st
     = setIsSavingScenario false (setScenarioError (Some save_error_message) st))
  ∧ (∀ (i : string) (r : FetchResult unit) (st : Home.State num),
       match r with
       | NetworkError => True
       | Response code _ => ok code = false
       end →
       handleDeleteScenario_settled i r st
       = setScenarioError (Some delete_error_message) st)
  ∧ (∀ (r : FetchResult (Scenario num)) (st : Home.State num),
       Home.scenarios (handleSaveScenario_settled r st) ≠ Home.scenarios st →
       ∃ code saved, r = Response code (Some saved) ∧ (200 ≤ code ≤ 299)%Z)
  ∧ (∀ (i : string) (r : FetchResult unit) (st : Home.State num),
       Home.scenarios (handleDeleteScenario_settled i r st) ≠ Home.scenarios st →
       ∃ code json, r = Response code json ∧ (200 ≤ code ≤ 299)%Z)
  ∧ (∀ w w' r, Step w (SaveSettled r) = Some w' →
       Home.scenarios (home w') ≠ Home.scenarios (home w)
       ∨ Home.inputs (home w') ≠ Home.inputs (home w) →
       ∃ code saved, r = Response code (Some saved) ∧ (200 ≤ code ≤ 299)%Z)
  ∧ (∀ w w' k r, Step w (DeleteSettled k r) = Some w' →
       Home.scenarios (home w') ≠ Home.scenarios (home w)
       ∨ Home.inputs (home w') ≠ Home.inputs (home w) →
       ∃ code json, r = Response code json ∧ (200 ≤ code ≤ 299)%Z).
Proof.
  assert (∀ code, ok code = true → (200 ≤ code ≤ 299)%Z) as Hok.
  { unfold ok. intros code Hc. apply andb_true_iff in Hc as [H1 H2]. lia. }
  assert (∀ (r : FetchResult (Scenario num)) (st : Home.State num),
            Home.scenarios (handleSaveScenario_settled r st) ≠ Home.scenarios st →
            ∃ code saved, r = Response code (Some saved) ∧ (200 ≤ code ≤ 299)%Z) as Hsave.
  { intros [|code [saved|]] st; unfold handleSaveScenario_settled;
      try (destruct (ok code) eqn:Hc); cbn; try congruence.
    intros _. exists code, saved. split; [reflexivity|apply Hok, Hc]. }
  assert (∀ (i : string) (r : FetchResult unit) (st : Home.State num),
            Home.scenarios (handleDeleteScenario_settled i r st) ≠ Home.scenarios st →
            ∃ code json, r = Response code json ∧ (200 ≤ code ≤ 299)%Z) as Hdelete.
  { intros i [|code json] st; unfold handleDeleteScenario_settled;
      try (destruct (ok code) eqn:Hc); cbn; try congruence.
    intros _. exists code, json. split; [reflexivity|apply Hok, Hc]. }
  split; [|split; [|split; [exact Hsave|split; [exact Hdelete|split]]]].
  - intros [|code json] st Hfail; unfold handleSaveScenario_settled; [reflexivity|].
    destruct Hfail as [-> | ->]; [reflexivity|].
    destruct (ok code); reflexivity.
  - intros i [|code json] st Hfail; unfold handleDeleteScenario_settled; [reflexivity|].
    rewrite Hfail. reflexivity.
  - intros w w' r. unfold step, handle.
    destruct (savesInFlight w); [discriminate|]. intros [= <-]. cbn.
    intros [Hs|Hi]; [exact (Hsave r (home w) Hs)|].
    exfalso. apply Hi. destruct r as [|code [saved|]];
      unfold handleSaveScenario_settled; try (destruct (ok code)); reflexivity.
  - intros w w' k r. unfold step, handle.
    destruct (deletesInFlight w !! k) as [i|]; [|discriminate]. intros [= <-]. cbn.
    intros [Hs|Hi]; [exact (Hdelete i r (home w) Hs)|].
    exfalso. apply Hi. destruct r as [|code json];
      unfold handleDeleteScenario_settled; try (destruct (ok code)); reflexivity.
Qed.

(** C8. In every state the component can reach, at most one save request is
    in flight, and [isSavingScenario] is set exactly while one is.  While one
    is, the save button is disabled: a click on it changes nothing, in
    particular it sends no request and adds no scenario.  When the request
    settles, whatever its outcome, [isSavingScenario] is cleared and no save
    is in flight. *)
Theorem save_is_single_flight (w : World num) :
  Reachable w →
  (length (savesInFlight w) <= 1)%nat
  ∧ (Home.isSavingScenario (home w) = true ↔ savesInFlight w ≠ [])
  ∧ (savesInFlight w ≠ [] →
     canSaveScenario (isAuthenticated (session w)) (home w) = false
     ∧ ∀ answer p, Step w (SaveClicked answer p) = Some w)
  ∧ (∀ r w', Step w (SaveSettled r) = Some w' →
       Home.isSavingScenario (home w') = false ∧ savesInFlight w' = []).
Proof.
  intros Hreach.
  pose proof (reachable_single_flight _ _ _ _ w Hreach) as [Hlen Hiff].
  split; [exact Hlen|]. split; [exact Hiff|]. split.
  - intros Hflight. apply Hiff in Hflight.
    pose proof (canSaveScenario_saving (isAuthenticated (session w)) (home w) Hflight)
      as Hcan.
    split; [exact Hcan|]. intros answer p.
    unfold step, handle, click_save. rewrite Hcan.
    cbn [fmap option_fmap option_map option_list]. rewrite app_nil_r.
    f_equal. transitivity (run_persist JSON_stringify w).
    + clear. destruct w; reflexivity.
    + apply run_persist_id. exact (reachable_persisted _ _ _ _ w Hreach).
  - intros r w'. unfold step, handle.
    destruct (savesInFlight w) as [|req rest]; [discriminate|].
    intros [= <-]. cbn. split; [reflexivity|].
    destruct rest; [reflexivity|cbn in Hlen; lia].
Qed.
End ScenarioClaims.

(** ** The component on an example

    Stand-ins for the functions of the language, a guest and a signed-in
    session, and what one call reads from the platform. *)

Definition sample_stringify (l : list (Scenario float)) : string :=
  String.concat "," (name <$> l).

Definition sample_parse (raw : string) : option (list (StoredScenario float)) := None.

Definition sample_toISOString (ms : float) : string := "1970-01-01T00:00:00.000Z".

Definition guest_session : Session := {| status := unauthenticated; user := None |}.

Definition signed_in_session : Session :=
  {| status := authenticated;
     user := Some {| user_id := Some "u1"; user_email := Some "ann@example.org" |} |}.

Definition sample_platform : Platform :=
  {| randomUUID := Some "0b5e";
     Date_now := "1767225600000";
     now_toISOString := "2026-01-01T00:00:00.000Z" |}.

Definition guest_world : World float :=
  mount sample_stringify sample_parse sample_toISOString
    guest_session sample_platform ∅.

Definition signed_in_world : World float :=
  mount sample_stringify sample_parse sample_toISOString
    signed_in_session sample_platform ∅.

(** The signed-in component after a click on the save button, answered with
    "Plan A": the request is in flight. *)
Definition saving_world : World float :=
  {| home := setScenarioError None (setIsSavingScenario true (home signed_in_world));
     session := signed_in_session;
     localStorage := ∅;
     savesInFlight := [{| request_name := "Plan A"; request_inputs := defaultInputs |}];
     deletesInFlight := [];
     loadsInFlight := [true] |}.

Lemma saving_world_reachable :
  reachable sample_Number sample_stringify sample_parse sample_toISOString saving_world.
Proof.
  apply (reachable_step _ _ _ _ signed_in_world (SaveClicked (Some "Plan A") sample_platform)).
  - apply reachable_mount.
  - reflexivity.
Qed.

(** The scenario the example saves, and a stand-in for [JSON.parse] that
    reads back the text [sample_stringify] writes for it. *)
Definition my_plan : Scenario float :=
  {| id := "0b5e"; name := "My plan";
     createdAt := "2026-01-01T00:00:00.000Z";
     inputs := defaultInputs |}.

Definition echo_parse (raw : string) : option (list (StoredScenario float)) :=
  if String.eqb raw (sample_stringify [my_plan]) then Some [as_stored my_plan] else None.

Lemma guest_save_round_trip_witness :
  ∃ w', step sample_Number sample_stringify echo_parse sample_toISOString
          guest_world (SaveClicked (Some "  My plan ") sample_platform) = Some w'
      ∧ head (Home.scenarios (home w')) = Some my_plan
      ∧ localStorage w' !! "scenarios_guest"
        = Some (sample_stringify (Home.scenarios (home w')))
      ∧ Home.scenarios
          (home (mount sample_stringify echo_parse sample_toISOString
                   guest_session sample_platform (localStorage w')))
        = [my_plan].
Proof.
  destruct (guest_save_round_trip sample_Number sample_stringify echo_parse
              sample_toISOString guest_world "  My plan " sample_platform)
    as (w' & Hstep & Hlist & Hhead & _ & Hstore & _ & _ & Hback & _); [reflexivity..|].
  assert (session w' = guest_session) as Es.
  { apply (f_equal (fmap (M:=option) session)) in Hstep.
    cbn in Hstep. injection Hstep as <-. reflexivity. }
  exists w'. split; [exact Hstep|]. split; [exact Hhead|].
  split; [rewrite Es in Hstore; exact Hstore|].
  destruct (Hback ltac:(rewrite Hlist; split; reflexivity) sample_platform) as (Hre & _).
  rewrite Es in Hre. rewrite Hre, Hlist. reflexivity.
Defined.

(** A platform without [crypto.randomUUID]: the id is the text of
    [Date.now()]. *)
Definition clock_platform : Platform :=
  {| randomUUID := None;
     Date_now := "1767225600000";
     now_toISOString := "2026-01-01T00:00:00.000Z" |}.

(** C6 as stated, with an id that is fresh and unique, fails on the fallback
    of lines 245-247: without [crypto.randomUUID] the id is the millisecond
    count of [Date.now()], and two saves within one millisecond get the same
    id.  The second save's id is already in the list, and the list then
    holds two scenarios with one id. *)
Lemma guest_save_repeats_the_id :
  ∃ w1 w2,
    step sample_Number sample_stringify sample_parse sample_toISOString
      guest_world (SaveClicked (Some "Plan A") clock_platform) = Some w1
    ∧ step sample_Number sample_stringify sample_parse sample_toISOString
        w1 (SaveClicked (Some "Plan B") clock_platform) = Some w2
    ∧ name <$> Home.scenarios (home w2) = ["Plan B"; "Plan A"]
    ∧ id <$> Home.scenarios (home w2) = ["1767225600000"; "1767225600000"]
    ∧ "1767225600000" ∈ (id <$> Home.scenarios (home w1))
    ∧ ¬ NoDup (id <$> Home.scenarios (home w2)).
Proof.
  eexists _, _. split; [reflexivity|]. split; [reflexivity|].
  split; [reflexivity|]. split; [reflexivity|]. split; [left|].
  intros Hnd. apply NoDup_cons in Hnd as [Hnot _]. apply Hnot. left.
Qed.

Lemma save_is_single_flight_witness :
  savesInFlight saving_world ≠ []
  ∧ (∀ answer p,
       step sample_Number sample_stringify sample_parse sample_toISOString
         saving_world (SaveClicked answer p) = Some saving_world)
  ∧ (∀ r w', step sample_Number sample_stringify sample_parse sample_toISOString
               saving_world (SaveSettled r) = Some w' →
             Home.isSavingScenario (home w') = false ∧ savesInFlight w' = []).
Proof.
  destruct (save_is_single_flight sample_Number sample_stringify sample_parse
              sample_toISOString saving_world saving_world_reachable)
    as (_ & _ & Hclick & Hsettled).
  split; [discriminate|]. split; [|exact Hsettled].
  apply Hclick. discriminate.
Defined.

Lemma failed_request_keeps_list_witness :
  handleSaveScenario_settled (Response 500 None) (home saving_world)
  = setIsSavingScenario false
      (setScenarioError (Some save_error_message) (home saving_world))
  ∧ handleDeleteScenario_settled "0b5e" (Response 404 None) (home signed_in_world)
    = setScenarioError (Some delete_error_message) (home signed_in_world).
Proof.
  destruct (failed_request_keeps_list (num:=float) sample_Number sample_stringify
              sample_parse sample_toISOString) as (Hsave & Hdelete & _).
  split.
  - apply Hsave. left. reflexivity.
  - apply Hdelete. reflexivity.
Defined.

Definition long_name : string := string_of_list_ascii (List.repeat "a"%char 81).

(** C7 does not hold in guest mode: the guest branch of [handleSaveScenario]
    stores the trimmed name whole, where [POST] cuts it to 80 characters
    ([POST_name_bounds]).  A name of 81 characters is kept in the list and
    written to device storage. *)
Lemma guest_save_keeps_long_name :
  ∃ w', step sample_Number sample_stringify sample_parse sample_toISOString
          guest_world (SaveClicked (Some long_name) sample_platform) = Some w'
      ∧ (name <$> Home.scenarios (home w')) = [long_name]
      ∧ String.length long_name = 81%nat
      ∧ localStorage w' !! "scenarios_guest" = Some long_name.
Proof.
  eexists. split; [vm_compute; reflexivity|].
  split; [reflexivity|]. split; [reflexivity|]. vm_compute. reflexivity.
Qed.

(** * Further properties

    ** The ledger of the projection (exact arithmetic) *)

Definition sum_R (l : list R) : R := foldr Rplus 0%R l.

Section ExactLedger.
Context {num : Type} `{ExactNumber num}.
Variable inp : InvestmentInputs num.
Local Open Scope num_scope.

Lemma toR_month_step_totalContributions s m :
  toR (sim_totalContributions (month_step inp s m))
  = (toR (sim_totalContributions s) + added_R inp m)%R.
Proof.
  unfold month_step, added_R.
  destruct (month_contribution inp m >? lit 0) eqn:Hc; cbn.
  - apply ngt_spec in Hc. rewrite toR_0 in Hc.
    rewrite toR_add, Rmax_right by lra. reflexivity.
  - apply ngt_false in Hc. rewrite toR_0 in Hc. rewrite Rmax_left by lra. lra.
Qed.

Lemma toR_month_step_growth s m :
  toR (growthThisYear (month_step inp s m))
  = (toR (growthThisYear s) + (toR (sim_balance s) + added_R inp m) * rate_R inp)%R.
Proof.
  unfold month_step, added_R.
  destruct (month_contribution inp m >? lit 0) eqn:Hc; cbn;
    rewrite toR_add, toR_mul, toR_monthlyGrowthRate.
  - apply ngt_spec in Hc. rewrite toR_0 in Hc.
    rewrite toR_add, Rmax_right by lra. reflexivity.
  - apply ngt_false in Hc. rewrite toR_0 in Hc. rewrite Rmax_left by lra. lra.
Qed.

(** What the months of a year add to the principal is what they add to the
    year's contribution, and what they add to the balance beyond the
    principal is what they add to the year's growth. *)
Lemma fold_months_ledger ms s :
  let s' := fold_left (month_step inp) ms s in
  (toR (sim_totalContributions s') - toR (contributionThisYear s')
   = toR (sim_totalContributions s) - toR (contributionThisYear s))%R
  ∧ (toR (sim_balance s') - toR (sim_totalContributions s') - toR (growthThisYear s')
     = toR (sim_balance s) - toR (sim_totalContributions s) - toR (growthThisYear s))%R
  ∧ (toR (contributionThisYear s) <= toR (contributionThisYear s'))%R.
Proof.
  revert s. induction ms as [|m ms IH]; intros s; cbn zeta.
  - cbn. lra.
  - rewrite fold_left_cons. destruct (IH (month_step inp s m)) as (IH1 & IH2 & IH3).
    cbn zeta in *. rewrite IH1, IH2.
    rewrite toR_month_step_totalContributions, toR_month_step_contribution,
      toR_month_step_balance, toR_month_step_growth.
    rewrite toR_month_step_contribution in IH3.
    pose proof (added_R_nonneg inp m). repeat split; lra.
Qed.

Lemma run_year_ledger s :
  (toR (sim_totalContributions (run_year inp s))
   = toR (sim_totalContributions s) + toR (contributionThisYear (run_year inp s)))%R
  ∧ (toR (sim_balance (run_year inp s)) - toR (sim_totalContributions (run_year inp s))
     = toR (sim_balance s) - toR (sim_totalContributions s)
       + toR (growthThisYear (run_year inp s)))%R
  ∧ (0 <= toR (contributionThisYear (run_year inp s)))%R.
Proof.
  unfold run_year.
  destruct (fold_months_ledger months (year_start s)) as (H1 & H2 & H3).
  cbn zeta in *. cbn [year_start sim_totalContributions sim_balance
                      contributionThisYear growthThisYear] in *.
  rewrite toR_0 in *. repeat split; lra.
Qed.

(** The contributions and the growth of consecutive years add up to the
    change of the principal and of the balance beyond the principal. *)
Lemma rows_from_ledger y s n :
  sum_R ((λ row, toR (contribution row)) <$> rows_from inp y s n)
  = (toR (sim_totalContributions (state_from inp s n)) - toR (sim_totalContributions s))%R
  ∧ sum_R ((λ row, toR (growth row)) <$> rows_from inp y s n)
    = ((toR (sim_balance (state_from inp s n))
        - toR (sim_totalContributions (state_from inp s n)))
       - (toR (sim_balance s) - toR (sim_totalContributions s)))%R.
Proof.
  revert y s. induction n as [|n IH]; intros y s.
  - cbn. split; lra.
  - cbn [rows_from state_from fmap list_fmap sum_R foldr].
    fold (fmap (M:=list) (λ row : YearlySnapshot num, toR (contribution row))).
    fold (fmap (M:=list) (λ row : YearlySnapshot num, toR (growth row))).
    destruct (IH (y + 1)%Z (run_year inp s)) as [IH1 IH2].
    unfold sum_R in *. rewrite IH1, IH2. cbn [contribution growth snapshot].
    destruct (run_year_ledger s) as (H1 & H2 & _). split; lra.
Qed.

Lemma take_rows_from y s n k :
  (k <= n)%nat → take k (rows_from inp y s n) = rows_from inp y s k.
Proof.
  revert y s n. induction k as [|k IH]; intros y s n Hk; [apply take_0|].
  destruct n as [|n]; [lia|]. cbn [rows_from take]. rewrite IH by lia. reflexivity.
Qed.
End ExactLedger.

Section ExactClosedForms.
Context {num : Type} `{ExactNumber num}.
Variable inp : InvestmentInputs num.
Local Open Scope num_scope.

(** The monthly growth factor, and the inflation rate where it counts. *)
Definition growth_factor_R : R := (1 + rate_R inp)%R.
Definition inflation_R : R := (Rmax 0 (toR (inflationRate inp)) / 100 / 12)%R.

Lemma toR_inflation_factor_after n :
  toR (inflation_factor_after inp n) = ((1 + inflation_R) ^ n)%R.
Proof.
  unfold inflation_R. destruct (inflationRate inp >? lit 0) eqn:Hi.
  - rewrite (inflation_factor_after_positive inp n Hi).
    apply ngt_spec in Hi. rewrite toR_0 in Hi. rewrite Rmax_right by lra. reflexivity.
  - apply ngt_false in Hi. rewrite toR_0 in Hi.
    rewrite inflation_factor_after_nonpositive by (apply nle_spec; rewrite toR_0; lra).
    rewrite toR_1, Rmax_left by lra.
    replace (1 + 0 / 100 / 12)%R with 1%R by lra. rewrite pow1. reflexivity.
Qed.

Lemma inflation_factor_at_least_1 n : (1 <= (1 + inflation_R) ^ n)%R.
Proof.
  apply pow_R1_Rle. unfold inflation_R.
  pose proof (Rmax_l 0 (toR (inflationRate inp))). lra.
Qed.

(** A run of months that add nothing multiplies the balance by the growth
    factor, month after month. *)
Lemma fold_months_balance_idle ms s :
  (∀ m, added_R inp m = 0%R) →
  toR (sim_balance (fold_left (month_step inp) ms s))
  = (toR (sim_balance s) * growth_factor_R ^ length ms)%R.
Proof.
  intros Hadd. revert s. induction ms as [|m ms IH]; intros s.
  - cbn. lra.
  - rewrite fold_left_cons, IH, toR_month_step_balance, Hadd.
    unfold growth_factor_R. cbn [length pow]. lra.
Qed.

Lemma after_years_balance_idle k :
  (∀ m, added_R inp m = 0%R) →
  toR (sim_balance (after_years inp k))
  = (toR (startingAmount inp) * growth_factor_R ^ (12 * k))%R.
Proof.
  intros Hadd. induction k as [|k IH].
  - cbn. lra.
  - unfold after_years in *. rewrite state_from_succ. unfold run_year.
    rewrite fold_months_balance_idle by exact Hadd.
    cbn [year_start sim_balance]. rewrite IH.
    replace (12 * S k)%nat with (12 * k + 12)%nat by lia.
    rewrite pow_add. change (length months) with 12%nat.
    generalize (growth_factor_R ^ (12 * k))%R (growth_factor_R ^ 12)%R.
    intros X Y. ring.
Qed.

Lemma after_years_totalContributions_idle k :
  (∀ m, added_R inp m = 0%R) →
  sim_totalContributions (after_years inp k) = startingAmount inp.
Proof.
  intros Hadd. apply toR_inj. induction k as [|k IH]; [reflexivity|].
  unfold after_years in *. rewrite state_from_succ.
  destruct (run_year_ledger inp (state_from inp (initial inp) k)) as (H1 & _ & _).
  rewrite H1, IH.
  assert (∀ ms s, toR (contributionThisYear (fold_left (month_step inp) ms s))
                  = toR (contributionThisYear s)) as Hc.
  { induction ms as [|m ms IHm]; intros s; [reflexivity|].
    rewrite fold_left_cons, IHm, toR_month_step_contribution, Hadd. lra. }
  unfold run_year. rewrite Hc. cbn [year_start contributionThisYear]. rewrite toR_0. lra.
Qed.

(** A run of months that each add [a], under a growth factor other than 1. *)
Lemma fold_months_balance_annuity a ms s :
  (∀ m, added_R inp m = a) → growth_factor_R ≠ 1%R →
  toR (sim_balance (fold_left (month_step inp) ms s))
  = (toR (sim_balance s) * growth_factor_R ^ length ms
     + a * growth_factor_R * (growth_factor_R ^ length ms - 1) / (growth_factor_R - 1))%R.
Proof.
  intros Hadd Hq. revert s. induction ms as [|m ms IH]; intros s.
  - cbn. field. lra.
  - rewrite fold_left_cons, IH, toR_month_step_balance, Hadd.
    fold growth_factor_R. cbn [length pow].
    generalize (growth_factor_R ^ length ms)%R. intros X. field. lra.
Qed.

Lemma after_years_balance_annuity a k :
  (∀ m, added_R inp m = a) → growth_factor_R ≠ 1%R →
  toR (sim_balance (after_years inp k))
  = (toR (startingAmount inp) * growth_factor_R ^ (12 * k)
     + a * growth_factor_R * (growth_factor_R ^ (12 * k) - 1) / (growth_factor_R - 1))%R.
Proof.
  intros Hadd Hq. induction k as [|k IH].
  - cbn. field. lra.
  - unfold after_years in *. rewrite state_from_succ. unfold run_year.
    rewrite (fold_months_balance_annuity a) by assumption.
    cbn [year_start sim_balance]. rewrite IH.
    replace (12 * S k)%nat with (12 * k + 12)%nat by lia.
    rewrite pow_add. change (length months) with 12%nat.
    generalize (growth_factor_R ^ (12 * k))%R (growth_factor_R ^ 12)%R.
    intros X Y. field. lra.
Qed.

(** Without growth, each month adds its contribution and nothing else. *)
Lemma after_years_balance_flat a k :
  (∀ m, added_R inp m = a) → growth_factor_R = 1%R →
  toR (sim_balance (after_years inp k))
  = (toR (startingAmount inp) + INR (12 * k) * a)%R.
Proof.
  intros Hadd Hq.
  assert (∀ ms s, toR (sim_balance (fold_left (month_step inp) ms s))
                  = (toR (sim_balance s) + INR (length ms) * a)%R) as Hfold.
  { induction ms as [|m ms IHm]; intros s.
    - cbn. lra.
    - rewrite fold_left_cons, IHm, toR_month_step_balance, Hadd.
      fold growth_factor_R. rewrite Hq. cbn [length]. rewrite S_INR. lra. }
  induction k as [|k IH].
  - cbn. lra.
  - unfold after_years in *. rewrite state_from_succ. unfold run_year.
    rewrite Hfold. cbn [year_start sim_balance]. rewrite IH.
    change (length months) with 12%nat.
    replace (12 * S k)%nat with (12 * k + 12)%nat by lia.
    rewrite plus_INR. lra.
Qed.

Lemma added_R_idle :
  (contributionAmount inp <=? lit 0) = true → ∀ m, added_R inp m = 0%R.
Proof.
  intros Hc m. apply nle_spec in Hc. rewrite toR_0 in Hc.
  unfold added_R. apply Rmax_left.
  unfold month_contribution. repeat case_match; rewrite ?toR_0; lra.
Qed.

Lemma added_R_monthly :
  contributionFrequency inp = Freq monthly →
  (contributionAmount inp >? lit 0) = true →
  ∀ m, added_R inp m = toR (contributionAmount inp).
Proof.
  intros Ef Hc m. apply ngt_spec in Hc. rewrite toR_0 in Hc.
  unfold added_R. rewrite month_contribution_monthly by (rewrite Ef; reflexivity).
  apply Rmax_right. lra.
Qed.
End ExactClosedForms.

(** ** The figures of the summary *)

(** X1. The headline figures are those of the last snapshot: [finalBalance] is
    its [balance], [finalRealBalance] its [realBalance], the total of the
    contributions its [totalContributions], and [totalGrowth] the difference of
    the first and the third.  With no snapshot all of them come from
    [startingAmount].  For every number type, binary64 included. *)
Theorem summary_matches_last_row {num : Type} `{NumberOps num}
    (inp : InvestmentInputs num) (fuel : nat) (r : Summary num) :
  summary inp fuel = Some r →
  match last (rows r) with
  | Some row =>
      finalBalance r = balance row
      ∧ finalRealBalance r = realBalance row
      ∧ summaryTotalContributions r = totalContributions row
      ∧ totalGrowth r = (balance row - totalContributions row)%num
  | None =>
      rows r = []
      ∧ finalBalance r = startingAmount inp
      ∧ finalRealBalance r = startingAmount inp
      ∧ summaryTotalContributions r = startingAmount inp
      ∧ totalGrowth r = (startingAmount inp - startingAmount inp)%num
  end.
Proof.
  intros E. apply summary_Some in E as (n & _ & _ & _ & ->).
  destruct n as [|n].
  - cbn. repeat split; reflexivity.
  - unfold summary_of. cbn [rows finalBalance finalRealBalance
      summaryTotalContributions totalGrowth].
    rewrite last_rows_from. cbn. repeat split; reflexivity.
Qed.

Lemma summary_matches_last_row_witness :
  ∃ r row, default_projection = Some r
    ∧ last (rows r) = Some row
    ∧ year row = 20%Z
    ∧ finalBalance r = balance row
    ∧ finalRealBalance r = realBalance row
    ∧ summaryTotalContributions r = totalContributions row.
Proof.
  assert ((λ s, year <$> last (rows s)) <$> default_projection = Some (Some 20%Z)) as Hy
    by (vm_compute; reflexivity).
  destruct default_projection as [r|] eqn:E; [|discriminate].
  cbn in Hy. injection Hy as Hy.
  pose proof (summary_matches_last_row defaultInputs 21 r E) as Hlast.
  destruct (last (rows r)) as [row|] eqn:El; [|discriminate].
  cbn in Hy. injection Hy as Hy.
  exists r, row. destruct Hlast as (H1 & H2 & H3 & _).
  repeat split; assumption.
Defined.

Section ProjectionExtras.
Context {num : Type} `{ExactNumber num}.
Local Open Scope num_scope.

(** In exact arithmetic the ledger adds up.  In every snapshot
    [totalContributions] is [startingAmount] plus the [contribution] of the
    years so far, and [balance] is [totalContributions] plus the [growth] of
    the years so far; in the summary the total of the contributions is
    [startingAmount] plus every year's [contribution], and [totalGrowth] is
    the sum of every year's [growth].  In binary64 each sum is rounded, and
    the two sides agree only up to rounding. *)
Lemma exact_projection_ledger (inp : InvestmentInputs num) :
  (∃ fuel r, summary inp fuel = Some r)
  ∧ ∀ fuel r, summary inp fuel = Some r →
      (∀ i row, rows r !! i = Some row →
         toR (totalContributions row)
         = (toR (startingAmount inp)
            + sum_R ((λ x, toR (contribution x)) <$> take (S i) (rows r)))%R
         ∧ toR (balance row)
           = (toR (totalContributions row)
              + sum_R ((λ x, toR (growth x)) <$> take (S i) (rows r)))%R)
      ∧ toR (summaryTotalContributions r)
        = (toR (startingAmount inp) + sum_R ((λ x, toR (contribution x)) <$> rows r))%R
      ∧ toR (totalGrowth r) = sum_R ((λ x, toR (growth x)) <$> rows r).
Proof.
  split.
  { exists (S (years_run inp)), (summary_of inp (years_run inp)).
    apply summary_exact. lia. }
  intros fuel r E. apply summary_Some in E as (n & _ & _ & _ & ->).
  split; [|split].
  - intros i row Hrow. apply summary_of_row in Hrow as [Hi ->].
    cbn [summary_of rows totalContributions balance snapshot].
    rewrite take_rows_from by lia.
    destruct (rows_from_ledger inp 1 (initial inp) (S i)) as [Hc Hg].
    rewrite Hc, Hg. unfold after_years. cbn [initial sim_totalContributions sim_balance].
    split; lra.
  - cbn [summary_of rows summaryTotalContributions].
    destruct (rows_from_ledger inp 1 (initial inp) n) as [Hc _].
    rewrite Hc. unfold after_years. cbn [initial sim_totalContributions]. lra.
  - cbn [summary_of rows totalGrowth].
    destruct (rows_from_ledger inp 1 (initial inp) n) as [_ Hg].
    rewrite Hg, toR_sub. unfold after_years. cbn [initial sim_totalContributions sim_balance].
    destruct n as [|n].
    + cbn. lra.
    + rewrite last_rows_from. cbn. lra.
Qed.

(** X3. Contributions never lower the principal: every year's [contribution] is
    at least 0, [totalContributions] is at least [startingAmount] and never
    decreases from one year to the next, whatever the inputs. *)
Theorem principal_never_decreases (inp : InvestmentInputs num) :
  (∃ fuel r, summary inp fuel = Some r)
  ∧ ∀ fuel r, summary inp fuel = Some r →
      (∀ i row, rows r !! i = Some row →
         (lit 0 <=? contribution row) = true
         ∧ (startingAmount inp <=? totalContributions row) = true)
      ∧ (∀ i a b, rows r !! i = Some a → rows r !! S i = Some b →
           (totalContributions a <=? totalContributions b) = true).
Proof.
  split.
  { exists (S (years_run inp)), (summary_of inp (years_run inp)).
    apply summary_exact. lia. }
  intros fuel r E. apply summary_Some in E as (n & _ & _ & _ & ->).
  assert (∀ k, (toR (startingAmount inp)
                <= toR (sim_totalContributions (after_years inp k)))%R) as Hstart.
  { induction k as [|k IH]; [cbn; lra|].
    unfold after_years in *. rewrite state_from_succ.
    destruct (run_year_ledger inp (state_from inp (initial inp) k)) as (H1 & _ & H3). lra. }
  split.
  - intros i row Hrow. apply summary_of_row in Hrow as [_ ->].
    cbn [contribution totalContributions snapshot]. rewrite !nle_spec, toR_0.
    split; [|apply Hstart].
    unfold after_years. rewrite state_from_succ.
    apply (run_year_ledger inp (state_from inp (initial inp) i)).
  - intros i a b Ha Hb.
    apply summary_of_row in Ha as [_ ->]. apply summary_of_row in Hb as [_ ->].
    cbn [totalContributions snapshot]. rewrite nle_spec.
    unfold after_years. rewrite (state_from_succ inp _ (S i)).
    destruct (run_year_ledger inp (state_from inp (initial inp) (S i))) as (H1 & _ & H3). lra.
Qed.
End ProjectionExtras.

(** Inputs with a horizon that is not a whole number of years. *)
Definition plan_fraction : InvestmentInputs Qc := {|
  startingAmount := lit 1000;
  contributionAmount := lit (-50);
  contributionFrequency := Freq monthly;
  annualGrowthRate := lit 12;
  inflationRate := lit 6;
  yearsToGrow := lit 2.5;
|}.

Section ProjectionForms.
Context {num : Type} `{ExactNumber num}.
Local Open Scope num_scope.

Lemma years_run_between (inp : InvestmentInputs num) (N : Z) :
  (0 ≤ N)%Z →
  (lit (inject_Z N) <=? yearsToGrow inp) = true →
  (lit (inject_Z (N + 1)) <=? yearsToGrow inp) = false →
  years_run inp = Z.to_nat N.
Proof.
  intros HN Hlo Hhi. apply nle_spec in Hlo. apply nle_false in Hhi.
  rewrite toR_lit_Z in Hlo, Hhi. rewrite plus_IZR in Hhi.
  unfold years_run.
  assert (up (toR (yearsToGrow inp)) = (N + 1)%Z) as ->.
  { symmetry. apply up_tech; rewrite ?plus_IZR; lra. }
  f_equal. lia.
Qed.

(** X4. A horizon between two whole numbers is cut down to the lower one:
    when N ≤ yearsToGrow < N + 1 the projection has the N snapshots of the
    years 1 to N (none when yearsToGrow is below 1). *)
Theorem horizon_is_cut_to_whole_years (inp : InvestmentInputs num) (N : Z) :
  (0 ≤ N)%Z →
  (lit (inject_Z N) <=? yearsToGrow inp) = true →
  (lit (inject_Z (N + 1)) <=? yearsToGrow inp) = false →
  ∃ r, summary inp (S (Z.to_nat N)) = Some r
     ∧ length (rows r) = Z.to_nat N
     ∧ year <$> rows r = seqZ 1 N.
Proof.
  intros HN Hlo Hhi. pose proof (years_run_between inp N HN Hlo Hhi) as En.
  exists (summary_of inp (years_run inp)). split; [|split].
  - apply summary_exact. lia.
  - cbn [summary_of rows]. rewrite length_rows_from. exact En.
  - cbn [summary_of rows]. rewrite fmap_year_rows_from, En, Z2Nat.id by lia. reflexivity.
Qed.

(** In exact arithmetic [realBalance] is [balance] deflated by compound
    inflation: after year k it is the balance divided by
    (1 + i/100/12)^(12k), where i is [inflationRate], or 0 when that is
    negative.  The divisor is at least 1, so deflating keeps the sign of the
    balance and never enlarges it.  Binary64 computes the power by repeated
    rounded products. *)
Lemma exact_real_balance_is_deflated (inp : InvestmentInputs num) :
  (∃ fuel r, summary inp fuel = Some r)
  ∧ ∀ fuel r i row, summary inp fuel = Some r → rows r !! i = Some row →
      let deflator :=
        ((1 + Rmax 0 (toR (inflationRate inp)) / 100 / 12) ^ (12 * S i))%R in
      toR (realBalance row) = (toR (balance row) / deflator)%R
      ∧ (1 <= deflator)%R
      ∧ ((0 <= toR (balance row))%R →
         (0 <= toR (realBalance row) <= toR (balance row))%R)
      ∧ ((toR (balance row) <= 0)%R →
         (toR (balance row) <= toR (realBalance row) <= 0)%R).
Proof.
  split.
  { exists (S (years_run inp)), (summary_of inp (years_run inp)).
    apply summary_exact. lia. }
  intros fuel r i row E Hrow deflator.
  rewrite (summary_row inp fuel r i row E Hrow).
  cbn [realBalance balance snapshot].
  rewrite toR_div, after_years_inflation, toR_inflation_factor_after.
  fold (inflation_R inp). unfold deflator. fold (inflation_R inp).
  pose proof (inflation_factor_at_least_1 inp (12 * S i)) as Hd.
  set (d := ((1 + inflation_R inp) ^ (12 * S i))%R) in *.
  set (b := toR (sim_balance (after_years inp (S i)))).
  split; [reflexivity|]. split; [exact Hd|].
  assert (0 < / d <= 1)%R as [Hi1 Hi2].
  { split; [apply Rinv_0_lt_compat; lra|].
    rewrite <- Rinv_1. apply Rinv_le_contravar; lra. }
  unfold Rdiv. split; intros Hb; split; nra.
Qed.

(** In exact arithmetic, without contributions the balance after year k is
    startingAmount × (1 + annualGrowthRate/100/12)^(12k), for any growth
    rate, and [totalContributions] stays [startingAmount]. *)
Lemma exact_balance_compounds_monthly (inp : InvestmentInputs num) :
  (contributionAmount inp <=? lit 0) = true →
  (∃ fuel r, summary inp fuel = Some r)
  ∧ ∀ fuel r i row, summary inp fuel = Some r → rows r !! i = Some row →
      toR (balance row)
      = (toR (startingAmount inp)
         * (1 + toR (annualGrowthRate inp) / 100 / 12) ^ (12 * S i))%R
      ∧ totalContributions row = startingAmount inp.
Proof.
  intros Hc. split.
  { exists (S (years_run inp)), (summary_of inp (years_run inp)).
    apply summary_exact. lia. }
  intros fuel r i row E Hrow. rewrite (summary_row inp fuel r i row E Hrow).
  cbn [balance totalContributions snapshot]. split.
  - apply (after_years_balance_idle inp (S i) (added_R_idle inp Hc)).
  - apply (after_years_totalContributions_idle inp (S i) (added_R_idle inp Hc)).
Qed.

(** In exact arithmetic, with a positive monthly contribution c and
    starting amount S, the balance after year k is that of an annuity paid at
    the start of each month: with q = 1 + annualGrowthRate/100/12 and
    n = 12k months, S q^n + c q (q^n - 1)/(q - 1) when the growth rate is not
    0, and S + n c when it is. *)
Lemma exact_balance_of_monthly_contributions (inp : InvestmentInputs num) :
  contributionFrequency inp = Freq monthly →
  (contributionAmount inp >? lit 0) = true →
  (∃ fuel r, summary inp fuel = Some r)
  ∧ ∀ fuel r i row, summary inp fuel = Some r → rows r !! i = Some row →
      let q := (1 + toR (annualGrowthRate inp) / 100 / 12)%R in
      let c := toR (contributionAmount inp) in
      (annualGrowthRate inp ≠ lit 0 →
         toR (balance row)
         = (toR (startingAmount inp) * q ^ (12 * S i)
            + c * q * (q ^ (12 * S i) - 1) / (q - 1))%R)
      ∧ (annualGrowthRate inp = lit 0 →
           toR (balance row) = (toR (startingAmount inp) + INR (12 * S i) * c)%R)
      ∧ toR (totalContributions row) = (toR (startingAmount inp) + INR (12 * S i) * c)%R.
Proof.
  intros Ef Hc. split.
  { exists (S (years_run inp)), (summary_of inp (years_run inp)).
    apply summary_exact. lia. }
  intros fuel r i row E Hrow q c.
  pose proof (added_R_monthly inp Ef Hc) as Hadd.
  rewrite (summary_row inp fuel r i row E Hrow).
  cbn [balance totalContributions snapshot]. split; [|split].
  - intros Hr. apply (after_years_balance_annuity inp c (S i) Hadd).
    unfold growth_factor_R, rate_R. intros Hq. apply Hr, toR_inj. rewrite toR_0. lra.
  - intros Hr. apply (after_years_balance_flat inp c (S i) Hadd).
    unfold growth_factor_R, rate_R. rewrite Hr, toR_0. lra.
  - destruct (rows_from_ledger inp 1 (initial inp) (S i)) as [Hsum _].
    assert (∀ y s n, sum_R ((λ x, toR (contribution x)) <$> rows_from inp y s n)
                     = (INR (12 * n) * c)%R) as Hrows.
    { intros y s n. revert y s. induction n as [|n IH]; intros y s.
      - cbn. lra.
      - cbn [rows_from fmap list_fmap sum_R foldr].
        fold (fmap (M:=list) (λ x : YearlySnapshot num, toR (contribution x))).
        unfold sum_R in IH. rewrite IH. cbn [contribution snapshot].
        rewrite run_year_contribution_monthly by (rewrite Ef; reflexivity).
        apply ngt_spec in Hc. rewrite toR_0 in Hc. rewrite Rmax_right by lra.
        replace (12 * S n)%nat with (12 * n + 12)%nat by lia.
        rewrite plus_INR. replace (INR 12) with 12%R by (simpl; lra). fold c. lra. }
    rewrite Hrows in Hsum. unfold after_years.
    cbn [initial sim_totalContributions] in Hsum. lra.
Qed.
End ProjectionForms.

Lemma horizon_is_cut_to_whole_years_witness :
  ∃ r, summary plan_fraction 3 = Some r
     ∧ length (rows r) = 2%nat
     ∧ year <$> rows r = [1; 2]%Z.
Proof.
  apply (horizon_is_cut_to_whole_years plan_fraction 2); [lia|reflexivity|reflexivity].
Defined.

(** ** The balance as a recurrence, in the arithmetic of the source

    The closed forms above hold in exact arithmetic.  What holds in binary64
    as well is the recurrence behind them: each month applies the same
    rounded operations to the balance, whatever else the loop updates. *)

Section Recurrences.
Context {num : Type} `{NumberOps num}.
Variable inp : InvestmentInputs num.
Local Open Scope num_scope.

(** The month's growth added to a balance (lines 163-164). *)
Definition grow (b : num) : num := b + b * (annualGrowthRate inp / lit 100 / lit 12).

(** The contribution added (lines 158-160). *)
Definition pay (t : num) : num := t + contributionAmount inp.

Lemma fold_months_iter {A} (field : Sim → A) (f : A → A) :
  (∀ s m, field (month_step inp s m) = f (field s)) →
  ∀ ms s, field (fold_left (month_step inp) ms s) = Nat.iter (length ms) f (field s).
Proof.
  intros Hstep. induction ms as [|m ms IH]; intros s; [reflexivity|].
  rewrite fold_left_cons, IH, Hstep. cbn [length]. rewrite Nat.iter_succ_r. reflexivity.
Qed.

Lemma after_years_iter {A} (field : Sim → A) (f : A → A) k :
  (∀ s m, field (month_step inp s m) = f (field s)) →
  (∀ s, field (year_start s) = field s) →
  field (after_years inp k) = Nat.iter (12 * k) f (field (initial inp)).
Proof.
  intros Hstep Hstart. unfold after_years. induction k as [|k IH]; [reflexivity|].
  rewrite state_from_succ. unfold run_year.
  rewrite (fold_months_iter field f Hstep), Hstart, IH.
  replace (12 * S k)%nat with (length months + 12 * k)%nat by (rewrite months_eq; cbn; lia).
  rewrite Nat.iter_add. reflexivity.
Qed.

Lemma month_step_unpaid s m :
  (month_contribution inp m >? lit 0) = false →
  sim_balance (month_step inp s m) = grow (sim_balance s)
  ∧ sim_totalContributions (month_step inp s m) = sim_totalContributions s
  ∧ contributionThisYear (month_step inp s m) = contributionThisYear s.
Proof. intros Hc. unfold month_step. rewrite Hc. repeat split; reflexivity. Qed.

Lemma month_step_paid s m :
  (month_contribution inp m >? lit 0) = true →
  sim_balance (month_step inp s m) = grow (sim_balance s + month_contribution inp m)
  ∧ sim_totalContributions (month_step inp s m)
    = sim_totalContributions s + month_contribution inp m
  ∧ contributionThisYear (month_step inp s m)
    = contributionThisYear s + month_contribution inp m.
Proof. intros Hc. unfold month_step. rewrite Hc. repeat split; reflexivity. Qed.

(** X7. Under monthly frequency with a contribution above 0, when the year
    loop runs N times the projection returns N snapshots, and in the
    snapshot of year k the balance is [startingAmount] taken 12k times
    through a month (the contribution added, then the growth of the balance
    so increased), [totalContributions] is [startingAmount] with the
    contribution added 12k times, and [contribution] is 0 with it added 12
    times: each in the arithmetic of the source, so in binary64 each
    addition rounds. *)
Theorem balance_of_monthly_contributions (N : nat) :
  contributionFrequency inp = Freq monthly →
  (contributionAmount inp >? lit 0) = true →
  years_pass inp N = true →
  ∃ r, summary inp (S N) = Some r
     ∧ length (rows r) = N
     ∧ ∀ i row, rows r !! i = Some row →
         balance row
         = Nat.iter (12 * S i)
             (λ b, let b1 := b + contributionAmount inp in
                   b1 + b1 * (annualGrowthRate inp / lit 100 / lit 12))
             (startingAmount inp)
         ∧ totalContributions row
           = Nat.iter (12 * S i) (λ t, t + contributionAmount inp) (startingAmount inp)
         ∧ contribution row
           = Nat.iter 12 (λ t, t + contributionAmount inp) (lit 0).
Proof.
  intros Ef Hc Hp. apply years_pass_spec in Hp as [Hpass Hstop].
  exists (summary_of inp N). split; [|split].
  - apply summary_run; [lia|exact Hpass|exact Hstop].
  - cbn [summary_of rows]. apply length_rows_from.
  - intros i row Hrow. apply summary_of_row in Hrow as [_ ->].
    cbn [balance totalContributions contribution snapshot].
    assert (∀ m, month_contribution inp m = contributionAmount inp) as Em
      by (intros m; apply month_contribution_monthly; rewrite Ef; reflexivity).
    assert (∀ m, (month_contribution inp m >? lit 0) = true) as Hm
      by (intros m; rewrite Em; exact Hc).
    split; [|split].
    + apply (after_years_iter sim_balance); [|reflexivity].
      intros s m. rewrite (proj1 (month_step_paid s m (Hm m))), Em. reflexivity.
    + apply (after_years_iter sim_totalContributions); [|reflexivity].
      intros s m. rewrite (proj1 (proj2 (month_step_paid s m (Hm m)))), Em. reflexivity.
    + unfold after_years. rewrite state_from_succ. unfold run_year.
      rewrite (fold_months_iter contributionThisYear (λ t, t + contributionAmount inp)).
      * reflexivity.
      * intros s m. rewrite (proj2 (proj2 (month_step_paid s m (Hm m)))), Em. reflexivity.
Qed.
End Recurrences.

Section RecurrencesWithoutContribution.
Context {num : Type} `{MonotoneNumber num}.
Variable inp : InvestmentInputs num.
Local Open Scope num_scope.

(** X6. Without a contribution above 0 (zero, negative or NaN), when the
    year loop runs N times the projection returns N snapshots, and in the
    snapshot of year k the balance is [startingAmount] compounded 12k times
    by the monthly step b ↦ b + b × (annualGrowthRate/100/12),
    [totalContributions] is still [startingAmount] and [contribution] is 0.
    The step is that of the source, so in binary64 each product and each sum
    rounds; in exact arithmetic the balance is
    startingAmount × (1 + annualGrowthRate/100/12)^(12k). *)
Theorem balance_compounds_monthly (N : nat) :
  (contributionAmount inp >? lit 0) = false →
  years_pass inp N = true →
  ∃ r, summary inp (S N) = Some r
     ∧ length (rows r) = N
     ∧ ∀ i row, rows r !! i = Some row →
         balance row
         = Nat.iter (12 * S i)
             (λ b, b + b * (annualGrowthRate inp / lit 100 / lit 12))
             (startingAmount inp)
         ∧ totalContributions row = startingAmount inp
         ∧ contribution row = lit 0.
Proof.
  intros Hc Hp. apply years_pass_spec in Hp as [Hpass Hstop].
  exists (summary_of inp N). split; [|split].
  - apply summary_run; [lia|exact Hpass|exact Hstop].
  - cbn [summary_of rows]. apply length_rows_from.
  - intros i row Hrow. apply summary_of_row in Hrow as [_ ->].
    cbn [balance totalContributions contribution snapshot].
    assert (∀ m, (month_contribution inp m >? lit 0) = false) as Hm.
    { intros m. unfold month_contribution.
      repeat case_match; try exact Hc; apply zero_not_pos. }
    split; [|split].
    + apply (after_years_iter inp sim_balance); [|reflexivity].
      intros s m. apply (month_step_unpaid inp s m (Hm m)).
    + rewrite (after_years_iter inp sim_totalContributions (λ t, t) (S i)).
      * generalize (12 * S i)%nat. intros n. induction n as [|n IH]; [reflexivity|exact IH].
      * intros s m. apply (month_step_unpaid inp s m (Hm m)).
      * reflexivity.
    + unfold after_years. rewrite state_from_succ. unfold run_year.
      rewrite (fold_months_iter inp contributionThisYear (λ t, t)).
      * generalize (length months). intros n. induction n as [|n IH]; [reflexivity|exact IH].
      * intros s m. apply (month_step_unpaid inp s m (Hm m)).
Qed.
End RecurrencesWithoutContribution.

(** A plan that is left alone for a year, in binary64. *)
Definition plan_untouched : InvestmentInputs float := {|
  startingAmount := lit 1000;
  contributionAmount := lit 0;
  contributionFrequency := Freq annual;
  annualGrowthRate := lit 12;
  inflationRate := lit 0;
  yearsToGrow := lit 1;
|}.

#[warnings="-inexact-float"] Lemma balance_compounds_monthly_witness :
  ∃ r, summary plan_untouched 2 = Some r
     ∧ length (rows r) = 1%nat
     ∧ (∀ i row, rows r !! i = Some row →
          balance row = Nat.iter (12 * S i) (λ b, b + b * (12 / 100 / 12))%float 1000%float
          ∧ totalContributions row = 1000%float
          ∧ contribution row = 0%float)
     ∧ balance <$> rows r = [1126.8250301319695%float].
Proof.
  destruct (balance_compounds_monthly plan_untouched 1)
    as (r & E & Hlen & Hrows); [reflexivity|reflexivity|].
  exists r. split; [exact E|]. split; [exact Hlen|]. split; [exact Hrows|].
  assert (summary plan_untouched 2 = Some r) as E' by exact E.
  vm_compute in E'. injection E' as <-. reflexivity.
Defined.

Lemma balance_of_monthly_contributions_witness :
  ∃ r, summary (defaultInputs (num:=float)) 21 = Some r
     ∧ length (rows r) = 20%nat
     ∧ ∀ i row, rows r !! i = Some row →
         totalContributions row = Nat.iter (12 * S i) (λ t, t + 500)%float 10000%float
         ∧ contribution row = 6000%float.
Proof.
  destruct (balance_of_monthly_contributions (defaultInputs (num:=float)) 20)
    as (r & E & Hlen & Hrows); [reflexivity|reflexivity|vm_compute; reflexivity|].
  exists r. split; [exact E|]. split; [exact Hlen|].
  intros i row Hrow. destruct (Hrows i row Hrow) as (_ & Ht & Hc).
  split; [exact Ht|]. rewrite Hc. vm_compute. reflexivity.
Defined.

(** ** How the input handlers compose *)

Section InputComposition.
Context {num : Type} `{NumberOps num}.
Variable Number : string → num.

(** X8. Typing the same value twice is typing it once; on one field the last
    value that converts wins; changes of different fields can be made in
    either order; and a click on the frequency toggle overrides whatever
    [handleInputChange] put in the frequency slot and leaves the other
    fields to it. *)
Theorem handleInputChange_composes (field field' : InputKey) (value value' : string)
    (f : ContributionFrequency) (prev : InvestmentInputs num) :
  handleInputChange Number field value (handleInputChange Number field value prev)
  = handleInputChange Number field value prev
  ∧ (isNaN (Number value') = false →
       handleInputChange Number field value' (handleInputChange Number field value prev)
       = handleInputChange Number field value' prev)
  ∧ (field ≠ field' →
       handleInputChange Number field value (handleInputChange Number field' value' prev)
       = handleInputChange Number field' value' (handleInputChange Number field value prev))
  ∧ (field ≠ key_contributionFrequency →
       handleFrequencyChange f (handleInputChange Number field value prev)
       = handleInputChange Number field value (handleFrequencyChange f prev))
  ∧ handleFrequencyChange f (handleInputChange Number key_contributionFrequency value prev)
    = handleFrequencyChange f prev.
Proof.
  unfold handleInputChange, handleFrequencyChange.
  split; [|split; [|split; [|split]]].
  - destruct (isNaN (Number value)), field; reflexivity.
  - intros ->. destruct (isNaN (Number value)), field; reflexivity.
  - intros Hne. destruct (isNaN (Number value)), (isNaN (Number value')), field, field';
      try reflexivity; contradiction.
  - intros Hne. destruct (isNaN (Number value)), field; try reflexivity; contradiction.
  - destruct (isNaN (Number value)); reflexivity.
Qed.
End InputComposition.

Lemma handleInputChange_composes_witness :
  handleInputChange sample_Number key_yearsToGrow "42"
    (handleInputChange sample_Number key_yearsToGrow "7" defaultInputs)
  = handleInputChange sample_Number key_yearsToGrow "42" defaultInputs
  ∧ handleInputChange sample_Number key_yearsToGrow "42"
      (handleInputChange sample_Number key_inflationRate "x" defaultInputs)
    = handleInputChange sample_Number key_inflationRate "x"
        (handleInputChange sample_Number key_yearsToGrow "42" defaultInputs).
Proof.
  split.
  - apply (handleInputChange_composes sample_Number key_yearsToGrow key_yearsToGrow
             "7" "42" monthly defaultInputs). reflexivity.
  - apply (handleInputChange_composes sample_Number key_yearsToGrow key_inflationRate
             "42" "x" monthly defaultInputs). discriminate.
Defined.

(** ** Loading and deleting scenarios *)

Section ListHandlers.
Context {num : Type} `{NumberOps num}.

Lemma find_id_head (s : Scenario num) (l : list (Scenario num)) :
  List.find (λ item, String.eqb (id item) (id s)) (s :: l) = Some s.
Proof. cbn. rewrite String.eqb_refl. reflexivity. Qed.

Lemma find_id_None (i : string) (l : list (Scenario num)) :
  (∀ s, s ∈ l → id s ≠ i) → List.find (λ item, String.eqb (id item) i) l = None.
Proof.
  induction l as [|s l IH]; intros Hl; [reflexivity|]. cbn.
  destruct (String.eqb_spec (id s) i) as [E|_].
  - exfalso. apply (Hl s); [left|exact E].
  - apply IH. intros s' Hs'. apply Hl. right. exact Hs'.
Qed.

Lemma find_id_Some (i : string) (l : list (Scenario num)) s :
  List.find (λ item, String.eqb (id item) i) l = Some s → s ∈ l ∧ id s = i.
Proof.
  induction l as [|x l IH]; [discriminate|]. cbn.
  destruct (String.eqb_spec (id x) i) as [E|_].
  - intros [= <-]. split; [left|exact E].
  - intros Hf. destruct (IH Hf) as [Hin Hid]. split; [right; exact Hin|exact Hid].
Qed.

Lemma find_id_first (i : string) (l1 l2 : list (Scenario num)) s :
  id s = i → (∀ x, x ∈ l1 → id x ≠ i) →
  List.find (λ item, String.eqb (id item) i) (l1 ++ s :: l2) = Some s.
Proof.
  intros Hs. induction l1 as [|x l1 IH]; intros Hl1; cbn.
  - rewrite Hs, String.eqb_refl. reflexivity.
  - destruct (String.eqb_spec (id x) i) as [E|_].
    + exfalso. apply (Hl1 x); [left|exact E].
    + apply IH. intros y Hy. apply Hl1. right. exact Hy.
Qed.

(** X9. [handleLoadScenario] changes the inputs and nothing else.  For an id
    the list does not hold it changes nothing at all; for an id the list
    holds, the inputs become those of the first scenario with that id,
    whatever the inputs were. *)
Theorem handleLoadScenario_frame (i : string) (st : Home.State num) :
  handleLoadScenario i st = setInputs (Home.inputs (handleLoadScenario i st)) st
  ∧ ((∀ s, s ∈ Home.scenarios st → id s ≠ i) → handleLoadScenario i st = st)
  ∧ (∀ l1 s l2, Home.scenarios st = l1 ++ s :: l2 →
       id s = i → (∀ x, x ∈ l1 → id x ≠ i) →
       handleLoadScenario i st = setInputs (inputs s) st).
Proof.
  unfold handleLoadScenario. split; [|split].
  - destruct (List.find _ _); [reflexivity|destruct st; reflexivity].
  - intros Hno. rewrite (find_id_None i _ Hno). reflexivity.
  - intros l1 s l2 El Hs Hl1. rewrite El, (find_id_first i l1 l2 s Hs Hl1). reflexivity.
Qed.

(** X10. A scenario saved in guest mode loads back: after the save, whatever
    happens to the inputs, loading the id the save generated restores the
    inputs that were saved (the new scenario is the first with that id). *)
Theorem saved_scenario_loads_back (answer : string) (p : Platform)
    (st edited : Home.State num) :
  truthy (trim answer) = true →
  Home.storageReady st = true →
  Home.scenarios edited
  = Home.scenarios (handleSaveScenario false (Some answer) p st).1 →
  let generated := match randomUUID p with
                   | Some uuid => uuid
                   | None => Date_now p
                   end in
  Home.inputs (handleLoadScenario generated edited) = Home.inputs st
  ∧ Home.scenarios (handleLoadScenario generated edited) = Home.scenarios edited.
Proof.
  intros Ht Hr Hl generated.
  rewrite (handleSaveScenario_guest answer p st Ht Hr) in Hl. cbn in Hl.
  unfold handleLoadScenario. rewrite Hl.
  change generated with (id (newScenario p (trim answer) (Home.inputs st))).
  rewrite find_id_head. split; [reflexivity|exact Hl].
Qed.

Lemma elem_of_without_id (i : string) (l : list (Scenario num)) s :
  s ∈ without_id i l ↔ s ∈ l ∧ id s ≠ i.
Proof.
  unfold without_id. rewrite !list_elem_of_In, List.filter_In, negb_true_iff.
  destruct (String.eqb_spec (id s) i); split; intros [? ?]; split;
    congruence.
Qed.

Lemma without_id_sublist (i : string) (l : list (Scenario num)) :
  without_id i l `sublist_of` l.
Proof.
  induction l as [|s l IH]; cbn; [constructor|].
  destruct (negb (String.eqb (id s) i)); [apply sublist_skip|apply sublist_cons]; exact IH.
Qed.

Lemma without_id_absent (i : string) (l : list (Scenario num)) :
  (∀ s, s ∈ l → id s ≠ i) → without_id i l = l.
Proof.
  induction l as [|s l IH]; intros Hl; [reflexivity|]. cbn.
  destruct (String.eqb_spec (id s) i) as [E|_].
  - exfalso. apply (Hl s); [left|exact E].
  - cbn. f_equal. apply IH. intros s' Hs'. apply Hl. right. exact Hs'.
Qed.
End ListHandlers.

Lemma saved_scenario_loads_back_witness :
  let saved := (handleSaveScenario false (Some "  My plan ") sample_platform
                  (home guest_world)).1 in
  let edited := setInputs plan_no_years saved in
  Home.inputs (handleLoadScenario "0b5e" edited) = defaultInputs
  ∧ Home.scenarios (handleLoadScenario "0b5e" edited) = Home.scenarios edited.
Proof.
  cbv zeta.
  apply (saved_scenario_loads_back "  My plan " sample_platform (home guest_world));
    reflexivity.
Defined.

(** ** What the modes keep apart *)

Section ModeFacts.
Context {num : Type} `{NumberOps num}.
Variable Number : string → num.
Variable JSON_stringify : list (Scenario num) → string.
Variable JSON_parse : string → option (list (StoredScenario num)).
Variable Date_toISOString : num → string.

Local Abbreviation Step := (step Number JSON_stringify JSON_parse Date_toISOString).
Local Abbreviation Handle := (handle Number JSON_parse Date_toISOString).
Local Abbreviation Reachable :=
  (reachable Number JSON_stringify JSON_parse Date_toISOString).

(** No handler writes device storage: the storage effect is its only
    writer. *)
Lemma handle_localStorage w e w1 : Handle w e = Some w1 → localStorage w1 = localStorage w.
Proof.
  destruct e as [s p|field value|value| |answer p|r|i|i confirmed|k r|k r]; cbn.
  - case_bool_decide; intros [= <-]; [reflexivity|].
    unfold run_load_effect. destruct (isAuthenticated s); reflexivity.
  - intros [= <-]. reflexivity.
  - intros [= <-]. reflexivity.
  - intros [= <-]. reflexivity.
  - destruct (click_save _ _ _ _). intros [= <-]. reflexivity.
  - destruct (savesInFlight w); [discriminate|]. intros [= <-]. reflexivity.
  - intros [= <-]. reflexivity.
  - destruct (handleDeleteScenario _ _ _ _). intros [= <-]. reflexivity.
  - destruct (deletesInFlight w !! k); [|discriminate]. intros [= <-]. reflexivity.
  - destruct (loadsInFlight w !! k); [|discriminate]. intros [= <-]. reflexivity.
Qed.

(** Only a change of session changes the session. *)
Lemma handle_session w e w1 :
  Handle w e = Some w1 →
  session w1 = match e with
               | SessionChanged s _ => s
               | _ => session w
               end.
Proof.
  destruct e as [s p|field value|value| |answer p|r|i|i confirmed|k r|k r]; cbn.
  - case_bool_decide; intros [= <-]; [reflexivity|].
    unfold run_load_effect. destruct (isAuthenticated s); reflexivity.
  - intros [= <-]. reflexivity.
  - intros [= <-]. reflexivity.
  - intros [= <-]. reflexivity.
  - destruct (click_save _ _ _ _). intros [= <-]. reflexivity.
  - destruct (savesInFlight w); [discriminate|]. intros [= <-]. reflexivity.
  - intros [= <-]. reflexivity.
  - destruct (handleDeleteScenario _ _ _ _). intros [= <-]. reflexivity.
  - destruct (deletesInFlight w !! k); [|discriminate]. intros [= <-]. reflexivity.
  - destruct (loadsInFlight w !! k); [|discriminate]. intros [= <-]. reflexivity.
Qed.

(** X11. While the component works against the account it leaves device storage
    alone: no event that ends in authenticated mode changes [localStorage]. *)
Theorem authenticated_mode_keeps_device_storage w e w' :
  Step w e = Some w' → isAuthenticated (session w') = true →
  localStorage w' = localStorage w.
Proof.
  unfold step. destruct (Handle w e) as [w1|] eqn:Eh; [|discriminate].
  intros [= <-]. cbn [run_persist session localStorage]. intros Hauth.
  unfold persist. rewrite Hauth. cbn. exact (handle_localStorage _ _ _ Eh).
Qed.

Lemma length_delete_le {A} (k : nat) (l : list A) : (length (delete k l) <= length l)%nat.
Proof. apply sublist_length, sublist_delete. Qed.

(** X12. In guest mode nothing is sent: an event that starts and ends in guest
    mode adds no save, delete or load request to those in flight. *)
Theorem guest_mode_sends_nothing w e w' :
  Step w e = Some w' →
  isAuthenticated (session w) = false → isAuthenticated (session w') = false →
  (length (savesInFlight w') <= length (savesInFlight w))%nat
  ∧ (length (deletesInFlight w') <= length (deletesInFlight w))%nat
  ∧ (length (loadsInFlight w') <= length (loadsInFlight w))%nat.
Proof.
  unfold step. destruct (Handle w e) as [w1|] eqn:Eh; [|discriminate].
  intros [= <-]. cbn [run_persist session savesInFlight deletesInFlight loadsInFlight].
  intros Hguest Hguest'. revert Eh.
  destruct e as [s p|field value|value| |answer p|r|i|i confirmed|k r|k r]; cbn.
  - case_bool_decide; intros [= <-]; cbn; [lia|].
    unfold run_load_effect. cbn in Hguest'.
    destruct (isAuthenticated s) eqn:Es.
    + exfalso. revert Hguest'. unfold run_load_effect. rewrite Es. cbn. congruence.
    + cbn. rewrite length_fmap. lia.
  - intros [= <-]. cbn. lia.
  - intros [= <-]. cbn. lia.
  - intros [= <-]. cbn. lia.
  - rewrite Hguest. unfold click_save, canSaveScenario, handleSaveScenario.
    intros Eh. assert (savesInFlight w1 = savesInFlight w
                       ∧ deletesInFlight w1 = deletesInFlight w
                       ∧ loadsInFlight w1 = loadsInFlight w) as (-> & -> & ->); [|lia].
    revert Eh. repeat case_match; simplify_eq; intros [= <-]; cbn;
      rewrite ?app_nil_r; repeat split; reflexivity.
  - destruct (savesInFlight w); [discriminate|]. intros [= <-]. cbn. lia.
  - intros [= <-]. cbn. lia.
  - rewrite Hguest. unfold handleDeleteScenario.
    destruct (negb confirmed); intros [= <-]; cbn; rewrite app_nil_r; lia.
  - destruct (deletesInFlight w !! k); [|discriminate]. intros [= <-]. cbn.
    pose proof (length_delete_le k (deletesInFlight w)). lia.
  - destruct (loadsInFlight w !! k); [|discriminate]. intros [= <-]. cbn.
    pose proof (length_delete_le k (loadsInFlight w)). lia.
Qed.
End ModeFacts.

Lemma authenticated_mode_keeps_device_storage_witness :
  step sample_Number sample_stringify sample_parse sample_toISOString
    signed_in_world (SaveClicked (Some "Plan A") sample_platform) = Some saving_world
  ∧ localStorage saving_world = localStorage signed_in_world.
Proof.
  split; [reflexivity|].
  apply (authenticated_mode_keeps_device_storage sample_Number sample_stringify
           sample_parse sample_toISOString signed_in_world
           (SaveClicked (Some "Plan A") sample_platform) saving_world); reflexivity.
Defined.

Lemma guest_mode_sends_nothing_witness :
  ∃ w', step sample_Number sample_stringify sample_parse sample_toISOString
          guest_world (SaveClicked (Some "My plan") sample_platform) = Some w'
      ∧ (length (savesInFlight w') <= length (savesInFlight guest_world))%nat
      ∧ (length (deletesInFlight w') <= length (deletesInFlight guest_world))%nat
      ∧ (length (loadsInFlight w') <= length (loadsInFlight guest_world))%nat.
Proof.
  eexists. split; [vm_compute; reflexivity|].
  apply (guest_mode_sends_nothing sample_Number sample_stringify sample_parse
           sample_toISOString guest_world (SaveClicked (Some "My plan") sample_platform));
    reflexivity.
Defined.

(** ** Invariants of guest mode and of the scenario fetch *)

Section ReachableFacts.
Context {num : Type} `{NumberOps num}.
Variable Number : string → num.
Variable JSON_stringify : list (Scenario num) → string.
Variable JSON_parse : string → option (list (StoredScenario num)).
Variable Date_toISOString : num → string.

Local Abbreviation Step := (step Number JSON_stringify JSON_parse Date_toISOString).
Local Abbreviation Handle := (handle Number JSON_parse Date_toISOString).
Local Abbreviation Reachable :=
  (reachable Number JSON_stringify JSON_parse Date_toISOString).


(** Of the fetches in flight only the latest can be active, and only in
    authenticated mode; while it is, [isLoadingScenarios] is set. *)
Definition loads_fresh (w : World num) : Prop :=
  ∀ k, loadsInFlight w !! k = Some true →
    isAuthenticated (session w) = true
    ∧ S k = length (loadsInFlight w)
    ∧ Home.isLoadingScenarios (home w) = true.

Lemma handleSaveScenario_keeps auth answer p (st : Home.State num) :
  Home.storageReady (handleSaveScenario auth answer p st).1 = Home.storageReady st
  ∧ Home.isLoadingScenarios (handleSaveScenario auth answer p st).1
    = Home.isLoadingScenarios st.
Proof.
  unfold handleSaveScenario. destruct answer as [a|]; [|split; reflexivity].
  destruct (negb (truthy a)); [split; reflexivity|].
  destruct (negb (truthy (trim a))); [split; reflexivity|].
  destruct auth; [split; reflexivity|].
  destruct (negb (Home.storageReady st)); split; reflexivity.
Qed.

Lemma click_save_keeps auth answer p (st : Home.State num) :
  Home.storageReady (click_save auth answer p st).1 = Home.storageReady st
  ∧ Home.isLoadingScenarios (click_save auth answer p st).1 = Home.isLoadingScenarios st.
Proof.
  unfold click_save. destruct (canSaveScenario auth st); [|split; reflexivity].
  apply handleSaveScenario_keeps.
Qed.

Lemma handleSaveScenario_settled_keeps r (st : Home.State num) :
  Home.storageReady (handleSaveScenario_settled r st) = Home.storageReady st
  ∧ Home.isLoadingScenarios (handleSaveScenario_settled r st) = Home.isLoadingScenarios st.
Proof.
  unfold handleSaveScenario_settled. repeat case_match; split; reflexivity.
Qed.

Lemma handleLoadScenario_keeps i (st : Home.State num) :
  Home.storageReady (handleLoadScenario i st) = Home.storageReady st
  ∧ Home.isLoadingScenarios (handleLoadScenario i st) = Home.isLoadingScenarios st.
Proof. unfold handleLoadScenario. case_match; split; reflexivity. Qed.

Lemma handleDeleteScenario_keeps auth i confirmed (st : Home.State num) :
  Home.storageReady (handleDeleteScenario auth i confirmed st).1 = Home.storageReady st
  ∧ Home.isLoadingScenarios (handleDeleteScenario auth i confirmed st).1
    = Home.isLoadingScenarios st.
Proof. unfold handleDeleteScenario. repeat case_match; split; reflexivity. Qed.

Lemma handleDeleteScenario_settled_keeps i r (st : Home.State num) :
  Home.storageReady (handleDeleteScenario_settled i r st) = Home.storageReady st
  ∧ Home.isLoadingScenarios (handleDeleteScenario_settled i r st)
    = Home.isLoadingScenarios st.
Proof. unfold handleDeleteScenario_settled. repeat case_match; split; reflexivity. Qed.









End ReachableFacts.

Section FetchFacts.
Context {num : Type} `{NumberOps num}.
Variable Number : string → num.
Variable JSON_stringify : list (Scenario num) → string.
Variable JSON_parse : string → option (list (StoredScenario num)).
Variable Date_toISOString : num → string.

Local Abbreviation Step := (step Number JSON_stringify JSON_parse Date_toISOString).
Local Abbreviation Handle := (handle Number JSON_parse Date_toISOString).
Local Abbreviation Reachable :=
  (reachable Number JSON_stringify JSON_parse Date_toISOString).

Lemma lookup_stale (l : list bool) k : ((λ _, false) <$> l) !! k ≠ Some true.
Proof.
  rewrite list_lookup_fmap. destruct (l !! k); cbn; congruence.
Qed.

Lemma run_load_effect_fresh s p (w : World num) :
  loads_fresh (run_load_effect JSON_parse Date_toISOString s p w).
Proof.
  unfold loads_fresh, run_load_effect. intros k.
  destruct (isAuthenticated s) eqn:Es; cbn [loadsInFlight session home].
  - intros Hk. rewrite Es.
    destruct (decide (k < length ((λ _, false) <$> loadsInFlight w))%nat) as [Hlt|Hge].
    + rewrite lookup_app_l in Hk by exact Hlt. exfalso. exact (lookup_stale _ _ Hk).
    + apply lookup_lt_Some in Hk as Hlen. rewrite length_app in Hlen |- *. cbn in *.
      split; [reflexivity|]. split; [lia|reflexivity].
  - intros Hk. exfalso. exact (lookup_stale _ _ Hk).
Qed.

Lemma handle_loads_fresh w e w1 : Handle w e = Some w1 → loads_fresh w → loads_fresh w1.
Proof.
  unfold loads_fresh at 1 2.
  destruct e as [s p|field value|value| |answer p|r|i|i confirmed|k r|k r];
    cbn [handle].
  - case_bool_decide as Hd; intros [= <-].
    + cbn. destruct Hd as [-> _]. exact (λ Hw, Hw).
    + intros _. apply run_load_effect_fresh.
  - intros [= <-]. exact (λ Hw, Hw).
  - intros [= <-]. exact (λ Hw, Hw).
  - intros [= <-]. exact (λ Hw, Hw).
  - pose proof (click_save_keeps (isAuthenticated (session w)) answer p (home w)) as [_ Hk].
    destruct (click_save _ _ _ _) as [st request]. cbn in Hk.
    intros [= <-]. cbn [home session loadsInFlight]. rewrite Hk. exact (λ Hw, Hw).
  - destruct (savesInFlight w); [discriminate|]. intros [= <-].
    cbn [home session loadsInFlight].
    rewrite (proj2 (handleSaveScenario_settled_keeps r (home w))). exact (λ Hw, Hw).
  - intros [= <-]. cbn [home session loadsInFlight with_home].
    rewrite (proj2 (handleLoadScenario_keeps i (home w))). exact (λ Hw, Hw).
  - pose proof (handleDeleteScenario_keeps (isAuthenticated (session w)) i confirmed (home w))
      as [_ Hk].
    destruct (handleDeleteScenario _ _ _ _) as [st sent]. cbn in Hk.
    intros [= <-]. cbn [home session loadsInFlight]. rewrite Hk. exact (λ Hw, Hw).
  - destruct (deletesInFlight w !! k); [|discriminate]. intros [= <-].
    cbn [home session loadsInFlight].
    rewrite (proj2 (handleDeleteScenario_settled_keeps _ r (home w))). exact (λ Hw, Hw).
  - destruct (loadsInFlight w !! k) as [active|] eqn:Ek; [|discriminate].
    intros [= <-] Hw j. cbn [home session loadsInFlight].
    pose proof (lookup_lt_Some _ _ _ Ek) as Hklen.
    destruct (decide (j < k)%nat) as [Hjk|Hjk].
    + rewrite list_lookup_delete_lt by exact Hjk. intros Hj.
      destruct (Hw j Hj) as (_ & Hlen & _). lia.
    + rewrite list_lookup_delete_ge by lia. intros Hj.
      destruct (Hw (S j) Hj) as (Hauth & Hlen & Hload).
      split; [exact Hauth|]. split.
      * rewrite length_delete by (rewrite Ek; eexists; reflexivity). lia.
      * destruct active.
        -- destruct (Hw k Ek) as (_ & Hlen' & _). lia.
        -- exact Hload.
Qed.

Lemma reachable_loads_fresh w : Reachable w → loads_fresh w.
Proof.
  induction 1 as [s p storage|w e w' _ IH Hstep].
  - unfold mount. apply run_load_effect_fresh.
  - unfold step in Hstep. destruct (Handle w e) as [w1|] eqn:Eh; [|discriminate].
    injection Hstep as <-. exact (handle_loads_fresh _ _ _ Eh IH).
Qed.

(** X14. Only the answer to the latest scenario fetch counts.  In every
    reachable state at most the fetch sent last is active, and only in
    authenticated mode, with [isLoadingScenarios] set; the answer to any other
    fetch, and any answer arriving in guest mode, changes neither the state of
    the component nor device storage. *)
Theorem stale_fetch_is_discarded (w : World num) :
  Reachable w →
  (∀ k, loadsInFlight w !! k = Some true →
     isAuthenticated (session w) = true
     ∧ S k = length (loadsInFlight w)
     ∧ Home.isLoadingScenarios (home w) = true)
  ∧ (∀ k r w',
       isAuthenticated (session w) = false ∨ S k ≠ length (loadsInFlight w) →
       Step w (LoadSettled k r) = Some w' →
       home w' = home w ∧ localStorage w' = localStorage w ∧ session w' = session w).
Proof.
  intros Hreach. pose proof (reachable_loads_fresh w Hreach) as Hfresh.
  split; [exact Hfresh|].
  intros k r w' Hstale. unfold step. cbn [handle].
  destruct (loadsInFlight w !! k) as [active|] eqn:Ek; [|discriminate].
  intros [= <-]. cbn [run_persist home session localStorage].
  assert (active = false) as ->.
  { destruct active; [|reflexivity]. destruct (Hfresh k Ek) as (Hauth & Hlen & _).
    destruct Hstale; congruence. }
  cbn [load_remote_settled negb]. split; [reflexivity|]. split; [|reflexivity].
  pose proof (run_persist_id JSON_stringify w (reachable_persisted _ _ _ _ w Hreach)) as Hid.
  apply (f_equal localStorage) in Hid. exact Hid.
Qed.

(** X15. A delete in guest mode, once confirmed, removes every scenario with the
    id and nothing else: the others stay, in their order; the device holds
    the new list; nothing is sent.  For an id the list does not hold, the
    list stays as it is; and an unconfirmed delete changes nothing. *)
Theorem guest_delete_removes_the_id (w : World num) (i : string) :
  isAuthenticated (session w) = false →
  Home.storageReady (home w) = true →
  (∃ w', Step w (DeleteClicked i true) = Some w'
       ∧ Home.scenarios (home w') = without_id i (Home.scenarios (home w))
       ∧ (∀ s, s ∈ Home.scenarios (home w') ↔ s ∈ Home.scenarios (home w) ∧ id s ≠ i)
       ∧ Home.scenarios (home w') `sublist_of` Home.scenarios (home w)
       ∧ ((∀ s, s ∈ Home.scenarios (home w) → id s ≠ i) →
          Home.scenarios (home w') = Home.scenarios (home w))
       ∧ localStorage w' !! storageKey (session w')
         = Some (JSON_stringify (Home.scenarios (home w')))
       ∧ Home.inputs (home w') = Home.inputs (home w)
       ∧ deletesInFlight w' = deletesInFlight w)
  ∧ (∃ w', Step w (DeleteClicked i false) = Some w' ∧ home w' = home w).
Proof.
  intros Hguest Hready. unfold step. cbn [handle]. rewrite Hguest.
  unfold handleDeleteScenario. cbn [negb fmap option_fmap option_map].
  split.
  - eexists. split; [reflexivity|].
    cbn [run_persist home session localStorage deletesInFlight setScenarios
         Home.scenarios Home.inputs].
    split; [reflexivity|]. split; [intros s; apply elem_of_without_id|].
    split; [apply without_id_sublist|]. split; [apply without_id_absent|].
    split; [|split; [reflexivity|apply app_nil_r]].
    unfold persist. rewrite Hguest. cbn.
    change (Home.storageReady (setScenarios _ (home w))) with (Home.storageReady (home w)).
    rewrite Hready. cbn. apply lookup_insert_eq.
  - eexists. split; reflexivity.
Qed.
End FetchFacts.

(** The signed-in component, its scenario fetch still in flight, when the
    session ends. *)
Definition signed_out_world : World float :=
  run_persist sample_stringify
    (run_load_effect sample_parse sample_toISOString guest_session sample_platform
       signed_in_world).

Lemma signed_out_world_reachable :
  reachable sample_Number sample_stringify sample_parse sample_toISOString signed_out_world.
Proof.
  apply (reachable_step _ _ _ _ signed_in_world
           (SessionChanged guest_session sample_platform)).
  - apply reachable_mount.
  - reflexivity.
Qed.

(** The fetch that was cut off has left [isLoadingScenarios] set: the guest
    branch of the load effect does not clear it, and the answer, when it
    comes, is discarded whole. *)
Example signed_out_world_still_syncing :
  loadsInFlight signed_out_world = [false]
  ∧ Home.isLoadingScenarios (home signed_out_world) = true
  ∧ ∀ r, (Home.isLoadingScenarios ∘ home)
           <$> step sample_Number sample_stringify sample_parse sample_toISOString
                 signed_out_world (LoadSettled 0 r)
         = Some true.
Proof.
  split; [reflexivity|]. split; [reflexivity|]. intros r. reflexivity.
Qed.


Lemma stale_fetch_is_discarded_witness :
  loadsInFlight signed_out_world = [false]
  ∧ ∀ r w', step sample_Number sample_stringify sample_parse sample_toISOString
              signed_out_world (LoadSettled 0 r) = Some w' →
            home w' = home signed_out_world
            ∧ localStorage w' = localStorage signed_out_world
            ∧ session w' = session signed_out_world.
Proof.
  split; [reflexivity|].
  destruct (stale_fetch_is_discarded sample_Number sample_stringify sample_parse
              sample_toISOString signed_out_world signed_out_world_reachable)
    as [_ Hstale].
  intros r w'. apply Hstale. left. reflexivity.
Defined.

Definition scenario_a : Scenario float :=
  {| id := "a"; name := "Plan A"; createdAt := "2026-01-01T00:00:00.000Z";
     inputs := defaultInputs |}.

Definition scenario_b : Scenario float :=
  {| id := "b"; name := "Plan B"; createdAt := "2026-01-02T00:00:00.000Z";
     inputs := plan_no_years |}.

(** The guest component showing two scenarios. *)
Definition guest_world_ab : World float :=
  run_persist sample_stringify
    (with_home (setScenarios [scenario_a; scenario_b] (home guest_world)) guest_world).

Lemma guest_delete_removes_the_id_witness :
  ∃ w', step sample_Number sample_stringify sample_parse sample_toISOString
          guest_world_ab (DeleteClicked "a" true) = Some w'
      ∧ Home.scenarios (home w') = [scenario_b]
      ∧ localStorage w' !! "scenarios_guest" = Some "Plan B".
Proof.
  destruct (guest_delete_removes_the_id sample_Number sample_stringify sample_parse
              sample_toISOString guest_world_ab "a")
    as [(w' & Hstep & Hlist & _ & _ & _ & Hstore & _) _]; [reflexivity|reflexivity|].
  exists w'. split; [exact Hstep|]. split; [exact Hlist|].
  assert (session w' = guest_session) as Hs.
  { apply (f_equal (fmap (M:=option) session)) in Hstep. cbn in Hstep.
    injection Hstep as <-. reflexivity. }
  rewrite Hs, Hlist in Hstore. exact Hstore.
Defined.

Lemma handleLoadScenario_frame_witness :
  handleLoadScenario "b" (setInputs plan_idle_float (home guest_world_ab))
  = setInputs (inputs scenario_b) (home guest_world_ab)
  ∧ handleLoadScenario "c" (home guest_world_ab) = home guest_world_ab.
Proof.
  destruct (handleLoadScenario_frame "b" (setInputs plan_idle_float (home guest_world_ab)))
    as (_ & _ & Hfound).
  destruct (handleLoadScenario_frame "c" (home guest_world_ab)) as (_ & Hmissing & _).
  split.
  - apply (Hfound [scenario_a] scenario_b []); [reflexivity|reflexivity|].
    intros x Hx. apply list_elem_of_singleton in Hx as ->. discriminate.
  - apply Hmissing. intros s Hs.
    change (Home.scenarios (home guest_world_ab)) with [scenario_a; scenario_b] in Hs.
    rewrite !elem_of_cons, elem_of_nil in Hs. destruct Hs as [->|[->|[]]]; discriminate.
Defined.

(** ** More about [trim] *)

Lemma trimStart_head s c t : trimStart s = String c t → is_white_space c = false.
Proof.
  induction s as [|x s IH]; cbn; [discriminate|].
  destruct (is_white_space x) eqn:Ex; [exact IH|].
  intros [= <- _]. exact Ex.
Qed.

Lemma trimEnd_head c t :
  is_white_space c = false → ∃ t', trimEnd (String c t) = String c t'.
Proof.
  intros Hc. cbn. destruct (trimEnd t) as [|x u].
  - rewrite Hc. eexists. reflexivity.
  - eexists. reflexivity.
Qed.

Lemma trim_head s c t : trim s = String c t → is_white_space c = false.
Proof.
  unfold trim. destruct (trimStart s) as [|x u] eqn:Es; [discriminate|].
  pose proof (trimStart_head s x u Es) as Hx.
  destruct (trimEnd_head x u Hx) as [t' ->]. intros [= <- _]. exact Hx.
Qed.

Lemma trimEnd_idem s : trimEnd (trimEnd s) = trimEnd s.
Proof.
  assert (∀ c t, trimEnd (String c t)
                 = match trimEnd t with
                   | EmptyString =>
                       if is_white_space c then EmptyString else String c EmptyString
                   | String x u => String c (String x u)
                   end) as Hunfold by reflexivity.
  induction s as [|c s IH]; [reflexivity|]. rewrite Hunfold.
  destruct (trimEnd s) as [|x u] eqn:Et.
  - destruct (is_white_space c) eqn:Ec; [reflexivity|]. cbn. rewrite Ec. reflexivity.
  - rewrite Hunfold, IH. reflexivity.
Qed.

Lemma trim_idem s : trim (trim s) = trim s.
Proof.
  unfold trim at 1. destruct (trim s) as [|c t] eqn:Et; [reflexivity|].
  cbn [trimStart]. rewrite (trim_head s c t Et).
  rewrite <- Et. unfold trim. apply trimEnd_idem.
Qed.

Lemma slice0_prefix n s : ∃ rest, s = slice0 n s +:+ rest.
Proof.
  revert s. induction n as [|n IH]; intros [|c s]; cbn.
  - exists "". reflexivity.
  - eexists. reflexivity.
  - exists "". reflexivity.
  - destruct (IH s) as [rest E]. exists rest.
    change (String c s = String c (slice0 n s +:+ rest)). f_equal. exact E.
Qed.

Lemma slice0_head n c t : slice0 (S n) (String c t) = String c (slice0 n t).
Proof. reflexivity. Qed.

(** ** The scenario routes over the table of scenarios

    [GET] and [POST] of [src/app/api/scenarios/route.ts] and [DELETE] of the
    route for one scenario.  The table is the list of its rows; of prisma the
    model keeps what the handlers ask of it: [findMany] returns the rows that
    match [where], ordered as [orderBy] says, [create] adds a row, and
    [deleteMany] removes the rows that match and counts them. *)

From stdpp Require Import sorting.

(** What [serialize] returns (lines 16-21). *)
Record ScenarioJson (payload : Type) := {
  json_id : string;
  json_name : string;
  json_inputs : payload;
  json_createdAt : string;
}.
Arguments json_id {payload} _.
Arguments json_name {payload} _.
Arguments json_inputs {payload} _.
Arguments json_createdAt {payload} _.

Section Routes.
Variable payload : Type.

(** The instant a stored [createdAt] stands for, which the database orders
    by. *)
Variable instant : string → Z.

Local Abbreviation Row := (ScenarioRow payload).
Local Abbreviation rowId := (row_id payload).
Local Abbreviation rowName := (row_name payload).
Local Abbreviation rowInputs := (row_inputs payload).
Local Abbreviation rowUserId := (row_userId payload).
Local Abbreviation rowCreatedAt := (row_createdAt payload).

Definition serialize (scenario : Row) : ScenarioJson payload :=
  {| json_id := rowId scenario;
     json_name := rowName scenario;
     json_inputs := rowInputs scenario;
     json_createdAt := rowCreatedAt scenario |}.

(** [where: { userId: session.user.id }] *)
Definition owned_by (uid : string) (row : Row) : bool :=
  String.eqb (rowUserId row) uid.

(** [where: { id: params.id, userId: session.user.id }] *)
Definition is_target (uid i : string) (row : Row) : bool :=
  String.eqb (rowId row) i && owned_by uid row.

(** [orderBy: { createdAt: "desc" }]: rows of the same instant keep the order
    of the table. *)
Fixpoint insert_newest (row : Row) (l : list Row) : list Row :=
  match l with
  | [] => [row]
  | x :: l' =>
      if (instant (rowCreatedAt x) <? instant (rowCreatedAt row))%Z
      then row :: l
      else x :: insert_newest row l'
  end.

Definition newest_first (l : list Row) : list Row := foldr insert_newest [] l.

(** [GET] (lines 23-36): the status, and the array answered with status
    200. *)
Definition GET (session_user_id : option string) (table : list Row)
    : Z * option (list (ScenarioJson payload)) :=
  match session_user_id with
  | None => (401%Z, None)
  | Some uid =>
      if negb (truthy uid) then (401%Z, None)
      else (200%Z, Some (serialize <$> newest_first (List.filter (owned_by uid) table)))
  end.

(** [POST] with the table: the row it creates is added. *)
Definition POST_table (session_user_id : option string)
    (body : option (PostBody payload)) (db_id db_createdAt : string)
    (table : list Row) : Z * list Row :=
  let '(code, created) := POST payload session_user_id body db_id db_createdAt in
  (code, table ++ option_list created).

(** [DELETE] (lines 73-95 of the file as given): the status and the table
    it leaves. *)
Definition DELETE (session_user_id : option string) (i : string)
    (table : list Row) : Z * list Row :=
  match session_user_id with
  | None => (401%Z, table)
  | Some uid =>
      if negb (truthy uid) then (401%Z, table)
      else
        let count := length (List.filter (is_target uid i) table) in
        let table' := List.filter (λ row, negb (is_target uid i row)) table in
        if (count =? 0)%nat then (404%Z, table') else (200%Z, table')
  end.

Lemma insert_newest_perm row l : insert_newest row l ≡ₚ row :: l.
Proof.
  induction l as [|x l IH]; cbn; [reflexivity|].
  destruct (instant (rowCreatedAt x) <? instant (rowCreatedAt row))%Z; [reflexivity|].
  rewrite IH. apply Permutation_swap.
Qed.

Lemma newest_first_perm l : newest_first l ≡ₚ l.
Proof.
  induction l as [|x l IH]; cbn; [reflexivity|].
  rewrite insert_newest_perm, IH. reflexivity.
Qed.

(** Newest first: no row comes before a newer one. *)
Definition not_older (a b : Row) : Prop :=
  (instant (rowCreatedAt b) ≤ instant (rowCreatedAt a))%Z.

Lemma insert_newest_sorted row l :
  StronglySorted not_older l → StronglySorted not_older (insert_newest row l).
Proof.
  induction 1 as [|x l Hl IH Hx]; cbn.
  - repeat constructor.
  - destruct (Z.ltb_spec (instant (rowCreatedAt x)) (instant (rowCreatedAt row))) as [Hlt|Hge].
    + constructor; [constructor; assumption|].
      constructor; [unfold not_older; lia|].
      eapply Forall_impl; [exact Hx|]. unfold not_older. intros y Hy. lia.
    + constructor; [exact IH|].
      rewrite insert_newest_perm. constructor; [exact Hge|exact Hx].
Qed.

Lemma newest_first_sorted l : StronglySorted not_older (newest_first l).
Proof.
  induction l as [|x l IH]; cbn; [constructor|]. apply insert_newest_sorted, IH.
Qed.

Lemma filter_owned_app uid (l1 l2 : list Row) :
  List.filter (owned_by uid) (l1 ++ l2)
  = List.filter (owned_by uid) l1 ++ List.filter (owned_by uid) l2.
Proof. apply List.filter_app. Qed.

Lemma filter_filter_other u v i (table : list Row) :
  u ≠ v →
  List.filter (owned_by v) (List.filter (λ row, negb (is_target u i row)) table)
  = List.filter (owned_by v) table.
Proof.
  intros Huv. induction table as [|x l IH]; [reflexivity|]. cbn [List.filter].
  destruct (is_target u i x) eqn:Et; cbn [negb].
  - assert (owned_by v x = false) as ->; [|exact IH].
    unfold is_target, owned_by in *. apply andb_true_iff in Et as [_ Eu].
    apply String.eqb_eq in Eu. apply String.eqb_neq. congruence.
  - cbn [List.filter]. destruct (owned_by v x); [f_equal|]; exact IH.
Qed.

Lemma POST_row_owner uid body db_id db_createdAt code row :
  POST payload uid body db_id db_createdAt = (code, Some row) →
  uid = Some (rowUserId row) ∧ rowId row = db_id ∧ rowCreatedAt row = db_createdAt.
Proof.
  unfold POST. intros E. repeat case_match; simplify_eq. repeat split; reflexivity.
Qed.
End Routes.

Section RouteProperties.
Variable payload : Type.
Variable instant : string → Z.

Local Abbreviation Row := (ScenarioRow payload).
Local Abbreviation rowId := (row_id payload).
Local Abbreviation rowName := (row_name payload).
Local Abbreviation rowInputs := (row_inputs payload).
Local Abbreviation rowUserId := (row_userId payload).

Lemma elem_of_filter_owned uid (table : list Row) row :
  row ∈ List.filter (owned_by payload uid) table ↔ row ∈ table ∧ rowUserId row = uid.
Proof.
  rewrite !list_elem_of_In, List.filter_In. unfold owned_by.
  rewrite String.eqb_eq. reflexivity.
Qed.

Lemma is_target_true uid i (row : Row) :
  is_target payload uid i row = true ↔ rowId row = i ∧ rowUserId row = uid.
Proof.
  unfold is_target, owned_by. rewrite andb_true_iff, !String.eqb_eq. reflexivity.
Qed.

Lemma elem_of_filter_not_target uid i (table : list Row) row :
  row ∈ List.filter (λ x, negb (is_target payload uid i x)) table
  ↔ row ∈ table ∧ ¬ (rowId row = i ∧ rowUserId row = uid).
Proof.
  rewrite !list_elem_of_In, List.filter_In, negb_true_iff, <- is_target_true.
  destruct (is_target payload uid i row); split; intros [? ?]; split; congruence.
Qed.

Lemma filter_sublist {A} (f : A → bool) (l : list A) : List.filter f l `sublist_of` l.
Proof.
  induction l as [|x l IH]; cbn; [constructor|].
  destruct (f x); [apply sublist_skip|apply sublist_cons]; exact IH.
Qed.

Lemma filter_all {A} (f : A → bool) (l : list A) :
  length (List.filter (λ x, negb (f x)) l) = length l ∨ List.filter f l ≠ [].
Proof.
  induction l as [|x l IH]; cbn; [left; reflexivity|].
  destruct (f x); cbn; [right; discriminate|].
  destruct IH as [IH|IH]; [left; lia|right; exact IH].
Qed.

Lemma filter_none {A} (f : A → bool) (l : list A) :
  List.filter f l = [] → List.filter (λ x, negb (f x)) l = l.
Proof.
  induction l as [|x l IH]; cbn; [reflexivity|].
  destruct (f x); cbn; [discriminate|]. intros E. f_equal. exact (IH E).
Qed.

Lemma GET_session uid (table : list Row) :
  truthy uid = true →
  GET payload instant (Some uid) table
  = (200%Z, Some (serialize payload
                    <$> newest_first payload instant
                          (List.filter (owned_by payload uid) table))).
Proof. intros Hu. unfold GET. rewrite Hu. reflexivity. Qed.

Lemma DELETE_session_table uid i (table : list Row) :
  truthy uid = true →
  (DELETE payload (Some uid) i table).2
  = List.filter (λ x, negb (is_target payload uid i x)) table.
Proof.
  intros Hu. unfold DELETE. rewrite Hu. cbn [negb].
  destruct (_ =? _)%nat; reflexivity.
Qed.

Lemma DELETE_session_found uid i (table : list Row) row :
  truthy uid = true → row ∈ table → rowId row = i → rowUserId row = uid →
  (DELETE payload (Some uid) i table).1 = 200%Z.
Proof.
  intros Hu Hin Hid Hown. unfold DELETE. rewrite Hu. cbn [negb].
  assert (row ∈ List.filter (is_target payload uid i) table) as Hf.
  { rewrite list_elem_of_In, List.filter_In, <- list_elem_of_In.
    split; [exact Hin|]. apply is_target_true. split; assumption. }
  destruct (List.filter (is_target payload uid i) table); [inversion Hf|reflexivity].
Qed.

(** X16. [GET] answers 401 without a session user; otherwise it lists the rows
    of the session user, all of them and no row of anyone else, newest first. *)
Theorem GET_lists_own_rows_newest_first (uid : string) (table : list Row) :
  GET payload instant None table = (401%Z, None)
  ∧ (truthy uid = false → GET payload instant (Some uid) table = (401%Z, None))
  ∧ (truthy uid = true →
     ∃ l, GET payload instant (Some uid) table = (200%Z, Some (serialize payload <$> l))
        ∧ l ≡ₚ List.filter (owned_by payload uid) table
        ∧ (∀ row, row ∈ l ↔ row ∈ table ∧ rowUserId row = uid)
        ∧ StronglySorted (not_older payload instant) l).
Proof.
  split; [reflexivity|]. split.
  - intros Hu. unfold GET. rewrite Hu. reflexivity.
  - intros Hu. unfold GET. rewrite Hu. cbn [negb].
    exists (newest_first payload instant (List.filter (owned_by payload uid) table)).
    split; [reflexivity|]. split; [apply newest_first_perm|]. split.
    + intros row. rewrite newest_first_perm. apply elem_of_filter_owned.
    + apply newest_first_sorted.
Qed.

(** X17. [DELETE] for a session user removes exactly the rows that have the id
    and belong to that user, keeping the others in their order.  It answers 200
    when there was such a row and 404, with the table as it was, when there was
    none; without a session user it answers 401 and removes nothing. *)
Theorem DELETE_removes_own_rows (uid i : string) (table : list Row) :
  truthy uid = true →
  (∀ row, row ∈ (DELETE payload (Some uid) i table).2
          ↔ row ∈ table ∧ ¬ (rowId row = i ∧ rowUserId row = uid))
  ∧ (DELETE payload (Some uid) i table).2 `sublist_of` table
  ∧ ((DELETE payload (Some uid) i table).1 = 200%Z
     ↔ ∃ row, row ∈ table ∧ rowId row = i ∧ rowUserId row = uid)
  ∧ ((DELETE payload (Some uid) i table).1 ≠ 200%Z →
     (DELETE payload (Some uid) i table).1 = 404%Z
     ∧ (DELETE payload (Some uid) i table).2 = table)
  ∧ DELETE payload None i table = (401%Z, table).
Proof.
  intros Hu. unfold DELETE. rewrite Hu. cbn [negb].
  assert (∀ (c : bool) (a b : Z) (t : list Row), (if c then (a, t) else (b, t)).2 = t)
    as Hsnd by (intros [] ? ? ?; reflexivity).
  rewrite Hsnd.
  split; [intros row; apply elem_of_filter_not_target|].
  split; [apply filter_sublist|].
  destruct (List.filter (is_target payload uid i) table) as [|x l] eqn:Ef; cbn.
  - split; [|split; [|reflexivity]].
    + split; [discriminate|]. intros (row & Hin & Hid & Hown).
      assert (row ∈ List.filter (is_target payload uid i) table) as Hf.
      { rewrite list_elem_of_In, List.filter_In, <- list_elem_of_In.
        split; [exact Hin|]. apply is_target_true. split; assumption. }
      rewrite Ef in Hf. inversion Hf.
    + intros _. split; [reflexivity|]. apply filter_none, Ef.
  - split; [|split; [|reflexivity]].
    + split; [|reflexivity]. intros _. exists x.
      assert (x ∈ List.filter (is_target payload uid i) table) as Hf
        by (rewrite Ef; left).
      rewrite list_elem_of_In, List.filter_In, <- list_elem_of_In in Hf.
      destruct Hf as [Hin Ht]. apply is_target_true in Ht as [Hid Hown].
      repeat split; assumption.
    + intros Hne. contradiction.
Qed.

(** X18. What one user asks of the routes never changes what another user is
    shown: after a [POST] or a [DELETE] by [u], with whatever body or id,
    [GET] answers any other user [v] as before. *)
Theorem requests_leave_other_users_rows (u v : string) (table : list Row) :
  u ≠ v →
  (∀ body db_id db_createdAt,
     GET payload instant (Some v)
       (POST_table payload (Some u) body db_id db_createdAt table).2
     = GET payload instant (Some v) table)
  ∧ (∀ i, GET payload instant (Some v) (DELETE payload (Some u) i table).2
          = GET payload instant (Some v) table).
Proof.
  intros Huv. split.
  - intros body db_id db_createdAt. unfold POST_table.
    destruct (POST payload (Some u) body db_id db_createdAt) as [code [row|]] eqn:Ep;
      cbn [snd option_list]; [|rewrite app_nil_r; reflexivity].
    apply POST_row_owner in Ep as ([= ->] & _).
    unfold GET. destruct (negb (truthy v)); [reflexivity|].
    rewrite filter_owned_app. change (option_list (Some row)) with [row].
    cbn [List.filter]. unfold owned_by at 2.
    destruct (String.eqb_spec (rowUserId row) v) as [E|_]; [contradiction|].
    rewrite (app_nil_r (List.filter _ table)). reflexivity.
  - intros i. unfold DELETE.
    destruct (negb (truthy u)); [reflexivity|].
    assert (∀ (c : bool) (a b : Z) (t : list Row), (if c then (a, t) else (b, t)).2 = t)
      as Hsnd by (intros [] ? ? ?; reflexivity).
    rewrite Hsnd. unfold GET. destruct (negb (truthy v)); [reflexivity|].
    rewrite (filter_filter_other payload u v i table Huv). reflexivity.
Qed.

(** X19. A scenario that [POST] created is listed to its user by [GET], under
    the id and the time the database gave it, until the user deletes it:
    [DELETE] with that id then answers 200, and [GET] lists no scenario with
    that id any more. *)
Theorem created_scenario_is_listed_until_deleted
    (uid : option string) (body : option (PostBody payload))
    (db_id db_createdAt : string) (code : Z) (row : Row) (table : list Row) :
  POST payload uid body db_id db_createdAt = (code, Some row) →
  let table1 := (POST_table payload uid body db_id db_createdAt table).2 in
  (∃ listed, (GET payload instant uid table1) = (200%Z, Some listed)
           ∧ serialize payload row ∈ listed
           ∧ json_id (serialize payload row) = db_id
           ∧ json_createdAt (serialize payload row) = db_createdAt)
  ∧ (DELETE payload uid db_id table1).1 = 200%Z
  ∧ (∃ listed, GET payload instant uid (DELETE payload uid db_id table1).2
               = (200%Z, Some listed)
             ∧ ∀ j, j ∈ listed → json_id j ≠ db_id).
Proof.
  intros Ep table1.
  assert (table1 = table ++ [row]) as Et.
  { unfold table1, POST_table. rewrite Ep. reflexivity. }
  destruct (POST_row_owner payload uid body db_id db_createdAt code row Ep)
    as (-> & Hid & Hat).
  assert (truthy (rowUserId row) = true) as Hu.
  { unfold POST in Ep. destruct (negb (truthy (rowUserId row))) eqn:En; [discriminate|].
    apply negb_false_iff in En. exact En. }
  assert (∀ t (r : Row), r ∈ newest_first payload instant
                                (List.filter (owned_by payload (rowUserId row)) t)
                         ↔ r ∈ t ∧ rowUserId r = rowUserId row) as Hl.
  { intros t r. rewrite newest_first_perm. apply elem_of_filter_owned. }
  split; [|split].
  - eexists. split; [apply GET_session, Hu|]. split; [|split].
    + apply list_elem_of_fmap_2, Hl. split; [|reflexivity].
      rewrite Et. apply elem_of_app. right. left.
    + exact Hid.
    + exact Hat.
  - apply (DELETE_session_found _ _ _ row Hu); [|exact Hid|reflexivity].
    rewrite Et. apply elem_of_app. right. left.
  - eexists. split; [apply GET_session, Hu|].
    intros j Hj. apply list_elem_of_fmap in Hj as (r & -> & Hr).
    apply Hl in Hr as [Hr Hown].
    rewrite (DELETE_session_table _ _ _ Hu) in Hr.
    apply elem_of_filter_not_target in Hr as [_ Hnot].
    cbn [json_id serialize]. intros E. apply Hnot. split; assumption.
Qed.
End RouteProperties.

Section RouteNames.
Variable payload : Type.

Lemma trim_truthy_iff s : truthy (trim s) = true ↔ all_white_space s = false.
Proof.
  rewrite truthy_true, trim_empty. destruct (all_white_space s); split; congruence.
Qed.

(** X20. [POST] creates a scenario exactly when there is a session user, the
    body has a string [name] with a character that is not white space, and its
    [inputs] is an object; it then answers 201.  In every other case nothing is
    created and the answer is 401 or 400. *)
Theorem POST_creates_exactly_when (uid : option string)
    (body : option (PostBody payload)) (db_id db_createdAt : string) :
  ((∃ row, POST payload uid body db_id db_createdAt = (201%Z, Some row))
   ↔ ∃ u b n, uid = Some u ∧ truthy u = true ∧ body = Some b
            ∧ body_name payload b = Some n ∧ all_white_space n = false
            ∧ body_inputs_is_object payload b = true)
  ∧ ((POST payload uid body db_id db_createdAt).2 = None →
     (POST payload uid body db_id db_createdAt).1 = 401%Z
     ∨ (POST payload uid body db_id db_createdAt).1 = 400%Z)
  ∧ ((POST payload uid body db_id db_createdAt).2 ≠ None →
     (POST payload uid body db_id db_createdAt).1 = 201%Z).
Proof.
  unfold POST. split; [split|split].
  - intros [row E]. repeat case_match; simplify_eq.
    match goal with Hc : _ || _ = false |- _ =>
      apply orb_false_iff in Hc as [Hn Ho]; apply negb_false_iff in Hn, Ho end.
    match goal with Hu : negb _ = false |- _ => apply negb_false_iff in Hu end.
    eexists _, _, _. repeat split; try eassumption. apply trim_truthy_iff. assumption.
  - intros (u & b & n & -> & Hu & -> & En & Hn & Ho).
    rewrite Hu, En, Ho. apply trim_truthy_iff in Hn. rewrite Hn. cbn.
    eexists. reflexivity.
  - repeat case_match; cbn; intros; try discriminate; auto.
  - repeat case_match; cbn; intros; try congruence.
Qed.

(** X21. The name [POST] stores is the name of the body in a normal form: its
    first character is not white space, it has 1 to 80 characters, it is a
    prefix of the trimmed name, and it is the trimmed name itself when that
    has at most 80 characters.  The inputs are stored as they were sent. *)
Theorem POST_stores_the_trimmed_name (uid : option string)
    (body : option (PostBody payload)) (db_id db_createdAt : string)
    (code : Z) (row : ScenarioRow payload) :
  POST payload uid body db_id db_createdAt = (code, Some row) →
  ∃ b n, body = Some b ∧ body_name payload b = Some n
       ∧ row_inputs payload row = body_inputs payload b
       ∧ (1 <= String.length (row_name payload row) <= 80)%nat
       ∧ (∃ c t, row_name payload row = String c t ∧ is_white_space c = false)
       ∧ (∃ rest, trim n = row_name payload row +:+ rest)
       ∧ ((String.length (trim n) <= 80)%nat → row_name payload row = trim n).
Proof.
  intros E. pose proof (POST_name_bounds payload _ _ _ _ _ _ E) as [_ Hlen].
  unfold POST in E. repeat case_match; simplify_eq. cbn [row_name row_inputs] in *.
  eexists _, _. split; [reflexivity|]. split; [eassumption|]. split; [reflexivity|].
  split; [exact Hlen|]. split; [|split].
  - match goal with |- context [trim ?n] => destruct (trim n) as [|c t] eqn:Et end.
    + cbn in Hlen. lia.
    + exists c, (slice0 79 t). split; [reflexivity|]. eapply trim_head, Et.
  - apply slice0_prefix.
  - apply slice0_all.
Qed.
End RouteNames.

(** *** A table of three scenarios of two users *)

(** The digits of a time stamp, read as one number. *)
Definition sample_instant (s : string) : Z :=
  fold_left (λ acc c,
               let d := (Z.of_N (Ascii.N_of_ascii c) - 48)%Z in
               if ((0 <=? d) && (d <=? 9))%Z then (10 * acc + d)%Z else acc)
            (list_ascii_of_string s) 0%Z.

Definition row_a1 : ScenarioRow unit :=
  {| row_id := "a"; row_name := "Plan A"; row_inputs := tt;
     row_userId := "u1"; row_createdAt := "2024-01-01T00:00:00.000Z" |}.

Definition row_b2 : ScenarioRow unit :=
  {| row_id := "b"; row_name := "Plan B"; row_inputs := tt;
     row_userId := "u2"; row_createdAt := "2024-02-01T00:00:00.000Z" |}.

Definition row_c1 : ScenarioRow unit :=
  {| row_id := "c"; row_name := "Plan C"; row_inputs := tt;
     row_userId := "u1"; row_createdAt := "2024-03-01T00:00:00.000Z" |}.

Definition sample_table : list (ScenarioRow unit) := [row_a1; row_b2; row_c1].

Definition sample_body : PostBody unit :=
  {| body_name := Some "  Plan D "; body_inputs_is_object := true; body_inputs := tt |}.

Definition row_d1 : ScenarioRow unit :=
  {| row_id := "d"; row_name := "Plan D"; row_inputs := tt;
     row_userId := "u1"; row_createdAt := "2024-04-01T00:00:00.000Z" |}.

Example sample_GET :
  GET unit sample_instant (Some "u1") sample_table
  = (200%Z, Some [serialize unit row_c1; serialize unit row_a1]).
Proof. reflexivity. Qed.

Lemma DELETE_removes_own_rows_witness :
  (DELETE unit (Some "u1") "a" sample_table).1 = 200%Z
  ∧ (DELETE unit (Some "u2") "a" sample_table).1 = 404%Z.
Proof.
  split.
  - destruct (DELETE_removes_own_rows unit "u1" "a" sample_table) as (_ & _ & Hcode & _);
      [reflexivity|].
    apply Hcode. exists row_a1. repeat split. left.
  - destruct (DELETE_removes_own_rows unit "u2" "a" sample_table) as (_ & _ & _ & Hnot & _);
      [reflexivity|].
    apply Hnot. discriminate.
Defined.

Lemma requests_leave_other_users_rows_witness :
  GET unit sample_instant (Some "u2") (DELETE unit (Some "u1") "a" sample_table).2
  = GET unit sample_instant (Some "u2") sample_table.
Proof.
  apply (requests_leave_other_users_rows unit sample_instant "u1" "u2" sample_table).
  discriminate.
Defined.

Lemma created_scenario_is_listed_until_deleted_witness :
  (DELETE unit (Some "u1") "d"
     (POST_table unit (Some "u1") (Some sample_body) "d" "2024-04-01T00:00:00.000Z"
        sample_table).2).1 = 200%Z.
Proof.
  destruct (created_scenario_is_listed_until_deleted unit sample_instant (Some "u1")
              (Some sample_body) "d" "2024-04-01T00:00:00.000Z" 201%Z row_d1
              sample_table eq_refl) as (_ & Hdel & _).
  exact Hdel.
Defined.

Lemma POST_stores_the_trimmed_name_witness :
  ∃ b n, Some sample_body = Some b ∧ body_name unit b = Some n
       ∧ row_name unit row_d1 = trim n.
Proof.
  destruct (POST_stores_the_trimmed_name unit (Some "u1") (Some sample_body) "d"
              "2024-04-01T00:00:00.000Z" 201%Z row_d1 eq_refl)
    as (b & n & Eb & En & _ & _ & _ & _ & Hshort).
  exists b, n. split; [exact Eb|]. split; [exact En|]. apply Hshort.
  injection Eb as <-. injection En as <-. vm_compute. lia.
Defined.

(** ** The component and the routes together

    The requests of the component in authenticated mode, answered by the
    routes over a table.  The inputs cross the wire by [JSON.stringify] and
    [request.json()] one way and by [NextResponse.json] and [response.json()]
    the other; nothing is assumed about the two. *)

Lemma List_filter_perm {A} (f : A → bool) (l1 l2 : list A) :
  l1 ≡ₚ l2 → List.filter f l1 ≡ₚ List.filter f l2.
Proof.
  induction 1 as [|x l1 l2 _ IH|x y l|l1 l2 l3 _ IH1 _ IH2]; cbn.
  - reflexivity.
  - destruct (f x); [constructor|]; exact IH.
  - destruct (f x), (f y); try reflexivity. apply Permutation_swap.
  - etransitivity; eassumption.
Qed.

Lemma StronglySorted_filter {A} (R : relation A) (f : A → bool) (l : list A) :
  StronglySorted R l → StronglySorted R (List.filter f l).
Proof.
  induction 1 as [|x l Hl IH Hx]; cbn; [constructor|].
  destruct (f x); [|exact IH]. constructor; [exact IH|].
  apply Forall_forall. intros y Hy. rewrite list_elem_of_In in Hy.
  apply List.filter_In in Hy as [Hy _].
  rewrite Forall_forall in Hx. apply Hx. rewrite list_elem_of_In. exact Hy.
Qed.

Section ClientServer.
Context {num : Type}.
Variable payload : Type.
Variable encode : InvestmentInputs num → payload.
Variable decode : payload → InvestmentInputs num.
Variable instant : string → Z.

Local Abbreviation Row := (ScenarioRow payload).

(** The body [POST] parses from the request of [handleSaveScenario]. *)
Definition request_body (q : SaveRequest num) : option (PostBody payload) :=
  Some {| body_name := Some (request_name q);
          body_inputs_is_object := true;
          body_inputs := encode (request_inputs q) |}.

(** The [Scenario] the component reads from what [serialize] returned. *)
Definition scenario_of_json (j : ScenarioJson payload) : Scenario num :=
  {| id := json_id j;
     name := json_name j;
     createdAt := json_createdAt j;
     inputs := decode (json_inputs j) |}.

(** The three requests, answered over [table]: how the [fetch] ends, and for
    the two that write, the table afterwards.  A response that is not [ok]
    is not parsed. *)
Definition save_fetch (uid : option string) (q : SaveRequest num)
    (db_id db_createdAt : string) (table : list Row)
    : FetchResult (Scenario num) * list Row :=
  let '(code, created) := POST payload uid (request_body q) db_id db_createdAt in
  (Response code (scenario_of_json <$> (serialize payload <$> created)),
   table ++ option_list created).

Definition delete_fetch (uid : option string) (i : string) (table : list Row)
    : FetchResult unit * list Row :=
  let '(code, table') := DELETE payload uid i table in
  (Response code (Some tt), table').

Definition load_fetch (uid : option string) (table : list Row)
    : FetchResult (list (Scenario num)) :=
  let '(code, answer) := GET payload instant uid table in
  Response code (fmap (M:=list) scenario_of_json <$> answer).

(** The scenarios the component shows for the rows [l]. *)
Definition shown (l : list Row) : list (Scenario num) :=
  scenario_of_json <$> (serialize payload <$> l).

(** The list the component shows is one [GET] could answer for [uid] over
    [table]: the rows of [uid], newest first. *)
Definition in_sync (uid : string) (table : list Row) (st : Home.State num) : Prop :=
  ∃ l, Home.scenarios st = shown l
     ∧ l ≡ₚ List.filter (owned_by payload uid) table
     ∧ StronglySorted (not_older payload instant) l.

Lemma without_id_shown i (l : list Row) :
  without_id i (shown l)
  = shown (List.filter (λ row, negb (String.eqb (row_id payload row) i)) l).
Proof.
  unfold without_id, shown. induction l as [|x l IH]; [reflexivity|].
  cbn [fmap list_fmap List.filter].
  change (id (scenario_of_json (serialize payload x))) with (row_id payload x).
  destruct (negb (row_id payload x =? i)%string); cbn [fmap list_fmap];
    [f_equal|]; exact IH.
Qed.

Lemma filter_owned_not_target uid i (table : list Row) :
  List.filter (owned_by payload uid)
    (List.filter (λ row, negb (is_target payload uid i row)) table)
  = List.filter (λ row, negb (String.eqb (row_id payload row) i))
      (List.filter (owned_by payload uid) table).
Proof.
  induction table as [|x l IH]; [reflexivity|]. cbn [List.filter].
  unfold is_target at 1.
  destruct (owned_by payload uid x) eqn:Eo, (row_id payload x =? i)%string eqn:Ei;
    cbn [andb negb List.filter]; rewrite ?Eo, ?Ei; cbn [negb]; rewrite IH; reflexivity.
Qed.

Lemma in_sync_frame uid table (st st' : Home.State num) :
  Home.scenarios st' = Home.scenarios st → in_sync uid table st → in_sync uid table st'.
Proof. intros E (l & Hl & Hrest). exists l. rewrite E. split; assumption. Qed.

Lemma shown_cons row (l : list Row) :
  shown (row :: l) = scenario_of_json (serialize payload row) :: shown l.
Proof. reflexivity. Qed.

Lemma DELETE_session_missing uid i (table : list Row) :
  truthy uid = true →
  (DELETE payload (Some uid) i table).1 ≠ 200%Z →
  DELETE payload (Some uid) i table = (404%Z, table).
Proof.
  intros Hu. unfold DELETE. rewrite Hu. cbn [negb].
  destruct (List.filter (is_target payload uid i) table) eqn:Ef; cbn; [|congruence].
  intros _. f_equal. apply filter_none, Ef.
Qed.

(** X22. In authenticated mode a save goes through [POST]: for a name with a
    character that is not white space the button, when it is enabled, sends
    the trimmed name, the route stores it cut to 80 characters, and the
    scenario put at the head of the list has the stored name, the id and the
    time of the database, and the inputs as they came back.  The rest of the
    list is kept whole, and the error and the saving flag are cleared. *)
Theorem authenticated_save_goes_through_POST
    (uid answer db_id db_createdAt : string) (p : Platform)
    (table : list Row) (st : Home.State num) :
  truthy uid = true →
  Home.isSavingScenario st = false →
  all_white_space answer = false →
  ∃ st1 q,
    click_save true (Some answer) p st = (st1, Some q)
    ∧ Home.isSavingScenario st1 = true
    ∧ request_name q = trim answer
    ∧ ∃ saved,
        Home.scenarios
          (handleSaveScenario_settled
             (save_fetch (Some uid) q db_id db_createdAt table).1 st1)
        = saved :: Home.scenarios st
        ∧ name saved = slice0 80 (trim answer)
        ∧ (String.length (name saved) <= 80)%nat
        ∧ id saved = db_id
        ∧ createdAt saved = db_createdAt
        ∧ inputs saved = decode (encode (Home.inputs st))
        ∧ Home.isSavingScenario
            (handleSaveScenario_settled
               (save_fetch (Some uid) q db_id db_createdAt table).1 st1) = false
        ∧ Home.scenarioError
            (handleSaveScenario_settled
               (save_fetch (Some uid) q db_id db_createdAt table).1 st1) = None.
Proof.
  intros Hu Hsaving Hname.
  pose proof (proj2 (trim_truthy_iff answer) Hname) as Ht.
  pose proof (trim_truthy answer Ht) as Ha.
  unfold click_save, canSaveScenario, handleSaveScenario.
  rewrite Hsaving, Ha, Ht. cbn [negb].
  eexists _, _. split; [reflexivity|]. split; [reflexivity|]. split; [reflexivity|].
  unfold save_fetch, request_body, POST. cbn [request_name request_inputs body_name
    body_inputs_is_object body_inputs].
  rewrite Hu, trim_idem, Ht. cbn [negb orb fst fmap option_fmap option_map].
  eexists. split; [reflexivity|].
  cbn [name id createdAt inputs scenario_of_json serialize json_id json_name
       json_createdAt json_inputs row_id row_name row_createdAt row_inputs].
  split; [reflexivity|]. split; [rewrite length_slice0; lia|].
  repeat split; reflexivity.
Qed.

(** X23. When the fetch of the load effect is answered by [GET] for a session
    user, the component shows the rows of that user, newest first, and is
    ready. *)
Theorem load_shows_the_users_rows (uid : string) (table : list Row)
    (st : Home.State num) :
  truthy uid = true →
  in_sync uid table (load_remote_settled true (load_fetch (Some uid) table) st)
  ∧ Home.storageReady (load_remote_settled true (load_fetch (Some uid) table) st) = true
  ∧ Home.isLoadingScenarios
      (load_remote_settled true (load_fetch (Some uid) table) st) = false
  ∧ Home.scenarioLoadError
      (load_remote_settled true (load_fetch (Some uid) table) st)
    = Home.scenarioLoadError st.
Proof.
  intros Hu. unfold load_fetch, GET. rewrite Hu. cbn [negb].
  split; [|repeat split; reflexivity].
  eexists. split; [reflexivity|]. split; [apply newest_first_perm|apply newest_first_sorted].
Qed.

(** X24. A save keeps the list in step with the table: when the list shows the
    rows of the user, newest first, and the database gives the new row a
    time that is not before the times it gave before, then after the answer
    of [POST] to any request the list again shows the rows of the user,
    newest first, without a new fetch. *)
Theorem save_keeps_the_list_in_sync (uid db_id db_createdAt : string)
    (q : SaveRequest num) (table : list Row) (st : Home.State num) :
  truthy uid = true →
  (∀ row, row ∈ table →
          (instant (row_createdAt payload row) ≤ instant db_createdAt)%Z) →
  in_sync uid table st →
  in_sync uid (save_fetch (Some uid) q db_id db_createdAt table).2
    (handleSaveScenario_settled (save_fetch (Some uid) q db_id db_createdAt table).1 st).
Proof.
  intros Hu Hclock (l & Hl & Hperm & Hsorted). unfold save_fetch.
  destruct (POST payload (Some uid) (request_body q) db_id db_createdAt)
    as [code [row|]] eqn:Ep; cbn [fst snd fmap option_fmap option_map option_list].
  - destruct (POST_name_bounds payload _ _ _ _ _ _ Ep) as [-> _].
    apply POST_row_owner in Ep as ([= ->] & Hid & Hat).
    exists (row :: l). split; [|split].
    + cbn. rewrite Hl. reflexivity.
    + rewrite List.filter_app. change (option_list (Some row)) with [row].
      cbn [List.filter].
      assert (owned_by payload (row_userId payload row) row = true) as ->
        by apply String.eqb_refl.
      rewrite <- Hperm.
      apply Permutation_cons_append.
    + constructor; [exact Hsorted|]. apply Forall_forall. intros y Hy.
      unfold not_older. rewrite Hat. apply Hclock.
      rewrite Hperm, list_elem_of_In in Hy. apply List.filter_In in Hy as [Hy _].
      rewrite list_elem_of_In. exact Hy.
  - change (option_list None) with (@nil Row). rewrite app_nil_r.
    assert (code = 400%Z) as ->.
    { unfold POST, request_body in Ep. rewrite Hu in Ep. cbn in Ep.
      repeat case_match; simplify_eq; reflexivity. }
    exists l. repeat split; assumption.
Qed.

(** X25. A delete keeps the list in step with the table as well: when the list
    shows the rows of the user, newest first, then after the answer of
    [DELETE], 200 or 404, it again shows the rows of the user that the table
    still has, newest first. *)
Theorem delete_keeps_the_list_in_sync (uid i : string)
    (table : list Row) (st : Home.State num) :
  truthy uid = true →
  in_sync uid table st →
  in_sync uid (delete_fetch (Some uid) i table).2
    (handleDeleteScenario_settled i (delete_fetch (Some uid) i table).1 st).
Proof.
  intros Hu (l & Hl & Hperm & Hsorted). unfold delete_fetch.
  destruct (decide ((DELETE payload (Some uid) i table).1 = 200%Z)) as [E|E].
  - destruct (DELETE payload (Some uid) i table) as [code table'] eqn:Ed.
    cbn [fst snd] in *. subst code. cbn [handleDeleteScenario_settled ok negb].
    assert (table' = List.filter (λ x, negb (is_target payload uid i x)) table) as ->.
    { rewrite <- (DELETE_session_table payload uid i table Hu), Ed. reflexivity. }
    exists (List.filter (λ row, negb (String.eqb (row_id payload row) i)) l).
    split; [|split].
    + cbn. rewrite Hl. apply without_id_shown.
    + rewrite filter_owned_not_target. apply List_filter_perm, Hperm.
    + apply StronglySorted_filter, Hsorted.
  - rewrite (DELETE_session_missing uid i table Hu E). cbn.
    exists l. repeat split; assumption.
Qed.
End ClientServer.

(** *** A table with the inputs as payload, and the component after its
    fetch *)

Definition wire (i : InvestmentInputs float) : InvestmentInputs float := i.

Definition cloud_row_a : ScenarioRow (InvestmentInputs float) :=
  {| row_id := "a"; row_name := "Plan A"; row_inputs := defaultInputs;
     row_userId := "u1"; row_createdAt := "2024-01-01T00:00:00.000Z" |}.

Definition cloud_row_b : ScenarioRow (InvestmentInputs float) :=
  {| row_id := "b"; row_name := "Plan B"; row_inputs := defaultInputs;
     row_userId := "u2"; row_createdAt := "2024-02-01T00:00:00.000Z" |}.

Definition cloud_table : list (ScenarioRow (InvestmentInputs float)) :=
  [cloud_row_a; cloud_row_b].

Definition cloud_home : Home.State float :=
  load_remote_settled true
    (load_fetch (InvestmentInputs float) wire sample_instant (Some "u1") cloud_table)
    (home signed_in_world).

Lemma cloud_home_in_sync :
  in_sync (InvestmentInputs float) wire sample_instant "u1" cloud_table cloud_home.
Proof.
  exists [cloud_row_a]. split; [reflexivity|]. split; [reflexivity|].
  repeat constructor.
Qed.

Lemma authenticated_save_goes_through_POST_witness :
  ∃ st1 q,
    click_save true (Some (" " +:+ long_name)) sample_platform cloud_home = (st1, Some q)
    ∧ ∃ saved,
        Home.scenarios
          (handleSaveScenario_settled
             (save_fetch (InvestmentInputs float) wire wire (Some "u1") q "c"
                "2024-03-01T00:00:00.000Z" cloud_table).1 st1)
        = saved :: Home.scenarios cloud_home
        ∧ String.length (name saved) = 80%nat.
Proof.
  destruct (authenticated_save_goes_through_POST (InvestmentInputs float) wire wire
              "u1" (" " +:+ long_name) "c" "2024-03-01T00:00:00.000Z" sample_platform
              cloud_table cloud_home)
    as (st1 & q & Hclick & _ & _ & saved & Hlist & Hname & _);
    [reflexivity|reflexivity|reflexivity|].
  exists st1, q. split; [exact Hclick|]. exists saved. split; [exact Hlist|].
  rewrite Hname. reflexivity.
Defined.

Lemma load_shows_the_users_rows_witness :
  Home.scenarios cloud_home
  = shown (InvestmentInputs float) wire [cloud_row_a]
  ∧ in_sync (InvestmentInputs float) wire sample_instant "u1" cloud_table cloud_home.
Proof.
  split; [reflexivity|].
  apply (load_shows_the_users_rows (InvestmentInputs float) wire sample_instant "u1"
           cloud_table (home signed_in_world)).
  reflexivity.
Defined.

Definition sample_request : SaveRequest float :=
  {| request_name := "Plan C"; request_inputs := defaultInputs |}.

Lemma save_keeps_the_list_in_sync_witness :
  in_sync (InvestmentInputs float) wire sample_instant "u1"
    (save_fetch (InvestmentInputs float) wire wire (Some "u1") sample_request "c"
       "2024-03-01T00:00:00.000Z" cloud_table).2
    (handleSaveScenario_settled
       (save_fetch (InvestmentInputs float) wire wire (Some "u1") sample_request "c"
          "2024-03-01T00:00:00.000Z" cloud_table).1 cloud_home).
Proof.
  apply (save_keeps_the_list_in_sync (InvestmentInputs float) wire wire sample_instant
           "u1" "c" "2024-03-01T00:00:00.000Z" sample_request cloud_table cloud_home).
  - reflexivity.
  - intros row Hrow. unfold cloud_table in Hrow.
    rewrite !elem_of_cons, elem_of_nil in Hrow.
    destruct Hrow as [->|[->|[]]]; vm_compute; discriminate.
  - exact cloud_home_in_sync.
Defined.

Lemma delete_keeps_the_list_in_sync_witness :
  in_sync (InvestmentInputs float) wire sample_instant "u1"
    (delete_fetch (InvestmentInputs float) (Some "u1") "a" cloud_table).2
    (handleDeleteScenario_settled "a"
       (delete_fetch (InvestmentInputs float) (Some "u1") "a" cloud_table).1 cloud_home).
Proof.
  apply (delete_keeps_the_list_in_sync (InvestmentInputs float) wire sample_instant
           "u1" "a" cloud_table cloud_home).
  - reflexivity.
  - exact cloud_home_in_sync.
Defined.
